(** * The ray-trace Lidar sensor of CARLA (Sensor/Lidar.cpp)

    A shallow embedding of [ALidar]: the laser-angle table built by
    [CreateLasers], the per-tick scan budget and sweep of [ReadPoints],
    the single ray of [ShootLaser], and the [Set]/[Tick] entry points.

    Single-precision arithmetic is modelled bit-exactly with the IEEE 754
    specification of the Standard Library ([SpecFloat], instantiated at
    precision 24 and maximal exponent 128): every operation rounds to
    nearest, ties to even, on its own (no fused multiply-add, no extended
    precision).  [uint32] values are integers in [0, 2^32).  The [check]
    assertions of the engine are taken as enabled: a failed one stops the
    program.  The engine (actor pose, rotator math, line traces, the
    tagger, the global frame counter) is a record of functions the sensor
    calls into. *)

From Stdlib Require Import ZArith List Bool String Lia Sorted.
From Stdlib Require Import QArith Qround.
From Stdlib Require Import Floats.SpecFloat.
Import ListNotations.
Local Open Scope Z_scope.

(* ===================================================================== *)
(** * Single-precision floats *)
(* ===================================================================== *)

Module F32.

Definition prec : Z := 24.
Definition emax : Z := 128.

(** A C++ [float]. *)
Definition float : Type := spec_float.

Definition NaN : float := S754_nan.
Definition zero : float := S754_zero false.

Definition add : float -> float -> float := SFadd prec emax.
Definition sub : float -> float -> float := SFsub prec emax.
Definition mul : float -> float -> float := SFmul prec emax.
Definition div : float -> float -> float := SFdiv prec emax.
Definition opp : float -> float := SFopp.

(** [==], [<] and [<=] on floats (false as soon as one side is a NaN). *)
Definition eqb : float -> float -> bool := SFeqb.
Definition ltb : float -> float -> bool := SFltb.
Definition leb : float -> float -> bool := SFleb.

(** Conversion of an integer to [float] ([static_cast<float>(n)], or the
    implicit conversion of an integer operand), rounding to nearest. *)
Definition of_Z (n : Z) : float := binary_normalize prec emax n 0 false.

(** A value of the format: canonical mantissa, exponent in range. *)
Definition valid (x : float) : bool := valid_binary prec emax x.

(** The exponent the format gives a number of magnitude below [2^e]. *)
Definition fexp32 (e : Z) : Z := fexp prec emax e.

Definition abs : float -> float := SFabs.

(** Finite, with an exponent of at most [k]: of magnitude below
    [2^(k + 24)]. *)
Definition exponent_le (k : Z) (x : float) : bool :=
  match x with
  | S754_zero _ => true
  | S754_finite _ _ e => e <=? k
  | _ => false
  end.

Definition is_nan (x : float) : bool :=
  match x with S754_nan => true | _ => false end.

Definition is_finite (x : float) : bool :=
  match x with S754_zero _ | S754_finite _ _ _ => true | _ => false end.

(** Sign bit clear (and not a NaN). *)
Definition is_nonneg (x : float) : bool :=
  match x with
  | S754_zero _ => true
  | S754_infinity s | S754_finite s _ _ => negb s
  | S754_nan => false
  end.


(** [std::fmod(x, y)]: the remainder [x - n*y] with [n] the quotient
    [x/y] truncated towards zero; it carries the sign of [x], has a
    magnitude below that of [y] and is computed without rounding. *)
Definition fmod (x y : float) : float :=
  match x, y with
  | S754_nan, _ | _, S754_nan => S754_nan
  | S754_infinity _, _ => S754_nan
  | _, S754_zero _ => S754_nan
  | S754_zero _, _ => x
  | S754_finite _ _ _, S754_infinity _ => x
  | S754_finite sx mx ex, S754_finite _ my ey =>
      let e := Z.min ex ey in
      let X := Zpos mx * 2 ^ (ex - e) in
      let Y := Zpos my * 2 ^ (ey - e) in
      binary_normalize prec emax (cond_Zopp sx (X mod Y)) e sx
  end.

(** Conversion of a [float] to [uint32]: the value truncated towards
    zero; the behaviour is undefined ([None]) when the truncated value
    does not fit, and for infinities and NaN. *)
Definition to_uint32 (x : float) : option Z :=
  match x with
  | S754_zero _ => Some 0
  | S754_finite s m e =>
      let t := if 0 <=? e then Zpos m * 2 ^ e else Zpos m / 2 ^ (- e) in
      if s then (if t =? 0 then Some 0 else None)
      else if t <? 2 ^ 32 then Some t else None
  | _ => None
  end.

End F32.

Abbreviation float := F32.float.

Declare Scope f32_scope.
Delimit Scope f32_scope with f32.
Infix "+" := F32.add : f32_scope.
Infix "-" := F32.sub : f32_scope.
Infix "*" := F32.mul : f32_scope.
Infix "/" := F32.div : f32_scope.
Notation "- x" := (F32.opp x) : f32_scope.

(** [uint32] arithmetic wraps around. *)
Definition uint32_max : Z := 2 ^ 32 - 1.
Definition wrap32 (n : Z) : Z := n mod 2 ^ 32.

(** [FMath::RoundHalfFromZero] belongs to the engine.  It is modelled by
    its contract: the nearest integer, with ties going to the value
    further from zero.  A float whose exponent is non-negative is an
    integer already. *)
Definition RoundHalfFromZero (f : float) : float :=
  match f with
  | S754_finite s m e =>
      if 0 <=? e then f
      else
        let n := (Zpos m + 2 ^ (- e - 1)) / 2 ^ (- e) in
        binary_normalize F32.prec F32.emax (cond_Zopp s n) 0 s
  | _ => f
  end.

(* ===================================================================== *)
(** * Engine values *)
(* ===================================================================== *)

Record FVector : Type := mkVector { VX : float; VY : float; VZ : float }.

Record FVector4 : Type :=
  mkVector4 { X4 : float; Y4 : float; Z4 : float; W4 : float }.

Record FRotator : Type :=
  mkRotator { Pitch : float; Yaw : float; Roll : float }.

(** [a * V], [U + V] and [U - V] on vectors work component by component. *)
Definition vscale (a : float) (v : FVector) : FVector :=
  mkVector (a * VX v)%f32 (a * VY v)%f32 (a * VZ v)%f32.
Definition vadd (u v : FVector) : FVector :=
  mkVector (VX u + VX v)%f32 (VY u + VY v)%f32 (VZ u + VZ v)%f32.
Definition vsub (u v : FVector) : FVector :=
  mkVector (VX u - VX v)%f32 (VY u - VY v)%f32 (VZ u - VZ v)%f32.

(** Modelled from the spec: the enumeration [ECityObjectLabel] is declared
    in Game/Tagger.h, a header that is absent.  The sensor only compares
    a label with [None] and stores its numeric code; the other labels are
    the semantic classes of the simulator. *)
Inductive ECityObjectLabel : Type :=
| None_ | Buildings | Fences | Other | Pedestrians | Poles | RoadLines
| Roads | Sidewalks | Vegetation | Vehicles | Walls | TrafficSigns.

Definition CastEnum (t : ECityObjectLabel) : Z :=
  match t with
  | None_ => 0 | Buildings => 1 | Fences => 2 | Other => 3
  | Pedestrians => 4 | Poles => 5 | RoadLines => 6 | Roads => 7
  | Sidewalks => 8 | Vegetation => 9 | Vehicles => 10 | Walls => 11
  | TrafficSigns => 12
  end.

(** [tag == ECityObjectLabel::None]. *)
Definition is_None (t : ECityObjectLabel) : bool :=
  match t with None_ => true | _ => false end.

(** What a line trace reports ([FHitResult], the fields the sensor reads). *)
Record FHitResult : Type := mkHit {
  bBlockingHit : bool;
  ImpactPoint : FVector;
  HitComponent : Z;
  HitActor : Z
}.

(** Modelled from the spec: [ULidarDescription] is declared in
    Settings/LidarDescription.h, a header that is absent.  The fields are
    the ones [ALidar] reads (the LidarConfig of the spec): two counts
    ([uint32]), four single-precision quantities and a flag. *)
Record ULidarDescription : Type := mkDescription {
  Channels : Z;
  Range : float;
  PointsPerSecond : Z;
  RotationFrequency : float;
  UpperFovLimit : float;
  LowerFovLimit : float;
  ShowDebugPoints : bool
}.

(** Modelled from the spec: [FLidarMeasurement] is declared in
    Sensor/LidarMeasurement.h, a header that is absent.  It carries the
    scan state (horizontal angle, frame number) and the point buffer of
    the tick, with the size the buffer was last reserved for. *)
Record FLidarMeasurement : Type := mkMeasurement {
  SensorId : Z;
  ChannelCount : Z;
  HorizontalAngle : float;
  FrameNumber : Z;
  Reserved : Z;
  Points : list (Z * FVector4)
}.

(** Modelled from the spec: the constructor [FLidarMeasurement(id, channels)]
    of the absent header; a new measurement starts at angle 0 and frame 0
    with an empty buffer. *)
Definition FLidarMeasurement_new (id channels : Z) : FLidarMeasurement :=
  mkMeasurement id channels F32.zero 0 0 [].

(** Modelled from the spec: [FLidarMeasurement::Reset] of the absent
    header empties the buffer and sizes it for [total] points. *)
Definition Reset (total : Z) (m : FLidarMeasurement) : FLidarMeasurement :=
  mkMeasurement (SensorId m) (ChannelCount m) (HorizontalAngle m)
    (FrameNumber m) total [].

(** Modelled from the spec: [FLidarMeasurement::WritePoint] of the absent
    header appends one point of [channel] to the buffer. *)
Definition WritePoint (channel : Z) (p : FVector4) (m : FLidarMeasurement)
  : FLidarMeasurement :=
  mkMeasurement (SensorId m) (ChannelCount m) (HorizontalAngle m)
    (FrameNumber m) (Reserved m) (Points m ++ [(channel, p)]).

(** Modelled from the spec: the two setters of the scan state, of the
    absent header. *)
Definition SetFrameNumber (n : Z) (m : FLidarMeasurement) : FLidarMeasurement :=
  mkMeasurement (SensorId m) (ChannelCount m) (HorizontalAngle m)
    n (Reserved m) (Points m).

Definition SetHorizontalAngle (a : float) (m : FLidarMeasurement)
  : FLidarMeasurement :=
  mkMeasurement (SensorId m) (ChannelCount m) a
    (FrameNumber m) (Reserved m) (Points m).

(** Modelled from the spec: [FLidarMeasurement::GetView] of the absent
    header.  The spec has the point buffer change owner at the hand-off
    (its ownership goes to the sink at the end of the tick and the sensor
    does not retain it): the view is the measurement as it stands, and
    what the sensor keeps is the scan state without a buffer. *)
Definition GetView (m : FLidarMeasurement)
  : FLidarMeasurement * FLidarMeasurement :=
  (m, mkMeasurement (SensorId m) (ChannelCount m) (HorizontalAngle m)
        (FrameNumber m) 0 []).

(** The engine as the sensor sees it during one tick.  The sensor is in
    a world ([GetWorld()] is not null while it ticks), and a blocking hit
    names the component and the actor that were struck: [ShootLaser]
    dereferences the three without a test, and what it does without them
    is not modelled. *)
Record Engine : Type := mkEngine {
  GetName : string;
  GetActorLocation : FVector;
  GetActorRotation : FRotator;
  GFrameCounter : Z;
  ComposeRotators : FRotator -> FRotator -> FRotator;
  GetForwardVector : FRotator -> FVector;
  RotateAngleAxis : FVector -> float -> FVector -> FVector;
  LineTraceSingleByChannel : FVector -> FVector -> FHitResult;
  GetTagOfTaggedComponent : Z -> ECityObjectLabel;
  GetTagsOfTaggedActor : Z -> list ECityObjectLabel
}.

(* ===================================================================== *)
(** * The sensor and its effects *)
(* ===================================================================== *)

Record ALidar : Type := mkLidar {
  Id : Z;
  Description : option ULidarDescription;
  LaserAngles : list float;
  LidarMeasurement : FLidarMeasurement
}.

Inductive Verbosity : Type := Fatal | Error | Warning | Display | Log.

(** What the sensor does to the outside, in order. *)
Inductive Event : Type :=
| EvLog (v : Verbosity) (name : string)
| EvLineTrace (start stop : FVector)
| EvDrawDebugPoint (p : FVector)
| EvWriteSensorData (view : FLidarMeasurement).

Record Machine : Type := mkMachine { Sensor : ALidar; Trace : list Event }.

(** A call returns, or stops the program on a failed [check], or has no
    defined behaviour. *)
Inductive Outcome (A : Type) : Type :=
| Ok (a : A)
| CheckFailed (what : string)
| Undefined (what : string).
Arguments Ok {A} a.
Arguments CheckFailed {A} what.
Arguments Undefined {A} what.

Definition M (A : Type) : Type := Machine -> Outcome (A * Machine).

Definition ret {A} (a : A) : M A := fun s => Ok (a, s).

Definition bind {A B} (c : M A) (k : A -> M B) : M B :=
  fun s =>
    match c s with
    | Ok (a, s') => k a s'
    | CheckFailed w => CheckFailed w
    | Undefined w => Undefined w
    end.

Declare Scope lidar_scope.
Delimit Scope lidar_scope with lidar.
Notation "x <- c ;; k" := (bind c (fun x => k))
  (at level 61, c at next level, right associativity) : lidar_scope.
Notation "c ;; k" := (bind c (fun _ => k))
  (at level 61, right associativity) : lidar_scope.
Local Open Scope lidar_scope.

Definition check (b : bool) (what : string) : M unit :=
  fun s => if b then Ok (tt, s) else CheckFailed what.

Definition undefined {A} (what : string) : M A := fun _ => Undefined what.

Definition get_sensor : M ALidar := fun s => Ok (Sensor s, s).

Definition put_sensor (l : ALidar) : M unit :=
  fun s => Ok (tt, mkMachine l (Trace s)).

Definition emit (e : Event) : M unit :=
  fun s => Ok (tt, mkMachine (Sensor s) (Trace s ++ [e])).

Definition set_Description (d : ULidarDescription) : M unit :=
  l <- get_sensor ;;
  put_sensor (mkLidar (Id l) (Some d) (LaserAngles l) (LidarMeasurement l)).

Definition set_LaserAngles (a : list float) : M unit :=
  l <- get_sensor ;;
  put_sensor (mkLidar (Id l) (Description l) a (LidarMeasurement l)).

Definition set_LidarMeasurement (m : FLidarMeasurement) : M unit :=
  l <- get_sensor ;;
  put_sensor (mkLidar (Id l) (Description l) (LaserAngles l) m).

(** [Description->...]: reading through a null pointer is undefined. *)
Definition deref_Description : M ULidarDescription :=
  l <- get_sensor ;;
  match Description l with
  | Some d => ret d
  | None => undefined "Description is null"
  end.

(** [for (auto i = 0u; i < n; ++i) body(i)]. *)
Fixpoint for_each {A} (l : list A) (body : A -> M unit) : M unit :=
  match l with
  | [] => ret tt
  | x :: l' => body x ;; for_each l' body
  end.

Definition indices (n : Z) : list Z := map Z.of_nat (seq 0 (Z.to_nat n)).

Definition for_uint32 (n : Z) (body : Z -> M unit) : M unit :=
  for_each (indices n) body.

(* ===================================================================== *)
(** * ALidar *)
(* ===================================================================== *)

(** [ALidar::CreateLasers]. *)
Definition CreateLasers : M unit :=
  l <- get_sensor ;;
  check (match Description l with Some _ => true | None => false end)
        "Description != nullptr" ;;
  d <- deref_Description ;;
  let NumberOfLasers := Channels d in
  check (0 <? NumberOfLasers) "NumberOfLasers > 0u" ;;
  let DeltaAngle :=
    ((UpperFovLimit d - LowerFovLimit d)
       / F32.of_Z (wrap32 (NumberOfLasers - 1)))%f32 in
  set_LaserAngles [] ;;
  for_uint32 NumberOfLasers (fun i =>
    let VerticalAngle := (UpperFovLimit d - F32.of_Z i * DeltaAngle)%f32 in
    l <- get_sensor ;;
    set_LaserAngles (LaserAngles l ++ [VerticalAngle])).

(** [ALidar::Set].  [Super::Set] does not touch the fields of [ALidar]. *)
Definition Set_ (LidarDescription : ULidarDescription) : M unit :=
  set_Description LidarDescription ;;
  l <- get_sensor ;;
  d <- deref_Description ;;
  set_LidarMeasurement (FLidarMeasurement_new (Id l) (Channels d)) ;;
  CreateLasers.

(** The label loop of [ShootLaser]: the first tag that is not [None]
    replaces [tag]; without one [tag] is kept. *)
Fixpoint first_tag (tag : ECityObjectLabel) (tags : list ECityObjectLabel)
  : ECityObjectLabel :=
  match tags with
  | [] => tag
  | t :: rest => if negb (is_None t) then t else first_tag tag rest
  end.

Section WithEngine.

Variable W : Engine.

(** [ALidar::ShootLaser]: [Some] point when the ray hit something (the
    function returns [true] and fills [XYZL]), [None] when it did not.
    The world, the struck component and the struck actor are there (see
    [Engine]). *)
Definition ShootLaser (Channel : Z) (HorizontalAngle : float)
  : M (option FVector4) :=
  l <- get_sensor ;;
  match nth_error (LaserAngles l) (Z.to_nat Channel) with
  | None => fun _ => CheckFailed "LaserAngles index out of bounds"
  | Some VerticalAngle =>
      let LidarBodyLoc := GetActorLocation W in
      let LidarBodyRot := GetActorRotation W in
      let LaserRot := mkRotator VerticalAngle HorizontalAngle (F32.of_Z 0) in
      let ResultRot := ComposeRotators W LaserRot LidarBodyRot in
      d <- deref_Description ;;
      let EndTrace :=
        vadd (vscale (Range d) (GetForwardVector W ResultRot)) LidarBodyLoc in
      emit (EvLineTrace LidarBodyLoc EndTrace) ;;
      let HitInfo := LineTraceSingleByChannel W LidarBodyLoc EndTrace in
      if bBlockingHit HitInfo then
        (if ShowDebugPoints d
         then emit (EvDrawDebugPoint (ImpactPoint HitInfo))
         else ret tt) ;;
        let XYZ := vsub LidarBodyLoc (ImpactPoint HitInfo) in
        let XYZ :=
          RotateAngleAxis W XYZ
            (- Yaw LidarBodyRot + F32.of_Z 90)%f32
            (mkVector (F32.of_Z 0) (F32.of_Z 0) (F32.of_Z 1)) in
        let tag := GetTagOfTaggedComponent W (HitComponent HitInfo) in
        let tag :=
          if is_None tag
          then first_tag tag (GetTagsOfTaggedActor W (HitActor HitInfo))
          else tag in
        ret (Some (mkVector4 (VX XYZ) (VY XYZ) (VZ XYZ)
                             (F32.of_Z (CastEnum tag))))
      else ret None
  end.

(** The number of points each laser scans in [DeltaTime]
    ([PointsToScanWithOneLaser] in [ReadPoints]). *)
Definition PointsToScanWithOneLaser (d : ULidarDescription)
  (DeltaTime : float) : option Z :=
  F32.to_uint32
    (RoundHalfFromZero
       (F32.of_Z (PointsPerSecond d) * DeltaTime
          / F32.of_Z (Channels d))%f32).

(** [ALidar::ReadPoints]. *)
Definition ReadPoints (DeltaTime : float) : M unit :=
  d <- deref_Description ;;
  let ChannelCount := Channels d in
  match PointsToScanWithOneLaser d DeltaTime with
  | None => undefined "float to uint32 conversion out of range"
  | Some PointsToScan =>
      if PointsToScan <=? 0 then
        emit (EvLog Warning (GetName W))
      else
        l <- get_sensor ;;
        check (ChannelCount =? Z.of_nat (List.length (LaserAngles l)))
              "ChannelCount == LaserAngles.Num()" ;;
        check (match Description l with Some _ => true | None => false end)
              "Description != nullptr" ;;
        let CurrentHorizontalAngle := HorizontalAngle (LidarMeasurement l) in
        let AngleDistanceOfTick :=
          (RotationFrequency d * F32.of_Z 360 * DeltaTime)%f32 in
        let AngleDistanceOfLaserMeasure :=
          (AngleDistanceOfTick / F32.of_Z PointsToScan)%f32 in
        set_LidarMeasurement
          (Reset (wrap32 (ChannelCount * PointsToScan)) (LidarMeasurement l)) ;;
        for_uint32 ChannelCount (fun Channel =>
          for_uint32 PointsToScan (fun i =>
            let Angle :=
              (CurrentHorizontalAngle
               + AngleDistanceOfLaserMeasure * F32.of_Z i)%f32 in
            r <- ShootLaser Channel Angle ;;
            match r with
            | Some Point =>
                l <- get_sensor ;;
                set_LidarMeasurement
                  (WritePoint Channel Point (LidarMeasurement l))
            | None => ret tt
            end)) ;;
        let HorizontalAngle' :=
          F32.fmod (CurrentHorizontalAngle + AngleDistanceOfTick)%f32
                   (F32.of_Z 360) in
        l <- get_sensor ;;
        set_LidarMeasurement
          (SetFrameNumber (GFrameCounter W) (LidarMeasurement l)) ;;
        l <- get_sensor ;;
        set_LidarMeasurement
          (SetHorizontalAngle HorizontalAngle' (LidarMeasurement l))
  end.

(** [ALidar::Tick].  [Super::Tick] does not touch the fields of
    [ALidar]; [GetView] takes the view out of the measurement and
    [WriteSensorData] hands it to the sink. *)
Definition Tick (DeltaTime : float) : M unit :=
  ReadPoints DeltaTime ;;
  l <- get_sensor ;;
  let (view, kept) := GetView (LidarMeasurement l) in
  set_LidarMeasurement kept ;;
  emit (EvWriteSensorData view).

End WithEngine.

(* ===================================================================== *)
(** * What the sensor computes, in closed form *)
(* ===================================================================== *)

(** The step between two lasers and the table of [CreateLasers]. *)
Definition DeltaAngle (d : ULidarDescription) : float :=
  ((UpperFovLimit d - LowerFovLimit d) / F32.of_Z (wrap32 (Channels d - 1)))%f32.

Definition laser_angle (d : ULidarDescription) (i : Z) : float :=
  (UpperFovLimit d - F32.of_Z i * DeltaAngle d)%f32.

Definition laser_table (d : ULidarDescription) : list float :=
  map (laser_angle d) (indices (Channels d)).

(** The sensor right after a successful [Set]. *)
Definition configured_sensor (id : Z) (d : ULidarDescription) : ALidar :=
  mkLidar id (Some d) (laser_table d) (FLidarMeasurement_new id (Channels d)).

(** The state [ReadPoints] relies on: a description, and one angle per
    channel. *)
Definition configured (l : ALidar) (d : ULidarDescription) : Prop :=
  Description l = Some d /\
  Channels d = Z.of_nat (List.length (LaserAngles l)).

(** The loop invariant of the sweep: description and table stay put. *)
Definition sweep_inv (d : ULidarDescription) (angles : list float)
  (m : Machine) : Prop :=
  Description (Sensor m) = Some d /\ LaserAngles (Sensor m) = angles.

(** The label of a hit as the spec words it: the tag of the struck
    component unless it is none, else the first tag of the struck object
    that is not none, else none. *)
Definition resolve_label (component_tag : ECityObjectLabel)
  (object_tags : list ECityObjectLabel) : ECityObjectLabel :=
  if is_None component_tag then
    match find (fun t => negb (is_None t)) object_tags with
    | Some t => t
    | None => None_
    end
  else component_tag.


Section Rays.

Variable W : Engine.
Variable d : ULidarDescription.

(** Where the ray of vertical angle [va] and horizontal angle [ha] ends,
    and what the world answers. *)
Definition ray_end (va ha : float) : FVector :=
  vadd (vscale (Range d)
          (GetForwardVector W
             (ComposeRotators W (mkRotator va ha (F32.of_Z 0))
                (GetActorRotation W))))
       (GetActorLocation W).

Definition ray_hit (va ha : float) : FHitResult :=
  LineTraceSingleByChannel W (GetActorLocation W) (ray_end va ha).

Definition hit_position (h : FHitResult) : FVector :=
  RotateAngleAxis W (vsub (GetActorLocation W) (ImpactPoint h))
    (- Yaw (GetActorRotation W) + F32.of_Z 90)%f32
    (mkVector (F32.of_Z 0) (F32.of_Z 0) (F32.of_Z 1)).

Definition hit_label (h : FHitResult) : ECityObjectLabel :=
  resolve_label (GetTagOfTaggedComponent W (HitComponent h))
                (GetTagsOfTaggedActor W (HitActor h)).

Definition hit_point (h : FHitResult) : FVector4 :=
  let p := hit_position h in
  mkVector4 (VX p) (VY p) (VZ p) (F32.of_Z (CastEnum (hit_label h))).

Definition ray_result (va ha : float) : option FVector4 :=
  if bBlockingHit (ray_hit va ha) then Some (hit_point (ray_hit va ha))
  else None.

Definition ray_events (va ha : float) : list Event :=
  EvLineTrace (GetActorLocation W) (ray_end va ha)
  :: (if bBlockingHit (ray_hit va ha) && ShowDebugPoints d
      then [EvDrawDebugPoint (ImpactPoint (ray_hit va ha))] else []).

(** The rays of one sweep, channel by channel: [n] samples per channel,
    starting at [cur] and [step] apart. *)
Variable angles : list float.
Variable cur step : float.

Definition sweep_rays (n : Z) : list (Z * Z) :=
  flat_map (fun c => map (pair c) (indices n)) (indices (Channels d)).

Definition ray_vertical (c : Z) : float := nth (Z.to_nat c) angles F32.NaN.
Definition ray_horizontal (i : Z) : float := (cur + step * F32.of_Z i)%f32.

Definition ray_points (r : Z * Z) : list (Z * FVector4) :=
  match ray_result (ray_vertical (fst r)) (ray_horizontal (snd r)) with
  | Some p => [(fst r, p)]
  | None => []
  end.

Definition sweep_points (n : Z) : list (Z * FVector4) :=
  flat_map ray_points (sweep_rays n).

Definition sweep_events (n : Z) : list Event :=
  flat_map (fun r => ray_events (ray_vertical (fst r)) (ray_horizontal (snd r)))
           (sweep_rays n).

End Rays.

(** The quantities of a scanning tick. *)
Definition AngleDistanceOfTick (d : ULidarDescription) (dt : float) : float :=
  (RotationFrequency d * F32.of_Z 360 * dt)%f32.

Definition next_angle (d : ULidarDescription) (cur dt : float) : float :=
  F32.fmod (cur + AngleDistanceOfTick d dt)%f32 (F32.of_Z 360).

(** The measurement a scanning tick of [n] points per laser leaves. *)
Definition scanned_measurement (W : Engine) (d : ULidarDescription)
  (l : ALidar) (dt : float) (n : Z) : FLidarMeasurement :=
  let m := LidarMeasurement l in
  let cur := HorizontalAngle m in
  let step := (AngleDistanceOfTick d dt / F32.of_Z n)%f32 in
  mkMeasurement (SensorId m) (ChannelCount m) (next_angle d cur dt)
    (GFrameCounter W) (wrap32 (Channels d * n))
    (sweep_points W d (LaserAngles l) cur step n).

Definition count_traces (t : list Event) : nat :=
  List.length (filter (fun e => match e with EvLineTrace _ _ => true | _ => false end) t).

(** Machine updates. *)
Definition with_angles (a : list float) (m : Machine) : Machine :=
  mkMachine (mkLidar (Id (Sensor m)) (Description (Sensor m)) a
                     (LidarMeasurement (Sensor m))) (Trace m).

Definition with_measurement (x : FLidarMeasurement) (m : Machine) : Machine :=
  mkMachine (mkLidar (Id (Sensor m)) (Description (Sensor m))
                     (LaserAngles (Sensor m)) x) (Trace m).

Definition with_events (t : list Event) (m : Machine) : Machine :=
  mkMachine (Sensor m) (Trace m ++ t).


(** [a] lies in [0, 360). *)
Definition in_0_360 (a : float) : bool :=
  F32.leb F32.zero a && F32.ltb a (F32.of_Z 360).

(** Strictly decreasing, with the comparison of floats. *)
Fixpoint strictly_decreasing (l : list float) : bool :=
  match l with
  | a :: ((b :: _) as rest) => F32.ltb b a && strictly_decreasing rest
  | _ => true
  end.

(* ===================================================================== *)
(** * Concrete configurations and engines *)
(* ===================================================================== *)

(** 32 channels between +10 and -30 degrees, 56000 points per second,
    10 revolutions per second. *)
Definition sample_description : ULidarDescription :=
  mkDescription 32 (F32.of_Z 5000) 56000 (F32.of_Z 10)
    (F32.of_Z 10) (F32.of_Z (-30)) false.

Definition with_channels (n : Z) (d : ULidarDescription) : ULidarDescription :=
  mkDescription n (Range d) (PointsPerSecond d) (RotationFrequency d)
    (UpperFovLimit d) (LowerFovLimit d) (ShowDebugPoints d).

Definition with_fov (upper lower : float) (d : ULidarDescription)
  : ULidarDescription :=
  mkDescription (Channels d) (Range d) (PointsPerSecond d)
    (RotationFrequency d) upper lower (ShowDebugPoints d).

Definition with_rotation (f : float) (d : ULidarDescription)
  : ULidarDescription :=
  mkDescription (Channels d) (Range d) (PointsPerSecond d) f
    (UpperFovLimit d) (LowerFovLimit d) (ShowDebugPoints d).

Definition with_rate (range : float) (pps : Z) (d : ULidarDescription)
  : ULidarDescription :=
  mkDescription (Channels d) range pps (RotationFrequency d)
    (UpperFovLimit d) (LowerFovLimit d) (ShowDebugPoints d).

(** A sensor right after construction, and the machine it starts in. *)
Definition new_sensor : ALidar :=
  mkLidar 1 None [] (FLidarMeasurement_new 0 0).

Definition boot : Machine := mkMachine new_sensor [].

(** An engine at rest at the origin: rotators compose to the laser's
    own, the forward vector of a rotator is (yaw, pitch, 1), and a trace
    hits, at its end, exactly when [hits] says so.  The struck component
    carries no tag; the struck actor carries [tags]. *)
Definition still_engine (hits : FVector -> bool)
  (tags : list ECityObjectLabel) : Engine :=
  mkEngine "Lidar" (mkVector F32.zero F32.zero F32.zero)
    (mkRotator F32.zero F32.zero F32.zero) 7
    (fun laser body => laser)
    (fun r => mkVector (Yaw r) (Pitch r) (F32.of_Z 1))
    (fun v angle axis => v)
    (fun start stop => mkHit (hits stop) stop 1 2)
    (fun component => None_)
    (fun actor => tags).

(** Only the rays of the upper half (non-negative pitch) hit. *)
Definition upper_half (stop : FVector) : bool := F32.is_nonneg (VY stop).

(** A configured sensor in mid-rotation: at 350 degrees, frame 5, with
    one point of channel 0 in its buffer. *)
Definition mid_sweep (d : ULidarDescription) : ALidar :=
  mkLidar 1 (Some d) (laser_table d)
    (mkMeasurement 1 (Channels d) (F32.of_Z 350) 5 64
       [(0, mkVector4 (F32.of_Z 1) (F32.of_Z 2) (F32.of_Z 3) (F32.of_Z 10))]).

Definition mid_sweep_sensor : ALidar := mid_sweep sample_description.

(** One revolution per second; ten revolutions per second backwards. *)
Definition slow_description : ULidarDescription :=
  with_rotation (F32.of_Z 1) sample_description.

Definition backwards_description : ULidarDescription :=
  with_rotation (F32.of_Z (-10)) sample_description.

(** Two channels and 40 points per second: one ray per channel in 1/20 s. *)
Definition small_description : ULidarDescription :=
  with_channels 2 (with_rate (F32.of_Z 5000) 40 sample_description).

(** Limits the wrong way round; no range and no points at all. *)
Definition inverted_description : ULidarDescription :=
  with_fov (F32.of_Z (-30)) (F32.of_Z 10) sample_description.

Definition null_description : ULidarDescription :=
  with_rate (F32.of_Z 0) 0 sample_description.

Definition one_twentieth : float := (F32.of_Z 1 / F32.of_Z 20)%f32.
Definition one_twelfth : float := (F32.of_Z 1 / F32.of_Z 12)%f32.



(** The sensor once the view was taken out of its measurement. *)
Definition handed_over (l : ALidar) : ALidar :=
  mkLidar (Id l) (Description l) (LaserAngles l)
    (snd (GetView (LidarMeasurement l))).

(** One ray more: its points in the buffer, its events in the trace. *)
Definition add_ray (pts : list (Z * FVector4)) (evs : list Event) (m : Machine)
  : Machine :=
  let x := LidarMeasurement (Sensor m) in
  with_events evs
    (with_measurement
       (mkMeasurement (SensorId x) (ChannelCount x) (HorizontalAngle x)
          (FrameNumber x) (Reserved x) (Points x ++ pts)) m).

(** The shape of a rounded result: a valid float of sign [sx], null only
    if [zero_ok], infinite only from exponent 104 on, and otherwise of
    exponent [e] or [e + 1]. *)
Definition shaped (sx : bool) (zero_ok : Prop) (e : Z) (r : spec_float) : Prop :=
  F32.valid r = true /\
  match r with
  | S754_zero s => s = sx /\ zero_ok
  | S754_infinity s => s = sx /\ 104 <= e
  | S754_finite s _ e2 => s = sx /\ e <= e2 <= e + 1
  | S754_nan => False
  end.


(** ** Rounding, as a function on integers *)

(** Rounding [P / 2^n] to the nearest integer, ties to even. *)
Definition rne (P n : Z) : Z :=
  let q := P / 2 ^ n in
  match 2 * (P mod 2 ^ n) ?= 2 ^ n with
  | Lt => q
  | Eq => if Z.even q then q else q + 1
  | Gt => q + 1
  end.

(** The float of sign [s], mantissa [M] and exponent [E]: a mantissa of
    [2^24] is renormalised, an exponent above 104 is an overflow. *)
Definition finish (s : bool) (M E : Z) : float :=
  match M with
  | Z0 => S754_zero s
  | Zpos m =>
      if M <? 2 ^ 24
      then if E <=? 104 then S754_finite s m E else S754_infinity s
      else if E + 1 <=? 104 then S754_finite s 8388608 (E + 1)
           else S754_infinity s
  | Zneg _ => S754_nan
  end.

(** What the second half of [binary_round_aux] does to a rounded mantissa. *)
Definition stage2 (s : bool) (M E : Z) : float :=
  let '(mrs, e') := shr_fexp F32.prec F32.emax M E loc_Exact in
  match shr_m mrs with
  | Z0 => S754_zero s
  | Zpos p => if e' <=? F32.emax - F32.prec then S754_finite s p e' else S754_infinity s
  | Zneg _ => S754_nan
  end.

(** A mantissa and exponent the format can hold as they are, up to the
    renormalisation of [2^24]. *)
Definition roundable (M E : Z) : Prop :=
  M = 0 \/ (0 < M /\ F32.fexp32 (Zdigits2 M + E) = E) \/
  (M = 2 ^ 24 /\ F32.fexp32 (24 + E) = E).

(** The value of a finite float, in units of [2^-149]. *)
Definition ival (x : float) : Z :=
  match x with
  | S754_finite s m e => cond_Zopp s (Zpos m * 2 ^ (e + 149))
  | _ => 0
  end.

(** ** Frames, events and variants of a description *)

(** A sensor whose description object was given 64 channels after [Set]
    built the table for 32: the sensor points to the description, it
    holds no copy of it. *)
Definition stale_sensor : ALidar :=
  mkLidar 1 (Some (with_channels 64 sample_description))
    (laser_table sample_description) (FLidarMeasurement_new 1 32).

(** The debug points among the events, and the hand-overs to the sink. *)
Definition is_debug (e : Event) : bool :=
  match e with EvDrawDebugPoint _ => true | _ => false end.

Definition count_debug (t : list Event) : nat :=
  List.length (filter is_debug t).

Definition count_writes (t : list Event) : nat :=
  List.length
    (filter (fun e => match e with EvWriteSensorData _ => true | _ => false end) t).

(** The description with its debug flag set to [b]. *)
Definition with_debug (b : bool) (d : ULidarDescription) : ULidarDescription :=
  mkDescription (Channels d) (Range d) (PointsPerSecond d)
    (RotationFrequency d) (UpperFovLimit d) (LowerFovLimit d) b.

(** The sensor pointing to the description [d]. *)
Definition with_description (d : ULidarDescription) (m : Machine) : Machine :=
  mkMachine (mkLidar (Id (Sensor m)) (Some d) (LaserAngles (Sensor m))
                     (LidarMeasurement (Sensor m))) (Trace m).

(** The engine ticks the sensor once per frame, each frame with its own
    state of the world and its own duration. *)
Fixpoint Ticks (frames : list (Engine * float)) : M unit :=
  match frames with
  | [] => ret tt
  | (W, DeltaTime) :: rest => Tick W DeltaTime ;; Ticks rest
  end.

(** A frame whose budget is defined and whose sweep is of magnitude below
    [2^125] degrees; and such a frame of a sensor that turns forwards:
    the angle swept is not negative. *)
Definition bounded_frame (d : ULidarDescription) (DeltaTime : float) : bool :=
  match PointsToScanWithOneLaser d DeltaTime with
  | Some _ => true
  | None => false
  end
  && F32.valid DeltaTime
  && F32.exponent_le 101 (AngleDistanceOfTick d DeltaTime).

Definition forward_frame (d : ULidarDescription) (DeltaTime : float) : bool :=
  bounded_frame d DeltaTime
  && F32.is_nonneg (AngleDistanceOfTick d DeltaTime).

(** [a] lies strictly between -360 and 360. *)
Definition below_360 (a : float) : bool :=
  F32.ltb (F32.abs a) (F32.of_Z 360).

(** The horizontal angle of what the sink is handed satisfies [P]. *)
Definition view_angle (P : float -> bool) (e : Event) : bool :=
  match e with
  | EvWriteSensorData view => P (HorizontalAngle view)
  | _ => true
  end.

(* ===================================================================== *)
(** * Running the monad *)
(* ===================================================================== *)

Arguments F32.add : simpl never.
Arguments F32.sub : simpl never.
Arguments F32.mul : simpl never.
Arguments F32.div : simpl never.
Arguments F32.opp : simpl never.
Arguments F32.of_Z : simpl never.
Arguments F32.fmod : simpl never.
Arguments F32.to_uint32 : simpl never.
Arguments RoundHalfFromZero : simpl never.
Arguments wrap32 : simpl never.

(** One step of a sequence: run its first command. *)
Ltac step := unfold bind at 1; simpl.

Lemma bind_Ok {A B} (c : M A) (k : A -> M B) s a s' :
  c s = Ok (a, s') -> bind c k s = k a s'.
Proof. intros H. unfold bind. rewrite H. reflexivity. Qed.

Lemma bind_CheckFailed {A B} (c : M A) (k : A -> M B) s w :
  c s = CheckFailed w -> bind c k s = CheckFailed w.
Proof. intros H. unfold bind. rewrite H. reflexivity. Qed.

(** A loop whose body acts as the pure [step] does so as a whole. *)
Lemma for_each_run {A} (I : Machine -> Prop) (step : A -> Machine -> Machine)
      (body : A -> M unit) (l : list A) :
  (forall x m, In x l -> I m -> body x m = Ok (tt, step x m) /\ I (step x m)) ->
  forall m, I m ->
    for_each l body m = Ok (tt, fold_left (fun m x => step x m) l m)
    /\ I (fold_left (fun m x => step x m) l m).
Proof.
  induction l as [|x l IH]; intros Hbody m Hm; simpl.
  - split; [reflexivity | assumption].
  - destruct (Hbody x m (or_introl eq_refl) Hm) as [Hx HI].
    rewrite (bind_Ok _ _ _ _ _ Hx).
    apply IH; [|assumption].
    intros y m' Hy. apply Hbody. right; assumption.
Qed.

Lemma indices_length n : List.length (indices n) = Z.to_nat n.
Proof. unfold indices. rewrite length_map, length_seq. reflexivity. Qed.

Lemma in_indices n i : In i (indices n) <-> 0 <= i < n.
Proof.
  unfold indices. rewrite in_map_iff. split.
  - intros [k [<- Hk]]. apply in_seq in Hk. lia.
  - intros Hi. exists (Z.to_nat i). split; [lia|]. apply in_seq. lia.
Qed.

Lemma indices_nth n k :
  (k < Z.to_nat n)%nat -> nth_error (indices n) k = Some (Z.of_nat k).
Proof.
  intros Hk. unfold indices.
  rewrite nth_error_map, nth_error_seq.
  destruct (Nat.ltb_spec k (Z.to_nat n)); [reflexivity | lia].
Qed.

(* ===================================================================== *)
(** * Single-precision arithmetic: valid results, exact cases *)
(* ===================================================================== *)

Lemma digits2_pos_bounds p :
  2 ^ (Zpos (digits2_pos p) - 1) <= Zpos p < 2 ^ Zpos (digits2_pos p).
Proof.
  induction p as [p IH|p IH|]; simpl digits2_pos.
  - rewrite Pos2Z.inj_succ.
    replace (Z.succ (Zpos (digits2_pos p)) - 1) with (Z.succ (Zpos (digits2_pos p) - 1)) by lia.
    rewrite !Z.pow_succ_r by lia. lia.
  - rewrite Pos2Z.inj_succ.
    replace (Z.succ (Zpos (digits2_pos p)) - 1) with (Z.succ (Zpos (digits2_pos p) - 1)) by lia.
    rewrite !Z.pow_succ_r by lia. lia.
  - simpl. lia.
Qed.

Lemma Zdigits2_bounds m :
  0 < m -> 0 < Zdigits2 m /\ 2 ^ (Zdigits2 m - 1) <= m < 2 ^ Zdigits2 m.
Proof.
  destruct m as [|p|p]; try lia. intros _. split; [simpl; lia|].
  apply digits2_pos_bounds.
Qed.

Lemma Zdigits2_unique m d :
  0 < d -> 2 ^ (d - 1) <= m < 2 ^ d -> Zdigits2 m = d.
Proof.
  intros Hd Hm.
  assert (0 < m) by (assert (0 < 2 ^ (d - 1)) by (apply Z.pow_pos_nonneg; lia); lia).
  destruct (Zdigits2_bounds m H) as [Hpos Hb].
  destruct (Z.lt_trichotomy (Zdigits2 m) d) as [Hlt|[Heq|Hgt]]; [|assumption|].
  - assert (2 ^ Zdigits2 m <= 2 ^ (d - 1)) by (apply Z.pow_le_mono_r; lia). lia.
  - assert (2 ^ d <= 2 ^ (Zdigits2 m - 1)) by (apply Z.pow_le_mono_r; lia). lia.
Qed.

Lemma Zdigits2_nonneg m : 0 <= Zdigits2 m.
Proof. destruct m; simpl; lia. Qed.

Lemma Zdigits2_le m d : 0 <= m -> 0 <= d -> m < 2 ^ d -> Zdigits2 m <= d.
Proof.
  intros Hm Hd Hlt. destruct (Z.eq_dec m 0) as [->|]; [simpl; lia|].
  destruct (Zdigits2_bounds m) as [Hp Hb]; [lia|].
  destruct (Z.le_gt_cases (Zdigits2 m) d); [assumption|].
  assert (2 ^ d <= 2 ^ (Zdigits2 m - 1)) by (apply Z.pow_le_mono_r; lia). lia.
Qed.

Lemma Zdigits2_ge m d : 0 < d -> 2 ^ (d - 1) <= m -> d <= Zdigits2 m.
Proof.
  intros Hd Hle.
  assert (0 < 2 ^ (d - 1)) by (apply Z.pow_pos_nonneg; lia).
  destruct (Zdigits2_bounds m) as [Hp Hb]; [lia|].
  destruct (Z.le_gt_cases d (Zdigits2 m)); [assumption|].
  assert (2 ^ Zdigits2 m <= 2 ^ (d - 1)) by (apply Z.pow_le_mono_r; lia). lia.
Qed.

(* shifting right *)
Lemma shr_1_m mrs : 0 <= shr_m mrs -> shr_m (shr_1 mrs) = shr_m mrs / 2.
Proof.
  destruct mrs as [m r s]; simpl. intros Hm.
  destruct m as [|[p|p|]|p]; simpl; try lia; try reflexivity.
  - rewrite Pos2Z.inj_xI. apply Z.div_unique with 1; lia.
  - rewrite Pos2Z.inj_xO. apply Z.div_unique with 0; lia.
Qed.

Lemma iter_shr_1_m p : forall mrs,
  0 <= shr_m mrs -> shr_m (iter_pos shr_1 p mrs) = shr_m mrs / 2 ^ Zpos p.
Proof.
  induction p as [p IH|p IH|]; intros mrs Hm; simpl iter_pos.
  - assert (H1 : 0 <= shr_m (shr_1 mrs)) by (rewrite shr_1_m by assumption; apply Z.div_pos; lia).
    assert (H2 : 0 <= shr_m (iter_pos shr_1 p (shr_1 mrs))) by (rewrite IH by assumption; apply Z.div_pos; [assumption|apply Z.pow_pos_nonneg; lia]).
    rewrite IH, IH, shr_1_m by assumption.
    rewrite !Z.div_div by (try apply Z.pow_pos_nonneg; lia).
    f_equal. rewrite Pos2Z.inj_xI.
    rewrite <- Z.pow_add_r, <- Z.pow_succ_r by lia. f_equal. lia.
  - assert (H2 : 0 <= shr_m (iter_pos shr_1 p mrs)) by (rewrite IH by assumption; apply Z.div_pos; [assumption|apply Z.pow_pos_nonneg; lia]).
    rewrite IH, IH by assumption.
    rewrite !Z.div_div by (try apply Z.pow_pos_nonneg; lia).
    f_equal. rewrite Pos2Z.inj_xO.
    rewrite <- Z.pow_add_r by lia. f_equal. lia.
  - rewrite shr_1_m by assumption. reflexivity.
Qed.

Lemma shr_record_of_loc_m m l : shr_m (shr_record_of_loc m l) = m.
Proof. destruct l as [|[]]; reflexivity. Qed.

(** first component of shr *)
Lemma shr_spec mrs e n :
  0 <= shr_m mrs -> 0 <= n ->
  shr_m (fst (shr mrs e n)) = shr_m mrs / 2 ^ n /\ snd (shr mrs e n) = e + n.
Proof.
  intros Hm Hn. destruct n as [|p|p]; simpl; try lia.
  - rewrite Z.div_1_r. split; [reflexivity|lia].
  - split; [apply iter_shr_1_m; assumption|reflexivity].
Qed.

Lemma div_pow2_digits m n :
  0 <= m -> 0 <= n -> Zdigits2 (m / 2 ^ n) = Z.max 0 (Zdigits2 m - n).
Proof.
  intros Hm Hn.
  assert (Hp : 0 < 2 ^ n) by (apply Z.pow_pos_nonneg; lia).
  destruct (Z.eq_dec m 0) as [->|Hm0].
  { rewrite Z.div_0_l by lia. simpl. lia. }
  destruct (Zdigits2_bounds m) as [Hd Hb]; [lia|].
  destruct (Z.le_gt_cases (Zdigits2 m) n) as [Hle|Hgt].
  - assert (2 ^ Zdigits2 m <= 2 ^ n) by (apply Z.pow_le_mono_r; lia).
    rewrite Z.div_small by lia. simpl. lia.
  - rewrite Z.max_r by lia.
    apply Zdigits2_unique; [lia|].
    assert (E1 : 2 ^ (Zdigits2 m - 1) = 2 ^ (Zdigits2 m - n - 1) * 2 ^ n)
      by (rewrite <- Z.pow_add_r by lia; f_equal; lia).
    assert (E2 : 2 ^ Zdigits2 m = 2 ^ (Zdigits2 m - n) * 2 ^ n)
      by (rewrite <- Z.pow_add_r by lia; f_equal; lia).
    split.
    + apply Z.div_le_lower_bound; [lia|]. rewrite Z.mul_comm. lia.
    + apply Z.div_lt_upper_bound; [lia|]. rewrite Z.mul_comm. lia.
Qed.

Lemma fexp32_eq e : F32.fexp32 e = Z.max (e - 24) (-149).
Proof. reflexivity. Qed.

Lemma fexp32_mono a b : a <= b -> F32.fexp32 a <= F32.fexp32 b.
Proof. rewrite !fexp32_eq. lia. Qed.

Lemma shr_fexp_spec mx ex lx :
  0 <= mx -> ex <= F32.fexp32 (Zdigits2 mx + ex) ->
  snd (shr_fexp F32.prec F32.emax mx ex lx) = F32.fexp32 (Zdigits2 mx + ex) /\
  shr_m (fst (shr_fexp F32.prec F32.emax mx ex lx))
  = mx / 2 ^ (F32.fexp32 (Zdigits2 mx + ex) - ex).
Proof.
  intros Hm Hle. unfold shr_fexp. fold (F32.fexp32 (Zdigits2 mx + ex)).
  destruct (shr_spec (shr_record_of_loc mx lx) ex (F32.fexp32 (Zdigits2 mx + ex) - ex))
    as [H1 H2]; [rewrite shr_record_of_loc_m; assumption | lia |].
  rewrite shr_record_of_loc_m in H1. split; [lia | assumption].
Qed.

Lemma round_nearest_even_cases m l :
  round_nearest_even m l = m \/ round_nearest_even m l = m + 1.
Proof.
  destruct l as [|[]]; simpl; auto. destruct (Z.even m); auto.
Qed.

Lemma shaped_weaken sx (P Q : Prop) e r :
  (P -> Q) -> shaped sx P e r -> shaped sx Q e r.
Proof.
  intros HPQ [Hv Hs]. split; [assumption|].
  destruct r; try assumption. destruct Hs; auto.
Qed.

Lemma finish_canonical sx m e :
  0 < m -> F32.fexp32 (Zdigits2 m + e) = e ->
  shaped sx False e
    (let '(mrs, e') := shr_fexp F32.prec F32.emax m e loc_Exact in
     match shr_m mrs with
     | Z0 => S754_zero sx
     | Zpos p => if e' <=? F32.emax - F32.prec then S754_finite sx p e' else S754_infinity sx
     | Zneg _ => S754_nan
     end).
Proof.
  intros Hm Hc. unfold shr_fexp. fold (F32.fexp32 (Zdigits2 m + e)). rewrite Hc, Z.sub_diag.
  simpl shr. cbv iota beta. simpl shr_m. destruct m as [|p|p]; try lia.
  destruct (_ <=? _) eqn:El; split; simpl; auto.
  - unfold bounded, canonical_mantissa. apply andb_true_iff. split.
    + apply Z.eqb_eq. exact Hc.
    + exact El.
  - split; [reflexivity | lia].
  - split; [reflexivity|]. apply Z.leb_gt in El. change (F32.emax - F32.prec) with 104 in El. lia.
Qed.

Lemma finish_overflow sx e :
  F32.fexp32 (24 + e) = e ->
  shaped sx False e
    (let '(mrs, e') := shr_fexp F32.prec F32.emax (2 ^ 24) e loc_Exact in
     match shr_m mrs with
     | Z0 => S754_zero sx
     | Zpos p => if e' <=? F32.emax - F32.prec then S754_finite sx p e' else S754_infinity sx
     | Zneg _ => S754_nan
     end).
Proof.
  intros Hc. unfold shr_fexp. fold (F32.fexp32 (Zdigits2 (2 ^ 24) + e)).
  change (Zdigits2 (2 ^ 24)) with 25.
  assert (He : F32.fexp32 (25 + e) - e = 1) by (rewrite fexp32_eq in *; lia).
  rewrite He. simpl shr. cbv iota beta. simpl shr_m.
  destruct (_ <=? _) eqn:El; split; simpl; auto.
  - unfold bounded, canonical_mantissa. apply andb_true_iff. split.
    + apply Z.eqb_eq. change (Zpos (digits2_pos 8388608)) with 24.
      fold (F32.fexp32 (24 + (e + 1))). rewrite fexp32_eq in *. lia.
    + exact El.
  - split; [reflexivity | lia].
  - split; [reflexivity|]. apply Z.leb_gt in El. change (F32.emax - F32.prec) with 104 in El. lia.
Qed.

Lemma succ_digits m d :
  0 < d -> 2 ^ (d - 1) <= m < 2 ^ d ->
  Zdigits2 (m + 1) = d \/ m + 1 = 2 ^ d.
Proof.
  intros Hd Hm. destruct (Z.eq_dec (m + 1) (2 ^ d)); [right; assumption|].
  left. apply Zdigits2_unique; [assumption | lia].
Qed.

Lemma binary_round_aux_shaped sx mx ex lx :
  0 <= mx -> ex <= F32.fexp32 (Zdigits2 mx + ex) ->
  shaped sx (mx / 2 ^ (F32.fexp32 (Zdigits2 mx + ex) - ex) = 0) (F32.fexp32 (Zdigits2 mx + ex))
    (binary_round_aux F32.prec F32.emax sx mx ex lx).
Proof.
  intros Hm Hle. unfold binary_round_aux.
  destruct (shr_fexp_spec mx ex lx Hm Hle) as [He' Hm'].
  destruct (shr_fexp F32.prec F32.emax mx ex lx) as [mrs' e'] eqn:E1.
  simpl in He', Hm'. rewrite <- Hm', <- He'.
  set (n := F32.fexp32 (Zdigits2 mx + ex) - ex) in *.
  assert (Hn : 0 <= n) by (unfold n; lia).
  assert (Hm'0 : 0 <= shr_m mrs')
    by (rewrite Hm'; apply Z.div_pos; [assumption | apply Z.pow_pos_nonneg; lia]).
  assert (Hd' : Zdigits2 (shr_m mrs') = Z.max 0 (Zdigits2 mx - n))
    by (rewrite Hm'; apply div_pow2_digits; assumption).
  pose proof (Zdigits2_nonneg mx) as Hdx.
  assert (Hemin : -149 <= e') by (rewrite He', fexp32_eq; lia).
  (* the mantissa before rounding is canonical, or null at the least exponent *)
  assert (Hcan : (0 < shr_m mrs' /\ F32.fexp32 (Zdigits2 (shr_m mrs') + e') = e')
                 \/ (shr_m mrs' = 0 /\ e' = -149)).
  { destruct (Z.eq_dec (shr_m mrs') 0) as [H0|H0].
    - right. split; [assumption|].
      rewrite H0 in Hd'. simpl in Hd'.
      rewrite He', fexp32_eq. unfold n in Hd'. rewrite fexp32_eq in Hd'. lia.
    - left. split; [lia|].
      destruct (Zdigits2_bounds (shr_m mrs')) as [Hp _]; [lia|].
      replace (Zdigits2 (shr_m mrs') + e') with (Zdigits2 mx + ex)
        by (unfold n in *; lia).
      symmetry; exact He'. }
  set (l' := loc_of_shr_record mrs').
  destruct (round_nearest_even_cases (shr_m mrs') l') as [R|R]; rewrite R.
  - destruct Hcan as [[Hpos Hc]|[H0 He0]].
    + eapply shaped_weaken; [|apply finish_canonical; assumption]. tauto.
    + rewrite H0. unfold shr_fexp. simpl Zdigits2.
      fold (F32.fexp32 (0 + e')).
      destruct (shr_spec (shr_record_of_loc 0 loc_Exact) e' (F32.fexp32 (0 + e') - e'))
        as [S1 S2]; [simpl; lia | rewrite He0; simpl; lia |].
      destruct (shr _ _ _) as [mrs'' e'']. simpl in S1. rewrite S1.
      rewrite Z.div_0_l by (apply Z.pow_nonzero; rewrite ?fexp32_eq; lia).
      split; simpl; auto.
  - destruct Hcan as [[Hpos Hc]|[H0 He0]].
    + destruct (Zdigits2_bounds _ Hpos) as [Hp Hb].
      destruct (succ_digits _ _ Hp Hb) as [Hs|Hs].
      * eapply shaped_weaken; [|apply finish_canonical; [lia | rewrite Hs; assumption]]. tauto.
      * destruct (Z.eq_dec (Zdigits2 (shr_m mrs')) 24) as [E24|N24].
        -- rewrite Hs, E24. eapply shaped_weaken; [|apply finish_overflow; rewrite <- E24; assumption]. tauto.
        -- eapply shaped_weaken; [|apply finish_canonical; [lia|]]; [tauto|].
           assert (Hd1 : Zdigits2 (shr_m mrs' + 1) = Zdigits2 (shr_m mrs') + 1).
           { apply Zdigits2_unique; [lia|].
             replace (Zdigits2 (shr_m mrs') + 1 - 1) with (Zdigits2 (shr_m mrs')) by lia.
             rewrite Hs. split; [lia|]. apply Z.pow_lt_mono_r; lia. }
           rewrite Hd1. rewrite fexp32_eq in *. lia.
    + rewrite H0. change (0 + 1) with 1.
      eapply shaped_weaken; [|apply finish_canonical; [lia|]]; [tauto|].
      rewrite He0. reflexivity.
Qed.

Lemma iter_xO_val m d : Zpos (Pos.iter xO m d) = Zpos m * 2 ^ Zpos d.
Proof.
  change (Pos.iter xO m d) with (Zpower.shift_pos d m).
  rewrite Zpower.shift_pos_correct, Zpower.Zpower_pos_nat, Zpower.Zpower_nat_Z.
  rewrite positive_nat_Z. lia.
Qed.

Lemma mul_pow2_digits m k :
  0 < m -> 0 <= k -> Zdigits2 (m * 2 ^ k) = Zdigits2 m + k.
Proof.
  intros Hm Hk. destruct (Zdigits2_bounds m Hm) as [Hd Hb].
  assert (0 < 2 ^ k) by (apply Z.pow_pos_nonneg; lia).
  apply Zdigits2_unique; [lia|].
  replace (Zdigits2 m + k - 1) with (Zdigits2 m - 1 + k) by lia.
  rewrite !Z.pow_add_r by lia. nia.
Qed.

(** Aligning a mantissa on the exponent the format wants for it. *)
Lemma shl_align_fexp m e :
  exists mz ez,
    shl_align m e (F32.fexp32 (Zpos (digits2_pos m) + e)) = (mz, ez) /\
    ez = Z.min e (F32.fexp32 (Zpos (digits2_pos m) + e)) /\
    Zpos mz = Zpos m * 2 ^ (e - ez) /\
    Zdigits2 (Zpos mz) + ez = Zpos (digits2_pos m) + e.
Proof.
  unfold shl_align.
  destruct (F32.fexp32 (Zpos (digits2_pos m) + e) - e) as [|p|p] eqn:E.
  - exists m, e. repeat split; try lia.
    replace (e - e) with 0 by lia. lia.
  - exists m, e. repeat split; try lia.
    replace (e - e) with 0 by lia. lia.
  - exists (Pos.iter xO m p), (F32.fexp32 (Zpos (digits2_pos m) + e)).
    split; [reflexivity|]. split; [lia|].
    assert (Ek : e - F32.fexp32 (Zpos (digits2_pos m) + e) = Zpos p) by lia.
    rewrite Ek. split; [apply iter_xO_val|].
    rewrite iter_xO_val, mul_pow2_digits by lia. simpl Zdigits2. lia.
Qed.

Lemma binary_round_shaped sx m e :
  shaped sx (e <= F32.fexp32 (Zpos (digits2_pos m) + e) /\
             Zpos m / 2 ^ (F32.fexp32 (Zpos (digits2_pos m) + e) - e) = 0)
    (F32.fexp32 (Zpos (digits2_pos m) + e))
    (binary_round F32.prec F32.emax sx m e).
Proof.
  unfold binary_round. fold (F32.fexp32 (Zpos (digits2_pos m) + e)).
  destruct (shl_align_fexp m e) as [mz [ez [E [Hez [Hmz Hdz]]]]].
  rewrite E.
  assert (Hfx : F32.fexp32 (Zdigits2 (Zpos mz) + ez) = F32.fexp32 (Zpos (digits2_pos m) + e))
    by (rewrite Hdz; reflexivity).
  assert (Hle : ez <= F32.fexp32 (Zdigits2 (Zpos mz) + ez)) by lia.
  pose proof (binary_round_aux_shaped sx (Zpos mz) ez loc_Exact
                (Pos2Z.is_nonneg mz) Hle) as H.
  rewrite Hfx in H.
  eapply shaped_weaken; [|exact H].
  intros Hz.
  destruct (Z.le_gt_cases e (F32.fexp32 (Zpos (digits2_pos m) + e))) as [Hc|Hc].
  - assert (Hez' : ez = e) by lia. rewrite Hez' in Hmz, Hz.
    rewrite Z.sub_diag, Z.pow_0_r, Z.mul_1_r in Hmz.
    rewrite Hmz in Hz. split; assumption.
  - replace (F32.fexp32 (Zpos (digits2_pos m) + e) - ez) with 0 in Hz by lia.
    rewrite Z.div_1_r in Hz. lia.
Qed.

Lemma shr_fexp_canonical m e l :
  F32.fexp32 (Zdigits2 m + e) = e ->
  shr_fexp F32.prec F32.emax m e l = (shr_record_of_loc m l, e).
Proof.
  intros Hc. unfold shr_fexp. fold (F32.fexp32 (Zdigits2 m + e)).
  rewrite Hc, Z.sub_diag. reflexivity.
Qed.

(** A mantissa that fits, at an exponent the format has, is kept as it
    is: rounding only aligns it. *)
Lemma binary_round_exact sx m e :
  Zpos (digits2_pos m) <= 24 -> -149 <= e ->
  F32.fexp32 (Zpos (digits2_pos m) + e) <= 104 ->
  exists mz,
    binary_round F32.prec F32.emax sx m e
    = S754_finite sx mz (F32.fexp32 (Zpos (digits2_pos m) + e)) /\
    Zpos mz = Zpos m * 2 ^ (e - F32.fexp32 (Zpos (digits2_pos m) + e)) /\
    F32.fexp32 (Zpos (digits2_pos m) + e) <= e.
Proof.
  intros Hd He Hmax.
  assert (Hfe : F32.fexp32 (Zpos (digits2_pos m) + e) <= e) by (rewrite fexp32_eq; lia).
  unfold binary_round. fold (F32.fexp32 (Zpos (digits2_pos m) + e)).
  destruct (shl_align_fexp m e) as [mz [ez [E [Hez [Hmz Hdz]]]]].
  rewrite E. exists mz.
  assert (Ez : ez = F32.fexp32 (Zpos (digits2_pos m) + e)) by lia.
  rewrite <- Ez. split; [|split; [assumption | lia]].
  assert (Hc : F32.fexp32 (Zdigits2 (Zpos mz) + ez) = ez) by (rewrite Hdz; lia).
  unfold binary_round_aux.
  rewrite (shr_fexp_canonical _ _ _ Hc). cbv iota beta.
  simpl shr_m. simpl loc_of_shr_record. simpl round_nearest_even.
  rewrite (shr_fexp_canonical _ _ _ Hc). cbv iota beta. simpl shr_m.
  destruct (_ <=? _) eqn:El; [reflexivity|].
  apply Z.leb_gt in El. change (F32.emax - F32.prec) with 104 in El. lia.
Qed.

Lemma valid_finite s m e :
  F32.valid (S754_finite s m e) = true ->
  F32.fexp32 (Zpos (digits2_pos m) + e) = e /\ e <= 104.
Proof.
  unfold F32.valid; simpl. unfold bounded, canonical_mantissa.
  intros H. apply andb_true_iff in H. destruct H as [H1 H2].
  apply Z.eqb_eq in H1. apply Z.leb_le in H2. split; assumption.
Qed.

Lemma valid_finite_bounds s m e :
  F32.valid (S754_finite s m e) = true ->
  Zpos m < 2 ^ 24 /\ -149 <= e <= 104 /\
  (Zpos (digits2_pos m) = 24 \/ e = -149).
Proof.
  intros H. destruct (valid_finite _ _ _ H) as [Hc He].
  destruct (digits2_pos_bounds m) as [_ Hhi].
  rewrite fexp32_eq in Hc.
  assert (Hd : Zpos (digits2_pos m) <= 24) by lia.
  assert (2 ^ Zpos (digits2_pos m) <= 2 ^ 24) by (apply Z.pow_le_mono_r; lia).
  repeat split; lia.
Qed.

Lemma shaped_valid sx P e r : shaped sx P e r -> F32.valid r = true.
Proof. intros [H _]. exact H. Qed.

Lemma valid_binary_normalize m e s :
  F32.valid (binary_normalize F32.prec F32.emax m e s) = true.
Proof.
  destruct m; simpl; [reflexivity| |]; eapply shaped_valid; apply binary_round_shaped.
Qed.

Lemma valid_add x y :
  F32.valid x = true -> F32.valid y = true -> F32.valid (x + y)%f32 = true.
Proof.
  intros Hx Hy. unfold F32.add.
  destruct x as [sx|sx| |sx mx ex], y as [sy|sy| |sy my ey];
    try apply valid_binary_normalize;
    try destruct sx; try destruct sy; simpl; try reflexivity; assumption.
Qed.

Lemma valid_opp x : F32.valid x = true -> F32.valid (- x)%f32 = true.
Proof. destruct x; simpl; auto. Qed.

Lemma valid_sub x y :
  F32.valid x = true -> F32.valid y = true -> F32.valid (x - y)%f32 = true.
Proof.
  intros Hx Hy. unfold F32.sub.
  destruct x as [sx|sx| |sx mx ex], y as [sy|sy| |sy my ey];
    try apply valid_binary_normalize;
    try destruct sx; try destruct sy; simpl; try reflexivity; assumption.
Qed.

Lemma mul_digits a b :
  0 < a -> 0 < b -> Zdigits2 a + Zdigits2 b - 1 <= Zdigits2 (a * b).
Proof.
  intros Ha Hb.
  destruct (Zdigits2_bounds a Ha) as [Hda [Hla _]].
  destruct (Zdigits2_bounds b Hb) as [Hdb [Hlb _]].
  apply Zdigits2_ge; [lia|].
  replace (Zdigits2 a + Zdigits2 b - 1 - 1) with ((Zdigits2 a - 1) + (Zdigits2 b - 1)) by lia.
  rewrite Z.pow_add_r by lia.
  assert (0 < 2 ^ (Zdigits2 a - 1)) by (apply Z.pow_pos_nonneg; lia).
  assert (0 < 2 ^ (Zdigits2 b - 1)) by (apply Z.pow_pos_nonneg; lia).
  nia.
Qed.

Lemma mul_shaped sx sy mx ex my ey :
  F32.valid (S754_finite sx mx ex) = true ->
  F32.valid (S754_finite sy my ey) = true ->
  ex + ey <= F32.fexp32 (Zdigits2 (Zpos (mx * my)) + (ex + ey)).
Proof.
  intros Hx Hy.
  destruct (valid_finite _ _ _ Hx) as [Hcx _].
  destruct (valid_finite _ _ _ Hy) as [Hcy _].
  pose proof (mul_digits (Zpos mx) (Zpos my) (Pos2Z.is_pos mx) (Pos2Z.is_pos my)) as Hd.
  rewrite <- Pos2Z.inj_mul in Hd. simpl Zdigits2 in *.
  assert (0 < Zpos (digits2_pos mx)) by lia.
  assert (0 < Zpos (digits2_pos my)) by lia.
  rewrite fexp32_eq in *. lia.
Qed.

Lemma valid_mul x y :
  F32.valid x = true -> F32.valid y = true -> F32.valid (x * y)%f32 = true.
Proof.
  intros Hx Hy. unfold F32.mul.
  destruct x as [sx|sx| |sx mx ex], y as [sy|sy| |sy my ey];
    simpl; try reflexivity.
  eapply shaped_valid. apply binary_round_aux_shaped; [lia|].
  apply (mul_shaped sx sy); assumption.
Qed.

Lemma div_core_spec mx ex my ey :
  exists q e l,
    SFdiv_core_binary F32.prec F32.emax (Zpos mx) ex (Zpos my) ey = (q, e, l) /\
    e = Z.min (F32.fexp32 (Zpos (digits2_pos mx) + ex - (Zpos (digits2_pos my) + ey))) (ex - ey) /\
    q = Zpos mx * 2 ^ (ex - ey - e) / Zpos my /\
    0 <= q /\ e <= F32.fexp32 (Zdigits2 q + e).
Proof.
  unfold SFdiv_core_binary.
  set (d1 := Zdigits2 (Zpos mx)). set (d2 := Zdigits2 (Zpos my)).
  fold (F32.fexp32 (d1 + ex - (d2 + ey))).
  set (e := Z.min (F32.fexp32 (d1 + ex - (d2 + ey))) (ex - ey)).
  set (s := ex - ey - e).
  assert (Hs : 0 <= s) by (unfold s, e; lia).
  set (m' := match s with Z0 => Zpos mx | Zpos _ => Z.shiftl (Zpos mx) s | Zneg _ => 0 end).
  assert (Hm' : m' = Zpos mx * 2 ^ s).
  { unfold m'. destruct s as [|p|p] eqn:Es; try lia.
    rewrite Z.shiftl_mul_pow2 by lia. reflexivity. }
  pose proof (Z_div_mod m' (Zpos my) (eq_refl : Zpos my > 0)%Z) as Hdm.
  assert (Hq : fst (Z.div_eucl m' (Zpos my)) = m' / Zpos my) by reflexivity.
  destruct (Z.div_eucl m' (Zpos my)) as [q r]. simpl in Hq.
  exists q, e, (new_location (Zpos my) r).
  split; [reflexivity|]. split; [reflexivity|].
  assert (Hp : 0 < 2 ^ s) by (apply Z.pow_pos_nonneg; lia).
  split; [rewrite Hq, Hm'; reflexivity|].
  assert (Hq0 : 0 <= q) by (rewrite Hq; apply Z.div_pos; nia).
  split; [assumption|].
  (* the quotient has at least d1 + s - d2 digits *)
  assert (Hdq : d1 + s - d2 <= Zdigits2 q).
  { destruct (Z.le_gt_cases (d1 + s - d2) 0) as [Hle|Hgt].
    - pose proof (Zdigits2_nonneg q). lia.
    - apply Zdigits2_ge; [lia|].
      destruct (digits2_pos_bounds mx) as [Hl1 _].
      destruct (digits2_pos_bounds my) as [_ Hh2].
      change (Zpos (digits2_pos mx)) with d1 in Hl1.
      change (Zpos (digits2_pos my)) with d2 in Hh2.
      assert (0 < d1) by (unfold d1; simpl; lia).
      assert (0 < d2) by (unfold d2; simpl; lia).
      rewrite Hq, Hm'. apply Z.div_le_lower_bound; [lia|].
      assert (E : 2 ^ (d1 - 1) * 2 ^ s = 2 ^ (d1 + s - d2 - 1) * 2 ^ d2).
      { rewrite <- !Z.pow_add_r by lia. f_equal. lia. }
      assert (0 < 2 ^ (d1 + s - d2 - 1)) by (apply Z.pow_pos_nonneg; lia).
      apply Z.le_trans with (2 ^ (d1 + s - d2 - 1) * 2 ^ d2); [nia|].
      rewrite <- E. nia. }
  assert (Hm : F32.fexp32 (d1 + ex - (d2 + ey)) <= F32.fexp32 (Zdigits2 q + e))
    by (apply fexp32_mono; unfold s in Hdq; lia).
  unfold e at 1. lia.
Qed.

Lemma valid_div x y : F32.valid (x / y)%f32 = true.
Proof.
  unfold F32.div.
  destruct x as [sx|sx| |sx mx ex], y as [sy|sy| |sy my ey]; try reflexivity.
  unfold SFdiv.
  destruct (div_core_spec mx ex my ey) as [q [e [l [E [_ [_ [Hq He]]]]]]].
  rewrite E. eapply shaped_valid. apply binary_round_aux_shaped; assumption.
Qed.

Lemma valid_of_Z n : F32.valid (F32.of_Z n) = true.
Proof. apply valid_binary_normalize. Qed.

(** Every operation of the sensor keeps its operands within the format. *)
Create HintDb f32_valid.
#[local] Hint Resolve valid_add valid_sub valid_mul valid_div valid_of_Z
  valid_opp : f32_valid.

(* ===================================================================== *)
(** * CreateLasers and Set *)
(* ===================================================================== *)

Lemma fold_push_angles (f : Z -> float) (l : list Z) (m : Machine) :
  fold_left (fun m x => with_angles (LaserAngles (Sensor m) ++ [f x]) m) l m
  = with_angles (LaserAngles (Sensor m) ++ map f l) m.
Proof.
  revert m. induction l as [|x l IH]; intros m; simpl.
  - rewrite app_nil_r. destruct m as [[] ?]; reflexivity.
  - rewrite IH. unfold with_angles; simpl. rewrite <- app_assoc. reflexivity.
Qed.

(** With a description of at least one channel in place, [CreateLasers]
    returns and leaves the table [laser_table]. *)
Lemma CreateLasers_run (m : Machine) (d : ULidarDescription) :
  Description (Sensor m) = Some d ->
  0 < Channels d ->
  CreateLasers m = Ok (tt, with_angles (laser_table d) m).
Proof.
  intros Hd Hn. unfold CreateLasers, deref_Description, get_sensor, check.
  step. rewrite Hd. step.
  step. step. rewrite Hd. simpl.
  destruct (Z.ltb_spec 0 (Channels d)) as [_|]; [|lia].
  step.
  unfold set_LaserAngles at 1, bind at 1, bind at 1; simpl.
  unfold for_uint32.
  pose (step := fun (x : Z) (m : Machine) =>
                  with_angles (LaserAngles (Sensor m) ++ [laser_angle d x]) m).
  edestruct (for_each_run (fun _ => True) step) as [Hrun _];
    [ | exact I | rewrite Hrun ].
  - intros x m' _ _. split; [reflexivity | exact I].
  - unfold step. rewrite fold_push_angles. reflexivity.
Qed.

Lemma CreateLasers_rejects (m : Machine) (d : ULidarDescription) :
  Description (Sensor m) = Some d ->
  Channels d <= 0 ->
  CreateLasers m = CheckFailed "NumberOfLasers > 0u".
Proof.
  intros Hd Hn. unfold CreateLasers, deref_Description, get_sensor, check.
  step. rewrite Hd. step.
  step. step. rewrite Hd. simpl.
  destruct (Z.ltb_spec 0 (Channels d)) as [|_]; [lia|].
  reflexivity.
Qed.

Lemma Set_run (m : Machine) (d : ULidarDescription) :
  0 < Channels d ->
  Set_ d m = Ok (tt, mkMachine (configured_sensor (Id (Sensor m)) d) (Trace m)).
Proof.
  intros Hn. unfold Set_.
  unfold set_Description, deref_Description, set_LidarMeasurement, get_sensor,
    put_sensor.
  unfold bind; simpl.
  rewrite (CreateLasers_run _ d); [reflexivity | reflexivity | assumption].
Qed.

Lemma Set_rejects (m : Machine) (d : ULidarDescription) :
  Channels d <= 0 ->
  Set_ d m = CheckFailed "NumberOfLasers > 0u".
Proof.
  intros Hn. unfold Set_.
  unfold set_Description, deref_Description, set_LidarMeasurement, get_sensor,
    put_sensor.
  unfold bind; simpl.
  rewrite (CreateLasers_rejects _ d); [reflexivity | reflexivity | assumption].
Qed.

(* ===================================================================== *)
(** * ShootLaser *)
(* ===================================================================== *)

Lemma first_tag_find (tags : list ECityObjectLabel) :
  first_tag None_ tags
  = match find (fun t => negb (is_None t)) tags with
    | Some t => t
    | None => None_
    end.
Proof.
  induction tags as [|t tags IH]; simpl; [reflexivity|].
  destruct (is_None t); simpl; [exact IH | reflexivity].
Qed.

Lemma label_loop_resolves (tag : ECityObjectLabel) (tags : list ECityObjectLabel) :
  (if is_None tag then first_tag tag tags else tag) = resolve_label tag tags.
Proof.
  unfold resolve_label. destruct tag; simpl; try reflexivity.
  apply first_tag_find.
Qed.

Section ShootLaserFacts.

Variable W : Engine.
Variable d : ULidarDescription.

(** A ray leaves the sensor as it is, records its trace, and returns the
    point of its hit if there is one. *)
Lemma ShootLaser_run (m : Machine) (c : Z) (va ha : float) :
  Description (Sensor m) = Some d ->
  nth_error (LaserAngles (Sensor m)) (Z.to_nat c) = Some va ->
  ShootLaser W c ha m
  = Ok (ray_result W d va ha, with_events (ray_events W d va ha) m).
Proof.
  intros Hd Hva. unfold ShootLaser, deref_Description, get_sensor.
  step. rewrite Hva.
  step. step. rewrite Hd; simpl.
  step.
  unfold ray_result, ray_events, ray_hit, ray_end.
  destruct (bBlockingHit _) eqn:Hhit; simpl.
  - unfold hit_point, hit_label, hit_position.
    rewrite label_loop_resolves.
    destruct (ShowDebugPoints d); unfold bind, emit, ret, with_events; simpl;
      rewrite <- ?app_assoc; reflexivity.
  - reflexivity.
Qed.

End ShootLaserFacts.

(* ===================================================================== *)
(** * ReadPoints and Tick *)
(* ===================================================================== *)

Lemma fold_add_ray {A} (P : A -> list (Z * FVector4)) (E : A -> list Event)
      (l : list A) (m : Machine) :
  fold_left (fun m r => add_ray (P r) (E r) m) l m
  = add_ray (flat_map P l) (flat_map E l) m.
Proof.
  revert m. induction l as [|r l IH]; intros m; simpl.
  - unfold add_ray, with_events, with_measurement; simpl.
    rewrite !app_nil_r. destruct m as [[? ? ? []] ?]; reflexivity.
  - rewrite IH. unfold add_ray, with_events, with_measurement; simpl.
    rewrite <- !app_assoc. reflexivity.
Qed.

Lemma fold_left_flat_map {A B S} (f : S -> B -> S) (g : A -> list B)
      (l : list A) (s : S) :
  fold_left f (flat_map g l) s = fold_left (fun s a => fold_left f (g a) s) l s.
Proof.
  revert s. induction l as [|a l IH]; intros s; simpl; [reflexivity|].
  rewrite fold_left_app. apply IH.
Qed.

Lemma fold_left_map {A B S} (f : S -> B -> S) (h : A -> B) (l : list A) (s : S) :
  fold_left f (map h l) s = fold_left (fun s a => f s (h a)) l s.
Proof.
  revert s. induction l as [|a l IH]; intros s; simpl; [reflexivity|apply IH].
Qed.

Lemma fold_left_ext {A S} (f g : S -> A -> S) (l : list A) (s : S) :
  (forall s a, f s a = g s a) -> fold_left f l s = fold_left g l s.
Proof.
  intros H. revert s. induction l as [|a l IH]; intros s; simpl; [reflexivity|].
  rewrite H. apply IH.
Qed.

Section ReadPointsFacts.

Variable W : Engine.
Variable d : ULidarDescription.

Lemma add_ray_inv angles pts evs m :
  sweep_inv d angles m -> sweep_inv d angles (add_ray pts evs m).
Proof. intros [H1 H2]. split; assumption. Qed.

Lemma sweep_run (angles : list float) (cur step : float) (n : Z) (m : Machine) :
  sweep_inv d angles m ->
  Channels d = Z.of_nat (List.length angles) ->
  for_uint32 (Channels d) (fun Channel =>
    for_uint32 n (fun i =>
      r <- ShootLaser W Channel (cur + step * F32.of_Z i)%f32 ;;
      match r with
      | Some Point =>
          l <- get_sensor ;;
          set_LidarMeasurement (WritePoint Channel Point (LidarMeasurement l))
      | None => ret tt
      end)) m
  = Ok (tt, add_ray (sweep_points W d angles cur step n)
                    (sweep_events W d angles cur step n) m).
Proof.
  intros Hinv Hlen.
  pose (P := ray_points W d angles cur step).
  pose (E := fun r : Z * Z =>
               ray_events W d (ray_vertical angles (fst r))
                              (ray_horizontal cur step (snd r))).
  pose (ray := fun (m : Machine) (r : Z * Z) => add_ray (P r) (E r) m).
  unfold for_uint32.
  edestruct (for_each_run (sweep_inv d angles)
               (fun c m => fold_left (fun m i => ray m (c, i)) (indices n) m))
    as [Hrun _]; [ | exact Hinv | rewrite Hrun ].
  - intros c m1 Hc Hm1.
    edestruct (for_each_run (sweep_inv d angles) (fun i m => ray m (c, i)))
      as [Hrun HI]; [ | exact Hm1 | split; [exact Hrun | exact HI] ].
    intros i m2 Hi Hm2. split; [|apply add_ray_inv; assumption].
    destruct Hm2 as [Hd Ha].
    apply in_indices in Hc.
    assert (Hva : nth_error (LaserAngles (Sensor m2)) (Z.to_nat c)
                  = Some (ray_vertical angles c)).
    { rewrite Ha. unfold ray_vertical. apply nth_error_nth'. lia. }
    rewrite (bind_Ok _ _ _ _ _ (ShootLaser_run W d m2 c _ _ Hd Hva)).
    unfold ray, P, E, ray_points, ray_horizontal; simpl.
    destruct (ray_result W d (ray_vertical angles c) (cur + step * F32.of_Z i)%f32);
      unfold add_ray, with_events, with_measurement; simpl.
    + reflexivity.
    + rewrite app_nil_r. destruct m2 as [[? ? ? []] ?]; reflexivity.
  - f_equal. f_equal.
    unfold sweep_points, sweep_events, sweep_rays.
    rewrite <- (fold_add_ray P E).
    rewrite fold_left_flat_map.
    apply fold_left_ext. intros s c.
    rewrite fold_left_map. reflexivity.
Qed.

(** A tick too short for one sample per laser: a warning, nothing else. *)
Lemma ReadPoints_skip (m : Machine) (dt : float) (n : Z) :
  Description (Sensor m) = Some d ->
  PointsToScanWithOneLaser d dt = Some n ->
  n <= 0 ->
  ReadPoints W dt m = Ok (tt, with_events [EvLog Warning (GetName W)] m).
Proof.
  intros Hd Hn Hle. unfold ReadPoints, deref_Description, get_sensor.
  step. step. rewrite Hd; simpl.
  rewrite Hn. destruct (Z.leb_spec n 0); [reflexivity | lia].
Qed.

(** A scanning tick: the sweep, then the new angle and frame number. *)
Lemma ReadPoints_scan (m : Machine) (dt : float) (n : Z) :
  configured (Sensor m) d ->
  PointsToScanWithOneLaser d dt = Some n ->
  0 < n ->
  ReadPoints W dt m
  = Ok (tt,
        mkMachine
          (mkLidar (Id (Sensor m)) (Some d) (LaserAngles (Sensor m))
                   (scanned_measurement W d (Sensor m) dt n))
          (Trace m
           ++ sweep_events W d (LaserAngles (Sensor m))
                (HorizontalAngle (LidarMeasurement (Sensor m)))
                (AngleDistanceOfTick d dt / F32.of_Z n)%f32 n)).
Proof.
  intros [Hd Hlen] Hn Hpos. unfold ReadPoints, deref_Description, get_sensor.
  step. step. rewrite Hd; simpl.
  rewrite Hn. destruct (Z.leb_spec n 0); [lia|].
  step. unfold bind at 1, check; simpl.
  rewrite Hlen, Z.eqb_refl. step. rewrite Hd.
  unfold bind at 1. unfold set_LidarMeasurement at 1, get_sensor, put_sensor.
  step. rewrite <- Hlen.
  erewrite bind_Ok; [ | apply sweep_run; [split; [exact Hd | reflexivity] | exact Hlen] ].
  unfold set_LidarMeasurement, get_sensor, put_sensor, bind; simpl.
  unfold scanned_measurement, next_angle, AngleDistanceOfTick.
  rewrite Hd. unfold add_ray, with_events, with_measurement; simpl.
  reflexivity.
Qed.

End ReadPointsFacts.

(* ===================================================================== *)
(** * The remainder modulo 360 *)
(* ===================================================================== *)

Lemma of_Z_360 : F32.of_Z 360 = S754_finite false 11796480 (-15).
Proof. reflexivity. Qed.

Lemma digits_le_24 p : Zpos p < 2 ^ 24 -> Zpos (digits2_pos p) <= 24.
Proof.
  intros H. change (Zpos (digits2_pos p)) with (Zdigits2 (Zpos p)).
  apply Zdigits2_le; lia.
Qed.

Lemma finite_ltb (s : bool) (mz M : positive) (ez E : Z) :
  ez < E \/ (ez = E /\ Zpos mz < Zpos M) ->
  F32.ltb (F32.abs (S754_finite s mz ez)) (S754_finite false M E) = true.
Proof.
  intros H. unfold F32.ltb, SFltb, F32.abs, SFabs, SFcompare.
  destruct H as [H|[H1 H2]].
  - rewrite (proj2 (Z.compare_lt_iff _ _) H). reflexivity.
  - rewrite H1. rewrite Z.compare_refl.
    change (Pos.compare_cont Eq mz M) with (Zpos mz ?= Zpos M).
    rewrite (proj2 (Z.compare_lt_iff _ _) H2). reflexivity.
Qed.


(** The remainder of two aligned mantissas fits the format. *)
Lemma fmod_360_mantissa (mx : positive) (ex : Z) :
  Zpos mx < 2 ^ 24 -> -149 <= ex ->
  let e := Z.min ex (-15) in
  let R := (Zpos mx * 2 ^ (ex - e)) mod (11796480 * 2 ^ (-15 - e)) in
  0 <= R < 2 ^ 24 /\ (e = -15 -> R < 11796480).
Proof.
  intros Hm He e R.
  assert (Hpx : 0 < 2 ^ (ex - e)) by (apply Z.pow_pos_nonneg; unfold e; lia).
  assert (Hpy : 0 < 2 ^ (-15 - e)) by (apply Z.pow_pos_nonneg; unfold e; lia).
  assert (HY : 0 < 11796480 * 2 ^ (-15 - e)) by lia.
  pose proof (Z.mod_pos_bound (Zpos mx * 2 ^ (ex - e)) _ HY) as HR.
  fold R in HR. split; [split; [lia|] | ].
  - destruct (Z.le_gt_cases ex (-15)) as [Hc|Hc].
    + assert (Ee : e = ex) by (unfold e; lia).
      assert (HRle : R <= Zpos mx * 2 ^ (ex - e))
        by (apply Z.mod_le; lia).
      rewrite Ee, Z.sub_diag, Z.pow_0_r in HRle. lia.
    + assert (Ee : -15 - e = 0) by (unfold e; lia).
      rewrite Ee, Z.pow_0_r in HR.
      assert (11796480 * 1 < 2 ^ 24) by reflexivity. lia.
  - intros Ee. replace (-15 - e) with 0 in HR by lia.
    rewrite Z.pow_0_r in HR. lia.
Qed.

(** The remainder of a finite float modulo 360 is a float of the same
    sign and of magnitude below 360. *)
Lemma fmod_360_range (x : float) :
  F32.valid x = true -> F32.is_finite x = true ->
  let r := F32.fmod x (F32.of_Z 360) in
  F32.valid r = true /\ F32.is_finite r = true /\
  (if F32.is_nonneg x then F32.is_nonneg r else F32.is_nonneg (- r)%f32) = true /\
  F32.ltb (F32.abs r) (F32.of_Z 360) = true.
Proof.
  intros Hv Hf r. subst r. rewrite of_Z_360.
  destruct x as [s|s| |sx mx ex]; try discriminate.
  - repeat split; reflexivity.
  - destruct (valid_finite_bounds _ _ _ Hv) as [Hm [He _]].
    unfold F32.fmod, F32.opp.
    destruct (fmod_360_mantissa mx ex Hm (proj1 He)) as [HR HR15].
    remember (Z.min ex (-15)) as e eqn:Ee.
    remember ((Zpos mx * 2 ^ (ex - e)) mod (11796480 * 2 ^ (-15 - e))) as R eqn:ER.
    clear ER.
    destruct R as [|p|p]; [| |lia].
    + destruct sx; repeat split; reflexivity.
    + assert (Hn : binary_normalize F32.prec F32.emax (cond_Zopp sx (Zpos p)) e sx
                   = binary_round F32.prec F32.emax sx p e)
        by (destruct sx; reflexivity).
      rewrite Hn.
      pose proof (digits_le_24 p (proj2 HR)) as Hd.
      assert (Hfe : F32.fexp32 (Zpos (digits2_pos p) + e) <= e)
        by (rewrite fexp32_eq; lia).
      destruct (binary_round_exact sx p e Hd) as [mz [Er [Hmz _]]]; [lia | lia |].
      remember (F32.fexp32 (Zpos (digits2_pos p) + e)) as ez eqn:Eez.
      rewrite Er.
      split; [rewrite <- Er; eapply shaped_valid; apply binary_round_shaped|].
      split; [reflexivity|]. split; [destruct sx; reflexivity|].
      apply finite_ltb.
      destruct (Z.lt_ge_cases ez (-15)) as [Hlt|Hge]; [left; assumption|].
      right. assert (E15 : e = -15) by lia. assert (Ez15 : ez = -15) by lia.
      split; [assumption|].
      rewrite Hmz. replace (e - ez) with 0 by lia.
      rewrite Z.pow_0_r, Z.mul_1_r. apply HR15. assumption.
Qed.

(* ===================================================================== *)
(** * Rounding to the nearest integer *)
(* ===================================================================== *)



(** An integer below [2^24] converts to [float] and back unchanged. *)
Lemma to_uint32_of_Z (n : Z) :
  0 <= n < 2 ^ 24 -> F32.to_uint32 (F32.of_Z n) = Some n.
Proof.
  intros Hn. unfold F32.of_Z. destruct n as [|p|p]; [reflexivity| |lia].
  simpl binary_normalize.
  pose proof (digits_le_24 p (proj2 Hn)) as Hd.
  assert (Hdp : 0 < Zpos (digits2_pos p)) by lia.
  destruct (binary_round_exact false p 0 Hd) as [mz [Er [Hmz Hfe]]];
    [lia | rewrite fexp32_eq; lia |].
  rewrite Er. set (ez := F32.fexp32 (Zpos (digits2_pos p) + 0)) in *.
  assert (Hez : -149 <= ez) by (unfold ez; rewrite fexp32_eq; lia).
  unfold F32.to_uint32.
  assert (Ht : (if 0 <=? ez then Zpos mz * 2 ^ ez else Zpos mz / 2 ^ (- ez))
               = Zpos p).
  { destruct (Z.leb_spec 0 ez).
    - assert (ez = 0) by lia. rewrite Hmz, H0. simpl. lia.
    - rewrite Hmz. replace (0 - ez) with (- ez) by lia.
      apply Z.div_mul. apply Z.pow_nonzero; lia. }
  rewrite Ht.
  destruct (Z.ltb_spec (Zpos p) (2 ^ 32)); [reflexivity|].
  assert (2 ^ 24 < 2 ^ 32) by reflexivity. lia.
Qed.


(* ===================================================================== *)
(** * Facts on float operations used below *)
(* ===================================================================== *)

Lemma eqb_refl (x : float) : F32.is_nan x = false -> F32.eqb x x = true.
Proof.
  intros Hx. unfold F32.eqb, SFeqb, SFcompare.
  destruct x as [s|s| |s m e]; try discriminate; try (destruct s; reflexivity).
  rewrite Z.compare_refl.
  change (Pos.compare_cont Eq m m) with (Pos.compare m m).
  rewrite Pos.compare_refl. destruct s; reflexivity.
Qed.

(** Channel 0: [upper - 0 * step] is [upper] whenever the step is finite. *)
Lemma first_angle (U D : float) :
  F32.is_finite D = true -> F32.is_nan U = false ->
  F32.eqb (U - F32.of_Z 0 * D)%f32 U = true.
Proof.
  intros HD HU. change (F32.of_Z 0) with (S754_zero false).
  unfold F32.mul, F32.sub.
  destruct D as [sd|sd| |sd md ed]; try discriminate;
    destruct U as [su|su| |su mu eu]; try discriminate;
    try (destruct su, sd; reflexivity);
    simpl SFmul; simpl SFsub; apply eqb_refl; reflexivity.
Qed.

(** A division by zero gives an infinity or a NaN, and zero times either
    is a NaN: with one channel the only angle is a NaN. *)
Lemma single_angle (U L : float) :
  (U - F32.of_Z 0 * ((U - L) / F32.of_Z (wrap32 (1 - 1))))%f32 = F32.NaN.
Proof.
  change (F32.of_Z (wrap32 (1 - 1))) with (S754_zero false).
  change (F32.of_Z 0) with (S754_zero false).
  unfold F32.div, F32.mul, F32.sub at 1.
  destruct (U - L)%f32 as [s|s| |s m e]; simpl SFdiv; simpl SFmul;
    destruct U; reflexivity.
Qed.

Lemma nonneg_in_range (r : float) :
  F32.is_finite r = true -> F32.is_nonneg r = true ->
  F32.ltb (F32.abs r) (F32.of_Z 360) = true ->
  in_0_360 r = true.
Proof.
  intros Hf Hs Hlt. unfold in_0_360. apply andb_true_iff. split.
  - destruct r as [s|s| |s m e]; try discriminate; [reflexivity|].
    simpl in Hs. destruct s; [discriminate | reflexivity].
  - destruct r as [s|s| |s m e]; try discriminate.
    + destruct s; exact Hlt.
    + simpl in Hs. destruct s; [discriminate | exact Hlt].
Qed.

(** Counts convert to finite floats, and positive counts to positive ones. *)
Lemma of_Z_positive (k : Z) :
  0 < k < 2 ^ 32 -> exists m e, F32.of_Z k = S754_finite false m e.
Proof.
  intros Hk. destruct k as [|p|p]; try lia.
  unfold F32.of_Z. simpl binary_normalize.
  destruct (binary_round_shaped false p 0) as [_ Hs].
  destruct (digits2_pos_bounds p) as [Hlo Hhi].
  assert (Hd : 0 < Zpos (digits2_pos p) <= 32).
  { split; [lia|]. change (Zpos (digits2_pos p)) with (Zdigits2 (Zpos p)).
    apply Zdigits2_le; lia. }
  rewrite Z.add_0_r, fexp32_eq in Hs.
  destruct (binary_round F32.prec F32.emax false p 0) as [s|s| |s m e].
  - exfalso. destruct Hs as [_ [Hge Hz]].
    rewrite Z.max_l, Z.sub_0_r in Hz by lia.
    rewrite Z.max_l in Hge by lia.
    apply Z.div_small_iff in Hz; [|apply Z.pow_nonzero; lia].
    assert (2 ^ (Zpos (digits2_pos p) - 24) <= 2 ^ (Zpos (digits2_pos p) - 1))
      by (apply Z.pow_le_mono_r; lia).
    lia.
  - exfalso. lia.
  - contradiction.
  - destruct Hs as [-> _]. exists m, e. reflexivity.
Qed.

Lemma of_Z_finite (k : Z) : 0 <= k < 2 ^ 32 -> F32.is_finite (F32.of_Z k) = true.
Proof.
  intros Hk. destruct (Z.eq_dec k 0) as [->|Hn]; [reflexivity|].
  destruct (of_Z_positive k) as [m [e E]]; [lia|]. rewrite E. reflexivity.
Qed.

Lemma sub_diag (U : float) : F32.is_finite U = true -> (U - U)%f32 = F32.zero.
Proof.
  intros HU. unfold F32.sub, SFsub.
  destruct U as [s|s| |s m e]; try discriminate.
  - destruct s; reflexivity.
  - rewrite Z.sub_diag. reflexivity.
Qed.

(** With equal finite limits every angle is the limit. *)
Lemma equal_limits_angle (U : float) (k i : Z) :
  F32.is_finite U = true -> 0 < k < 2 ^ 32 -> 0 <= i < 2 ^ 32 ->
  F32.eqb (U - F32.of_Z i * ((U - U) / F32.of_Z k))%f32 U = true.
Proof.
  intros HU Hk Hi. rewrite sub_diag by assumption.
  destruct (of_Z_positive k Hk) as [m [e ->]].
  pose proof (of_Z_finite i Hi) as Hfi.
  unfold F32.div, F32.zero. simpl SFdiv.
  unfold F32.mul, F32.sub.
  destruct (F32.of_Z i) as [si|si| |si mi ei]; try discriminate;
    destruct U as [su|su| |su mu eu]; try discriminate;
    try (destruct su, si; reflexivity);
    simpl SFmul; simpl SFsub; apply eqb_refl; reflexivity.
Qed.

Lemma wrap32_small (n : Z) : 0 <= n <= uint32_max -> wrap32 n = n.
Proof.
  unfold wrap32, uint32_max. intros H. apply Z.mod_small.
  change (2 ^ 32) with 4294967296 in *. lia.
Qed.

(** ** The step of the table is finite for limits of moderate size *)

Lemma shl_align_val (m : positive) (e e' : Z) :
  e' <= e -> Zpos (fst (shl_align m e e')) = Zpos m * 2 ^ (e - e').
Proof.
  intros Hle. unfold shl_align.
  destruct (e' - e) as [|p|p] eqn:E; try lia.
  - replace (e - e') with 0 by lia. simpl. lia.
  - simpl fst. rewrite iter_xO_val. f_equal. f_equal. lia.
Qed.

Lemma round_exponent_le (s : bool) (p : positive) (e k : Z) :
  Zpos p < 2 ^ (k + 24 - e) -> k + 24 - e >= 0 -> -149 <= k < 103 ->
  F32.exponent_le (k + 1) (binary_round F32.prec F32.emax s p e) = true.
Proof.
  intros Hp Hk Hk'.
  destruct (binary_round_shaped s p e) as [_ Hs].
  assert (Hd : Zpos (digits2_pos p) <= k + 24 - e).
  { change (Zpos (digits2_pos p)) with (Zdigits2 (Zpos p)).
    apply Zdigits2_le; lia. }
  assert (Hfx : F32.fexp32 (Zpos (digits2_pos p) + e) <= k)
    by (rewrite fexp32_eq; lia).
  destruct (binary_round F32.prec F32.emax s p e) as [s'|s'| |s' m' e'];
    simpl; try reflexivity.
  - exfalso. lia.
  - contradiction.
  - apply Z.leb_le. lia.
Qed.

Lemma sub_exponent_le (x y : float) (k : Z) :
  F32.valid x = true -> F32.valid y = true ->
  F32.exponent_le k x = true -> F32.exponent_le k y = true ->
  -149 <= k < 102 ->
  F32.exponent_le (k + 2) (x - y)%f32 = true.
Proof.
  intros Hvx Hvy Hx Hy Hk. unfold F32.sub, SFsub.
  destruct x as [sx|sx| |sx mx ex]; try discriminate;
    destruct y as [sy|sy| |sy my ey]; try discriminate.
  - destruct sx, sy; reflexivity.
  - simpl in *. apply Z.leb_le in Hy. apply Z.leb_le. lia.
  - simpl in *. apply Z.leb_le in Hx. apply Z.leb_le. lia.
  - simpl in Hx, Hy. apply Z.leb_le in Hx. apply Z.leb_le in Hy.
    destruct (valid_finite_bounds _ _ _ Hvx) as [Hmx [Hex _]].
    destruct (valid_finite_bounds _ _ _ Hvy) as [Hmy [Hey _]].
    set (ez := Z.min ex ey).
    rewrite !shl_align_val by (unfold ez; lia).
    assert (Hpx : 0 < 2 ^ (ex - ez)) by (apply Z.pow_pos_nonneg; unfold ez; lia).
    assert (Hpy : 0 < 2 ^ (ey - ez)) by (apply Z.pow_pos_nonneg; unfold ez; lia).
    assert (Hbx : Zpos mx * 2 ^ (ex - ez) < 2 ^ (k + 24 - ez)).
    { replace (k + 24 - ez) with (24 + (k - ex) + (ex - ez)) by lia.
      rewrite !Z.pow_add_r by (unfold ez; lia).
      assert (0 < 2 ^ (k - ex)) by (apply Z.pow_pos_nonneg; lia).
      nia. }
    assert (Hby : Zpos my * 2 ^ (ey - ez) < 2 ^ (k + 24 - ez)).
    { replace (k + 24 - ez) with (24 + (k - ey) + (ey - ez)) by lia.
      rewrite !Z.pow_add_r by (unfold ez; lia).
      assert (0 < 2 ^ (k - ey)) by (apply Z.pow_pos_nonneg; lia).
      nia. }
    assert (E2 : 2 ^ (k + 1 + 24 - ez) = 2 * 2 ^ (k + 24 - ez)).
    { rewrite <- Z.pow_succ_r by (unfold ez; lia). f_equal. lia. }
    set (z := cond_Zopp sx (Zpos mx * 2 ^ (ex - ez))
              - cond_Zopp sy (Zpos my * 2 ^ (ey - ez))).
    assert (Hz : Z.abs z < 2 ^ (k + 1 + 24 - ez))
      by (unfold z, cond_Zopp; destruct sx, sy; lia).
    replace (k + 2) with (k + 1 + 1) by lia.
    destruct z as [|p|p]; simpl binary_normalize.
    + reflexivity.
    + apply round_exponent_le; [exact Hz | unfold ez; lia | lia].
    + apply round_exponent_le; [exact Hz | unfold ez; lia | lia].
Qed.

(** A positive count converts to a normal float of value 1 at least. *)
Lemma of_Z_normal (k : Z) :
  0 < k < 2 ^ 32 ->
  exists m e, F32.of_Z k = S754_finite false m e /\
              Zpos (digits2_pos m) = 24 /\ -23 <= e.
Proof.
  intros Hk. destruct (of_Z_positive k Hk) as [m [e E]].
  exists m, e. split; [assumption|].
  pose proof (valid_of_Z k) as Hv. rewrite E in Hv.
  destruct (valid_finite _ _ _ Hv) as [Hc _].
  destruct k as [|p|p]; try lia.
  destruct (binary_round_shaped false p 0) as [_ Hs].
  unfold F32.of_Z in E. simpl binary_normalize in E. rewrite E in Hs.
  assert (0 < Zpos (digits2_pos p)) by lia.
  rewrite fexp32_eq in *. lia.
Qed.

Lemma div_digits (a b : Z) (da db s : Z) :
  0 < a < 2 ^ da -> 2 ^ (db - 1) <= b -> 0 < db -> 0 <= da -> 0 <= s ->
  Zdigits2 (a * 2 ^ s / b) <= Z.max 0 (da + s - db + 1).
Proof.
  intros Ha Hb Hdb Hda Hs.
  assert (Hpb : 0 < 2 ^ (db - 1)) by (apply Z.pow_pos_nonneg; lia).
  assert (Hps : 0 < 2 ^ s) by (apply Z.pow_pos_nonneg; lia).
  assert (Has : a * 2 ^ s < 2 ^ (da + s))
    by (rewrite Z.pow_add_r by lia; nia).
  assert (Hq0 : 0 <= a * 2 ^ s / b) by (apply Z.div_pos; nia).
  destruct (Z.le_gt_cases (da + s - db + 1) 0) as [Hle|Hgt].
  - rewrite Z.max_l by lia.
    assert (2 ^ (da + s) <= 2 ^ (db - 1)) by (apply Z.pow_le_mono_r; lia).
    rewrite Z.div_small by lia. simpl. lia.
  - rewrite Z.max_r by lia. apply Zdigits2_le; [assumption | lia |].
    apply Z.div_lt_upper_bound; [lia|].
    assert (E : 2 ^ (da + s) = 2 ^ (db - 1) * 2 ^ (da + s - db + 1))
      by (rewrite <- Z.pow_add_r by lia; f_equal; lia).
    assert (0 < 2 ^ (da + s - db + 1)) by (apply Z.pow_pos_nonneg; lia).
    nia.
Qed.

Lemma div_count_finite (x : float) (k : Z) :
  F32.valid x = true -> F32.exponent_le 102 x = true -> 0 < k < 2 ^ 32 ->
  F32.is_finite (x / F32.of_Z k)%f32 = true.
Proof.
  intros Hv Hx Hk.
  destruct (of_Z_normal k Hk) as [m2 [e2 [E [Hd2 He2]]]]. rewrite E.
  unfold F32.div, SFdiv.
  destruct x as [sx|sx| |sx mx ex]; try discriminate; [reflexivity|].
  simpl in Hx. apply Z.leb_le in Hx.
  destruct (valid_finite_bounds _ _ _ Hv) as [Hmx [Hex _]].
  destruct (div_core_spec mx ex m2 e2) as [q [e [l [Ec [He [Hq [Hq0 Hle]]]]]]].
  rewrite Ec.
  destruct (binary_round_aux_shaped (xorb sx false) q e l Hq0 Hle) as [_ Hs].
  destruct (digits2_pos_bounds m2) as [Hlo2 _].
  assert (Hse : 0 <= ex - e2 - e) by (rewrite He; lia).
  pose proof (div_digits (Zpos mx) (Zpos m2) 24 (Zpos (digits2_pos m2))
                (ex - e2 - e)) as Hdq.
  rewrite <- Hq in Hdq.
  assert (Hdq' : Zdigits2 q <= Z.max 0 (24 + (ex - e2 - e) - 24 + 1))
    by (rewrite Hd2 in Hdq, Hlo2; apply Hdq; lia).
  assert (Hfx : F32.fexp32 (Zdigits2 q + e) < 104).
  { rewrite fexp32_eq.
    assert (e <= ex - e2) by (rewrite He; lia).
    lia. }
  destruct (binary_round_aux F32.prec F32.emax (xorb sx false) q e l)
    as [s'|s'| |s' m' e']; try reflexivity.
  - exfalso. lia.
  - contradiction.
Qed.

(** Limits of magnitude below [2^124] give a finite step. *)
Lemma DeltaAngle_finite (d : ULidarDescription) :
  2 <= Channels d <= uint32_max ->
  F32.valid (UpperFovLimit d) = true -> F32.valid (LowerFovLimit d) = true ->
  F32.exponent_le 100 (UpperFovLimit d) = true ->
  F32.exponent_le 100 (LowerFovLimit d) = true ->
  F32.is_finite (DeltaAngle d) = true.
Proof.
  intros Hn HvU HvL HU HL. unfold DeltaAngle.
  assert (H32 : uint32_max = 2 ^ 32 - 1) by reflexivity.
  rewrite wrap32_small by lia.
  apply div_count_finite; [auto with f32_valid | | lia].
  apply (sub_exponent_le _ _ 100); try assumption. lia.
Qed.

(* ===================================================================== *)
(** * Rounding is monotone *)
(* ===================================================================== *)

(** shr_1 on the three fields *)
Lemma shr_1_fields m r s :
  0 <= m ->
  shr_1 (Build_shr_record m r s) = Build_shr_record (m / 2) (Z.odd m) (r || s).
Proof.
  intros Hm. destruct m as [|[p|p|]|p]; try lia; simpl; try reflexivity.
  - f_equal. rewrite Pos2Z.inj_xI. apply Z.div_unique with 1; lia.
  - f_equal. rewrite Pos2Z.inj_xO. apply Z.div_unique with 0; lia.
Qed.

Lemma iter_pos_nat {A} (f : A -> A) (p : positive) (x : A) :
  iter_pos f p x = Nat.iter (Pos.to_nat p) f x.
Proof.
  revert x. induction p as [p IH|p IH|]; intros x; simpl iter_pos.
  - rewrite !IH, Pos2Nat.inj_xI.
    rewrite <- Nat.iter_succ_r, <- Nat.iter_add. f_equal. lia.
  - rewrite !IH, Pos2Nat.inj_xO. rewrite <- Nat.iter_add. f_equal. lia.
  - reflexivity.
Qed.

(** After [k+1] shifts of [P]: the quotient, the bit just shifted out, and
    whether anything below it was set. *)
Lemma iter_shr_1_fields (P : Z) (k : nat) :
  0 <= P ->
  Nat.iter (S k) shr_1 (Build_shr_record P false false)
  = Build_shr_record (P / 2 ^ Z.of_nat (S k))
      (Z.testbit P (Z.of_nat k))
      (negb (P mod 2 ^ Z.of_nat k =? 0)).
Proof.
  intros HP. induction k as [|k IH].
  - rewrite Nat.iter_succ.
    change (Nat.iter 0 shr_1 (Build_shr_record P false false))
      with (Build_shr_record P false false).
    rewrite shr_1_fields by assumption.
    change (Z.of_nat 1) with 1. change (Z.of_nat 0) with 0.
    rewrite Z.pow_1_r, Z.pow_0_r, Z.mod_1_r, Z.bit0_odd. reflexivity.
  - rewrite Nat.iter_succ, IH.
    assert (Hq : 0 <= P / 2 ^ Z.of_nat (S k))
      by (apply Z.div_pos; [assumption | apply Z.pow_pos_nonneg; lia]).
    rewrite shr_1_fields by assumption. f_equal.
    + rewrite Z.div_div by (try apply Z.pow_pos_nonneg; lia).
      f_equal. rewrite (Nat2Z.inj_succ (S k)), Z.pow_succ_r by lia. lia.
    + rewrite Z.testbit_odd, Z.shiftr_div_pow2 by lia. reflexivity.
    + (* sticky: bit k or anything below *)
      rewrite (Nat2Z.inj_succ k), Z.pow_succ_r by lia.
      rewrite Z.testbit_odd, Z.shiftr_div_pow2 by lia.
      set (K := 2 ^ Z.of_nat k).
      assert (HK : 0 < K) by (apply Z.pow_pos_nonneg; lia).
      pose proof (Z.div_mod P K ltac:(lia)) as E1.
      pose proof (Z.mod_pos_bound P K HK) as B1.
      pose proof (Z.div_mod (P / K) 2 ltac:(lia)) as E2.
      pose proof (Z.mod_pos_bound (P / K) 2 ltac:(lia)) as B2.
      assert (Em : P mod (2 * K) = K * ((P / K) mod 2) + P mod K).
      { symmetry. apply Z.mod_unique with (P / K / 2); [nia | nia]. }
      rewrite Em. pose proof (Zmod_odd (P / K)) as Ho.
      destruct (Z.odd (P / K)); rewrite Ho; simpl.
      * symmetry. apply negb_true_iff, Z.eqb_neq. nia.
      * destruct (Z.eqb_spec (P mod K) 0) as [H0|H0]; simpl; symmetry.
        -- apply negb_false_iff, Z.eqb_eq. nia.
        -- apply negb_true_iff, Z.eqb_neq. nia.
Qed.

Lemma rne_0 P : rne P 0 = P.
Proof. unfold rne. rewrite Z.pow_0_r, Z.mod_1_r, Z.div_1_r. reflexivity. Qed.

Lemma shr_round (P e n : Z) :
  0 <= P -> 0 < n ->
  snd (shr (shr_record_of_loc P loc_Exact) e n) = e + n /\
  round_nearest_even
    (shr_m (fst (shr (shr_record_of_loc P loc_Exact) e n)))
    (loc_of_shr_record (fst (shr (shr_record_of_loc P loc_Exact) e n)))
  = rne P n.
Proof.
  intros HP Hn. destruct n as [|p|p]; try lia. cbn [shr fst snd shr_record_of_loc].
  split; [reflexivity|].
  rewrite iter_pos_nat.
  destruct (Pos.to_nat p) as [|k] eqn:Ek; [lia|].
  rewrite iter_shr_1_fields by assumption.
  assert (En : Z.of_nat (S k) = Zpos p) by lia.
  rewrite En. cbn [shr_m].
  assert (Ek' : Z.of_nat k = Zpos p - 1) by lia. rewrite Ek'.
  unfold rne.
  set (K := 2 ^ (Zpos p - 1)).
  assert (HK : 0 < K) by (apply Z.pow_pos_nonneg; lia).
  assert (E2 : 2 ^ Zpos p = 2 * K)
    by (unfold K; rewrite <- Z.pow_succ_r by lia; f_equal; lia).
  rewrite E2.
  pose proof (Z.div_mod P K ltac:(lia)) as E1.
  pose proof (Z.mod_pos_bound P K HK) as B1.
  pose proof (Z.div_mod (P / K) 2 ltac:(lia)) as E3.
  pose proof (Z.mod_pos_bound (P / K) 2 ltac:(lia)) as B2.
  assert (Em : P mod (2 * K) = K * ((P / K) mod 2) + P mod K).
  { symmetry. apply Z.mod_unique with (P / K / 2); [nia | nia]. }
  rewrite Em.
  assert (Et : Z.testbit P (Zpos p - 1) = Z.odd (P / K))
    by (rewrite Z.testbit_odd, Z.shiftr_div_pow2 by lia; reflexivity).
  rewrite Et. pose proof (Zmod_odd (P / K)) as Ho.
  destruct (Z.odd (P / K)); rewrite Ho.
  - destruct (Z.eqb_spec (P mod K) 0) as [H0|H0]; cbn [negb].
    + cbn [loc_of_shr_record round_nearest_even shr_m].
      rewrite (proj2 (Z.compare_eq_iff _ _)) by nia. reflexivity.
    + cbn [loc_of_shr_record round_nearest_even shr_m].
      rewrite (proj2 (Z.compare_gt_iff _ _)) by nia. reflexivity.
  - destruct (Z.eqb_spec (P mod K) 0) as [H0|H0]; cbn [negb];
      cbn [loc_of_shr_record round_nearest_even shr_m];
      rewrite (proj2 (Z.compare_lt_iff _ _)) by nia; reflexivity.
Qed.

Lemma canonical_lt_24 M E :
  0 < M -> F32.fexp32 (Zdigits2 M + E) = E -> M < 2 ^ 24.
Proof.
  intros HM Hc. destruct (Zdigits2_bounds M HM) as [Hd [_ Hhi]].
  rewrite fexp32_eq in Hc.
  assert (2 ^ Zdigits2 M <= 2 ^ 24) by (apply Z.pow_le_mono_r; lia). lia.
Qed.

Lemma shr_zero (l : location) (e n : Z) :
  shr_m (fst (shr (shr_record_of_loc 0 l) e n)) = 0.
Proof.
  destruct n as [|p|p]; cbn [shr fst]; try apply shr_record_of_loc_m.
  rewrite iter_shr_1_m by (rewrite shr_record_of_loc_m; lia).
  rewrite shr_record_of_loc_m. apply Z.div_0_l. apply Z.pow_nonzero; lia.
Qed.

Lemma stage2_finish s M E : roundable M E -> stage2 s M E = finish s M E.
Proof.
  intros [H0|[[HM Hc]|[HM Hc]]]; unfold stage2.
  - subst M. unfold shr_fexp.
    pose proof (shr_zero loc_Exact E
                  (fexp F32.prec F32.emax (Zdigits2 0 + E) - E)) as S1.
    destruct (shr _ _ _) as [mrs e']. simpl in S1. rewrite S1.
    reflexivity.
  - rewrite (shr_fexp_canonical _ _ _ Hc). simpl shr_m.
    pose proof (canonical_lt_24 M E HM Hc) as Hlt.
    unfold finish. destruct M as [|m|m]; try lia.
    destruct (Z.ltb_spec (Zpos m) (2 ^ 24)); [|lia]. reflexivity.
  - subst M. unfold shr_fexp.
    change (fexp F32.prec F32.emax (Zdigits2 (2 ^ 24) + E))
      with (F32.fexp32 (25 + E)).
    assert (He : F32.fexp32 (25 + E) - E = 1) by (rewrite fexp32_eq in *; lia).
    rewrite He. reflexivity.
Qed.

Lemma rne_cases P n : rne P n = P / 2 ^ n \/ rne P n = P / 2 ^ n + 1.
Proof.
  unfold rne. destruct (_ ?= _); auto. destruct (Z.even _); auto.
Qed.

Lemma rne_roundable (P e : Z) :
  0 < P -> e <= F32.fexp32 (Zdigits2 P + e) ->
  roundable (rne P (F32.fexp32 (Zdigits2 P + e) - e))
            (F32.fexp32 (Zdigits2 P + e)).
Proof.
  intros HP Hle.
  set (E := F32.fexp32 (Zdigits2 P + e)) in *.
  set (n := E - e).
  assert (Hn : 0 <= n) by (unfold n; lia).
  destruct (Zdigits2_bounds P HP) as [Hd Hb].
  pose proof (div_pow2_digits P n (Z.lt_le_incl _ _ HP) Hn) as Hdq.
  assert (Hq0 : 0 <= P / 2 ^ n)
    by (apply Z.div_pos; [lia | apply Z.pow_pos_nonneg; lia]).
  assert (HE : E = Z.max (Zdigits2 P + e - 24) (-149))
    by (unfold E; apply fexp32_eq).
  destruct (Z.eq_dec (P / 2 ^ n) 0) as [Hz|Hz].
  - (* everything is shifted out: the least exponent *)
    rewrite Hz in Hdq. simpl in Hdq.
    assert (E149 : E = -149) by (unfold n in Hdq; lia).
    destruct (rne_cases P n) as [R|R]; rewrite R, Hz.
    + left. reflexivity.
    + right. left. split; [lia|]. change (Zdigits2 (0 + 1)) with 1.
      rewrite fexp32_eq. lia.
  - assert (Hq : 0 < P / 2 ^ n) by lia.
    destruct (Zdigits2_bounds _ Hq) as [Hdq0 Hbq].
    assert (Hc : F32.fexp32 (Zdigits2 (P / 2 ^ n) + E) = E).
    { rewrite Hdq, Z.max_r by lia.
      replace (Zdigits2 P - n + E) with (Zdigits2 P + e) by (unfold n; lia).
      reflexivity. }
    destruct (rne_cases P n) as [R|R]; rewrite R.
    + right. left. split; assumption.
    + destruct (succ_digits _ _ Hdq0 Hbq) as [Hs|Hs].
      * right. left. split; [lia|]. rewrite Hs. exact Hc.
      * destruct (Z.eq_dec (Zdigits2 (P / 2 ^ n)) 24) as [E24|N24].
        -- right. right. rewrite Hs, E24. split; [reflexivity|].
           rewrite <- E24. exact Hc.
        -- right. left. split; [lia|].
           assert (Hd1 : Zdigits2 (P / 2 ^ n + 1) = Zdigits2 (P / 2 ^ n) + 1).
           { apply Zdigits2_unique; [lia|].
             replace (Zdigits2 (P / 2 ^ n) + 1 - 1)
               with (Zdigits2 (P / 2 ^ n)) by lia.
             rewrite Hs. split; [lia|]. apply Z.pow_lt_mono_r; lia. }
           rewrite Hd1. rewrite fexp32_eq in *. lia.
Qed.

Lemma binary_round_aux_stage2 s P e l :
  binary_round_aux F32.prec F32.emax s P e l
  = stage2 s
      (round_nearest_even
         (shr_m (fst (shr_fexp F32.prec F32.emax P e l)))
         (loc_of_shr_record (fst (shr_fexp F32.prec F32.emax P e l))))
      (snd (shr_fexp F32.prec F32.emax P e l)).
Proof.
  unfold binary_round_aux, stage2.
  destruct (shr_fexp F32.prec F32.emax P e l) as [mrs' e']. reflexivity.
Qed.

(** An exact mantissa with digits to spare is rounded to the nearest
    mantissa of the exponent the format gives it. *)
Lemma binary_round_aux_exact (s : bool) (P e : Z) :
  0 < P -> e <= F32.fexp32 (Zdigits2 P + e) ->
  binary_round_aux F32.prec F32.emax s P e loc_Exact
  = finish s (rne P (F32.fexp32 (Zdigits2 P + e) - e))
             (F32.fexp32 (Zdigits2 P + e)).
Proof.
  intros HP Hle.
  rewrite <- stage2_finish by (apply rne_roundable; assumption).
  rewrite binary_round_aux_stage2.
  destruct (Z.eq_dec (F32.fexp32 (Zdigits2 P + e)) e) as [Hc|Hc].
  - rewrite (shr_fexp_canonical _ _ _ Hc). cbn [fst snd].
    rewrite shr_record_of_loc_m. cbn [shr_record_of_loc loc_of_shr_record round_nearest_even].
    rewrite Hc, Z.sub_diag, rne_0. reflexivity.
  - unfold shr_fexp at 1 2 3.
    change (fexp F32.prec F32.emax (Zdigits2 P + e))
      with (F32.fexp32 (Zdigits2 P + e)).
    destruct (shr_round P e (F32.fexp32 (Zdigits2 P + e) - e)) as [S1 S2]; [lia|lia|].
    rewrite S1, S2. f_equal. lia.
Qed.

(** [binary_round]: align, then round. *)
Lemma binary_round_rne (s : bool) (p : positive) (e : Z) :
  let E := F32.fexp32 (Zpos (digits2_pos p) + e) in
  binary_round F32.prec F32.emax s p e
  = finish s (rne (Zpos p * 2 ^ Z.max 0 (e - E)) (Z.max 0 (E - e))) E.
Proof.
  intros E. unfold binary_round.
  change (fexp F32.prec F32.emax (Zpos (digits2_pos p) + e)) with E.
  destruct (shl_align_fexp p e) as [mz [ez [Ea [Hez [Hmz Hdz]]]]].
  fold E in Ea, Hez, Hdz. rewrite Ea.
  assert (Hfe : F32.fexp32 (Zdigits2 (Zpos mz) + ez) = E) by (rewrite Hdz; reflexivity).
  rewrite binary_round_aux_exact by lia.
  rewrite Hfe, Hmz. f_equal. f_equal; [f_equal; f_equal|]; lia.
Qed.

(** ** Nearest-even rounding is monotone and invariant under scaling *)

Lemma rne_mono (P1 P2 n : Z) :
  0 <= P1 <= P2 -> 0 <= n -> rne P1 n <= rne P2 n.
Proof.
  intros HP Hn.
  assert (HK : 0 < 2 ^ n) by (apply Z.pow_pos_nonneg; lia).
  assert (Hq : P1 / 2 ^ n <= P2 / 2 ^ n) by (apply Z.div_le_mono; lia).
  pose proof (Z.div_mod P1 (2 ^ n) ltac:(lia)) as E1.
  pose proof (Z.div_mod P2 (2 ^ n) ltac:(lia)) as E2.
  pose proof (Z.mod_pos_bound P1 (2 ^ n) HK) as B1.
  pose proof (Z.mod_pos_bound P2 (2 ^ n) HK) as B2.
  destruct (Z.eq_dec (P1 / 2 ^ n) (P2 / 2 ^ n)) as [Eq|Ne].
  - assert (Hr : P1 mod 2 ^ n <= P2 mod 2 ^ n) by nia.
    unfold rne. rewrite Eq.
    destruct (Z.compare_spec (2 * (P1 mod 2 ^ n)) (2 ^ n));
      destruct (Z.compare_spec (2 * (P2 mod 2 ^ n)) (2 ^ n));
      try destruct (Z.even (P2 / 2 ^ n)); lia.
  - destruct (rne_cases P1 n) as [R1|R1], (rne_cases P2 n) as [R2|R2]; lia.
Qed.

Lemma rne_scale (P n k : Z) :
  0 <= n -> 0 <= k -> rne (P * 2 ^ k) (n + k) = rne P n.
Proof.
  intros Hn Hk.
  assert (HK : 0 < 2 ^ k) by (apply Z.pow_pos_nonneg; lia).
  assert (HN : 0 < 2 ^ n) by (apply Z.pow_pos_nonneg; lia).
  unfold rne. rewrite Z.pow_add_r by assumption.
  rewrite Z.div_mul_cancel_r by lia.
  rewrite Z.mul_mod_distr_r by lia.
  replace (2 * (P mod 2 ^ n * 2 ^ k)) with (2 * (P mod 2 ^ n) * 2 ^ k) by lia.
  rewrite <- Zmult_compare_compat_r by lia. reflexivity.
Qed.

Lemma rne_multiple (P n : Z) : 0 <= n -> rne (P * 2 ^ n) n = P.
Proof.
  intros Hn. rewrite <- (rne_0 P) at 2.
  apply (rne_scale P 0 n); lia.
Qed.

Lemma rne_ge_quot P n : P / 2 ^ n <= rne P n.
Proof. destruct (rne_cases P n); lia. Qed.

(** The grid of the format around a number of [D] digits, in units of
    [2^e0]: the nearest multiple of [2^g], for [g] the exponent the format
    gives it. *)
Lemma round_value_mono (V1 V2 e0 : Z) :
  0 < V1 <= V2 -> e0 <= -149 ->
  let g1 := F32.fexp32 (Zdigits2 V1 + e0) - e0 in
  let g2 := F32.fexp32 (Zdigits2 V2 + e0) - e0 in
  rne V1 g1 * 2 ^ g1 <= rne V2 g2 * 2 ^ g2.
Proof.
  intros HV He0 g1 g2.
  assert (HV1 : 0 < V1) by lia. assert (HV2 : 0 < V2) by lia.
  destruct (Zdigits2_bounds V1 HV1) as [Hd1 Hb1].
  destruct (Zdigits2_bounds V2 HV2) as [Hd2 Hb2].
  assert (Hd : Zdigits2 V1 <= Zdigits2 V2).
  { destruct (Z.le_gt_cases (Zdigits2 V1) (Zdigits2 V2)); [assumption|].
    assert (2 ^ Zdigits2 V2 <= 2 ^ (Zdigits2 V1 - 1))
      by (apply Z.pow_le_mono_r; lia). lia. }
  assert (Hg1 : 0 <= g1) by (unfold g1; rewrite fexp32_eq; lia).
  assert (Hg2 : 0 <= g2) by (unfold g2; rewrite fexp32_eq; lia).
  assert (Hg : g1 <= g2) by (unfold g1, g2; rewrite !fexp32_eq; lia).
  destruct (Z.eq_dec g1 g2) as [Eg|Ng].
  - rewrite <- Eg.
    assert (0 < 2 ^ g1) by (apply Z.pow_pos_nonneg; lia).
    pose proof (rne_mono V1 V2 g1 ltac:(lia) Hg1). nia.
  - (* the binade of V2 starts above V1 *)
    assert (Eg2 : g2 = Zdigits2 V2 - 24)
      by (unfold g1, g2 in *; rewrite !fexp32_eq in *; lia).
    assert (Hdd : Zdigits2 V1 < Zdigits2 V2)
      by (unfold g1, g2 in *; rewrite !fexp32_eq in *; lia).
    set (B := 2 ^ (Zdigits2 V2 - 1)).
    assert (HB1 : V1 <= B).
    { assert (2 ^ Zdigits2 V1 <= B) by (apply Z.pow_le_mono_r; lia). lia. }
    assert (EB1 : B = 2 ^ (Zdigits2 V2 - 1 - g1) * 2 ^ g1)
      by (unfold B; rewrite <- Z.pow_add_r by lia; f_equal; lia).
    assert (EB2 : B = 2 ^ 23 * 2 ^ g2)
      by (unfold B; rewrite <- Z.pow_add_r by lia; f_equal; lia).
    assert (0 < 2 ^ g1) by (apply Z.pow_pos_nonneg; lia).
    assert (0 < 2 ^ g2) by (apply Z.pow_pos_nonneg; lia).
    apply Z.le_trans with B.
    + pose proof (rne_mono V1 B g1 ltac:(lia) Hg1) as Hm.
      rewrite EB1 in Hm. rewrite rne_multiple in Hm by assumption.
      rewrite EB1. nia.
    + pose proof (rne_mono B V2 g2 ltac:(unfold B in *; lia) Hg2) as Hm.
      rewrite EB2 in Hm. rewrite rne_multiple in Hm by assumption.
      rewrite EB2. nia.
Qed.

Lemma binary_round_units (s : bool) (p : positive) (e e0 : Z) :
  e0 <= e -> e0 <= -149 ->
  let V := Zpos p * 2 ^ (e - e0) in
  let E := F32.fexp32 (Zdigits2 V + e0) in
  binary_round F32.prec F32.emax s p e = finish s (rne V (E - e0)) E.
Proof.
  intros He0 H149 V E.
  assert (HdV : Zdigits2 V + e0 = Zpos (digits2_pos p) + e).
  { unfold V. rewrite mul_pow2_digits by lia. simpl Zdigits2. lia. }
  assert (HE : E = F32.fexp32 (Zpos (digits2_pos p) + e))
    by (unfold E; rewrite HdV; reflexivity).
  rewrite binary_round_rne. rewrite <- HE.
  assert (HEmin : -149 <= E) by (unfold E; rewrite fexp32_eq; lia).
  f_equal.
  destruct (Z.le_gt_cases E e) as [Hle|Hgt].
  - rewrite (Z.max_r 0 (e - E)), (Z.max_l 0 (E - e)), rne_0 by lia.
    assert (EV : V = Zpos p * 2 ^ (e - E) * 2 ^ (E - e0)).
    { unfold V. rewrite <- Z.mul_assoc, <- Z.pow_add_r by lia. f_equal. f_equal. lia. }
    rewrite EV, rne_multiple by lia. reflexivity.
  - rewrite (Z.max_l 0 (e - E)), (Z.max_r 0 (E - e)) by lia.
    rewrite Z.pow_0_r, Z.mul_1_r.
    unfold V. replace (E - e0) with ((E - e) + (e - e0)) by lia.
    rewrite rne_scale by lia. reflexivity.
Qed.

(** The finite float a rounded mantissa gives: its canonical mantissa
    and exponent, and its value. *)
Lemma finish_positive (s : bool) (M E : Z) :
  roundable M E -> 0 < M ->
  exists (m' : positive) (E' : Z),
    finish s M E = (if E' <=? 104 then S754_finite s m' E' else S754_infinity s) /\
    F32.fexp32 (Zpos (digits2_pos m') + E') = E' /\
    E <= E' /\
    forall e0, e0 <= E -> Zpos m' * 2 ^ (E' - e0) = M * 2 ^ (E - e0).
Proof.
  intros [H0|[[HM Hc]|[HM Hc]]] Hpos; [lia| |].
  - pose proof (canonical_lt_24 M E HM Hc) as Hlt.
    destruct M as [|m|m]; try lia.
    exists m, E. unfold finish.
    destruct (Z.ltb_spec (Zpos m) (2 ^ 24)); [|lia].
    repeat split; [exact Hc | lia].
  - exists 8388608%positive, (E + 1). subst M. unfold finish.
    change (2 ^ 24) with 16777216. simpl (16777216 <? 16777216).
    split; [reflexivity|]. split; [|split; [lia|]].
    + change (Zpos (digits2_pos 8388608)) with 24.
      rewrite fexp32_eq in *. lia.
    + intros e0 He0. replace (E + 1 - e0) with (Z.succ (E - e0)) by lia.
      rewrite Z.pow_succ_r by lia. lia.
Qed.

Lemma canonical_lex (m1 m2 : positive) (E1 E2 e0 : Z) :
  F32.fexp32 (Zpos (digits2_pos m1) + E1) = E1 ->
  F32.fexp32 (Zpos (digits2_pos m2) + E2) = E2 ->
  e0 <= E1 -> e0 <= E2 ->
  Zpos m1 * 2 ^ (E1 - e0) <= Zpos m2 * 2 ^ (E2 - e0) ->
  E1 < E2 \/ (E1 = E2 /\ Zpos m1 <= Zpos m2).
Proof.
  intros Hc1 Hc2 H1 H2 Hv.
  destruct (digits2_pos_bounds m1) as [Hlo1 Hhi1].
  destruct (digits2_pos_bounds m2) as [Hlo2 Hhi2].
  assert (0 < 2 ^ (E2 - e0)) by (apply Z.pow_pos_nonneg; lia).
  destruct (Z.lt_trichotomy E1 E2) as [Hlt|[Heq|Hgt]]; [left; assumption| |].
  - right. split; [assumption|]. subst E2. nia.
  - exfalso. rewrite fexp32_eq in Hc1, Hc2.
    assert (Hd1 : Zpos (digits2_pos m1) = 24) by lia. rewrite Hd1 in Hlo1.
    assert (Hd2 : Zpos (digits2_pos m2) <= 24) by lia.
    assert (Hm2 : Zpos m2 < 2 ^ 24).
    { assert (2 ^ Zpos (digits2_pos m2) <= 2 ^ 24) by (apply Z.pow_le_mono_r; lia). lia. }
    assert (E : 2 ^ (E1 - e0) = 2 ^ (E1 - E2) * 2 ^ (E2 - e0))
      by (rewrite <- Z.pow_add_r by lia; f_equal; lia).
    assert (2 ^ 1 <= 2 ^ (E1 - E2)) by (apply Z.pow_le_mono_r; lia).
    change (2 ^ 1) with 2 in *. change (2 ^ (24 - 1)) with 8388608 in *.
    change (2 ^ 24) with 16777216 in *. nia.
Qed.

Lemma finite_leb_lex (m1 m2 : positive) (E1 E2 : Z) :
  E1 < E2 \/ (E1 = E2 /\ Zpos m1 <= Zpos m2) ->
  F32.leb (S754_finite false m1 E1) (S754_finite false m2 E2) = true /\
  F32.leb (S754_finite true m2 E2) (S754_finite true m1 E1) = true.
Proof.
  intros H. unfold F32.leb, SFleb, SFcompare.
  destruct H as [H|[H1 H2]].
  - rewrite (proj2 (Z.compare_lt_iff _ _) H).
    rewrite (proj2 (Z.compare_gt_iff _ _) H). split; reflexivity.
  - subst E2. rewrite Z.compare_refl.
    change (Pos.compare_cont Eq m1 m2) with (Zpos m1 ?= Zpos m2).
    change (Pos.compare_cont Eq m2 m1) with (Zpos m2 ?= Zpos m1).
    rewrite (Z.compare_antisym (Zpos m1) (Zpos m2)).
    destruct (Z.compare_spec (Zpos m1) (Zpos m2)); try lia; split; reflexivity.
Qed.

(** Rounded mantissas in value order give floats in order. *)
Lemma finish_leb (M1 E1 M2 E2 e0 : Z) :
  roundable M1 E1 -> roundable M2 E2 -> 0 <= M1 ->
  e0 <= E1 -> e0 <= E2 ->
  M1 * 2 ^ (E1 - e0) <= M2 * 2 ^ (E2 - e0) ->
  F32.leb (finish false M1 E1) (finish false M2 E2) = true /\
  F32.leb (finish true M2 E2) (finish true M1 E1) = true.
Proof.
  intros R1 R2 HM1 H1 H2 Hv.
  assert (Hp1 : 0 < 2 ^ (E1 - e0)) by (apply Z.pow_pos_nonneg; lia).
  assert (Hp2 : 0 < 2 ^ (E2 - e0)) by (apply Z.pow_pos_nonneg; lia).
  assert (HM2 : 0 <= M2) by nia.
  destruct (Z.eq_dec M1 0) as [Z1|N1].
  - subst M1. destruct (Z.eq_dec M2 0) as [Z2|N2].
    + subst M2. split; reflexivity.
    + destruct (finish_positive false M2 E2 R2 ltac:(lia)) as [m2 [E2' [F2 _]]].
      destruct (finish_positive true M2 E2 R2 ltac:(lia)) as [m2t [E2t [F2t _]]].
      rewrite F2, F2t. simpl finish.
      destruct (E2' <=? 104), (E2t <=? 104); split; reflexivity.
  - assert (P1 : 0 < M1) by lia. assert (P2 : 0 < M2) by nia.
    destruct (finish_positive false M1 E1 R1 P1) as [m1 [E1' [F1 [C1 [L1 V1]]]]].
    destruct (finish_positive false M2 E2 R2 P2) as [m2 [E2' [F2 [C2 [L2 V2]]]]].
    destruct (finish_positive true M1 E1 R1 P1) as [m1t [E1t [F1t [C1t [L1t V1t]]]]].
    destruct (finish_positive true M2 E2 R2 P2) as [m2t [E2t [F2t [C2t [L2t V2t]]]]].
    assert (Hlex : E1' < E2' \/ (E1' = E2' /\ Zpos m1 <= Zpos m2)).
    { apply (canonical_lex m1 m2 E1' E2' e0); try assumption; try lia.
      rewrite (V1 e0 H1), (V2 e0 H2). exact Hv. }
    assert (Hlext : E1t < E2t \/ (E1t = E2t /\ Zpos m1t <= Zpos m2t)).
    { apply (canonical_lex m1t m2t E1t E2t e0); try assumption; try lia.
      rewrite (V1t e0 H1), (V2t e0 H2). exact Hv. }
    rewrite F1, F2, F1t, F2t.
    destruct (finite_leb_lex m1 m2 E1' E2' Hlex) as [Hl _].
    destruct (finite_leb_lex m1t m2t E1t E2t Hlext) as [_ Hlt].
    split.
    + destruct (Z.leb_spec E1' 104), (Z.leb_spec E2' 104); try reflexivity; try assumption.
      exfalso. lia.
    + destruct (Z.leb_spec E1t 104), (Z.leb_spec E2t 104); try reflexivity; try assumption.
      exfalso. lia.
Qed.

(** ** Rounding is monotone *)

Lemma rne_nonneg P n : 0 <= P -> 0 <= rne P n.
Proof.
  intros HP. pose proof (rne_ge_quot P n).
  assert (0 <= P / 2 ^ n); [|lia].
  destruct (Z.le_gt_cases 0 n).
  - apply Z.div_pos; [assumption | apply Z.pow_pos_nonneg; lia].
  - rewrite Z.pow_neg_r by lia. rewrite Z.div_0_r. lia.
Qed.

Lemma binary_round_mono_at (p1 p2 : positive) (e1 e2 e0 : Z) :
  e0 <= e1 -> e0 <= e2 ->
  Zpos p1 * 2 ^ (e1 - e0) <= Zpos p2 * 2 ^ (e2 - e0) ->
  F32.leb (binary_round F32.prec F32.emax false p1 e1)
          (binary_round F32.prec F32.emax false p2 e2) = true /\
  F32.leb (binary_round F32.prec F32.emax true p2 e2)
          (binary_round F32.prec F32.emax true p1 e1) = true.
Proof.
  intros H1 H2 Hv.
  set (u := Z.min e0 (-149)).
  assert (Hu : u <= -149) by (unfold u; lia).
  assert (Hu0 : u <= e0) by (unfold u; lia).
  rewrite !(binary_round_units _ p1 e1 u), !(binary_round_units _ p2 e2 u) by lia.
  set (V1 := Zpos p1 * 2 ^ (e1 - u)). set (V2 := Zpos p2 * 2 ^ (e2 - u)).
  assert (Hp : 0 < 2 ^ (e0 - u)) by (apply Z.pow_pos_nonneg; lia).
  assert (EV1 : V1 = Zpos p1 * 2 ^ (e1 - e0) * 2 ^ (e0 - u)).
  { unfold V1. rewrite <- Z.mul_assoc, <- Z.pow_add_r by lia. do 2 f_equal. lia. }
  assert (EV2 : V2 = Zpos p2 * 2 ^ (e2 - e0) * 2 ^ (e0 - u)).
  { unfold V2. rewrite <- Z.mul_assoc, <- Z.pow_add_r by lia. do 2 f_equal. lia. }
  assert (Hp1 : 0 < 2 ^ (e1 - e0)) by (apply Z.pow_pos_nonneg; lia).
  assert (HV1 : 0 < V1) by (rewrite EV1; nia).
  assert (HV : V1 <= V2) by (rewrite EV1, EV2; nia).
  assert (HE1 : u <= F32.fexp32 (Zdigits2 V1 + u)) by (rewrite fexp32_eq; lia).
  assert (HE2 : u <= F32.fexp32 (Zdigits2 V2 + u)) by (rewrite fexp32_eq; lia).
  apply (finish_leb _ _ _ _ u).
  - apply rne_roundable; lia.
  - apply rne_roundable; lia.
  - apply rne_nonneg; lia.
  - assumption.
  - assumption.
  - apply (round_value_mono V1 V2 u); lia.
Qed.

(** The sign of a rounded result. *)
Lemma binary_round_sign (s : bool) (p : positive) (e : Z) :
  match binary_round F32.prec F32.emax s p e with
  | S754_zero s' | S754_infinity s' | S754_finite s' _ _ => s' = s
  | S754_nan => False
  end.
Proof.
  destruct (binary_round_shaped s p e) as [_ Hs].
  destruct (binary_round F32.prec F32.emax s p e); try tauto.
Qed.

Lemma leb_neg_pos (x y : float) :
  match x with
  | S754_zero _ => True
  | S754_infinity s | S754_finite s _ _ => s = true
  | S754_nan => False
  end ->
  match y with
  | S754_zero _ => True
  | S754_infinity s | S754_finite s _ _ => s = false
  | S754_nan => False
  end ->
  F32.leb x y = true.
Proof.
  destruct x as [sx|sx| |sx mx ex], y as [sy|sy| |sy my ey];
    try contradiction; intros Hx Hy; subst; reflexivity.
Qed.

Lemma binary_normalize_mono_at (z1 z2 e1 e2 e0 : Z) (s1 s2 : bool) :
  e0 <= e1 -> e0 <= e2 ->
  z1 * 2 ^ (e1 - e0) <= z2 * 2 ^ (e2 - e0) ->
  F32.leb (binary_normalize F32.prec F32.emax z1 e1 s1)
          (binary_normalize F32.prec F32.emax z2 e2 s2) = true.
Proof.
  intros H1 H2 Hv.
  assert (Hp1 : 0 < 2 ^ (e1 - e0)) by (apply Z.pow_pos_nonneg; lia).
  assert (Hp2 : 0 < 2 ^ (e2 - e0)) by (apply Z.pow_pos_nonneg; lia).
  destruct z1 as [|p1|p1], z2 as [|p2|p2]; cbn [binary_normalize]; try nia.
  - reflexivity.
  - apply leb_neg_pos; [exact I|].
    pose proof (binary_round_sign false p2 e2) as Hs.
    destruct (binary_round _ _ _ _ _); tauto.
  - apply (binary_round_mono_at p1 p2 e1 e2 e0); assumption.
  - apply leb_neg_pos; [|exact I].
    pose proof (binary_round_sign true p1 e1) as Hs.
    destruct (binary_round _ _ _ _ _); tauto.
  - apply leb_neg_pos.
    + pose proof (binary_round_sign true p1 e1) as Hs.
      destruct (binary_round _ _ _ _ _); tauto.
    + pose proof (binary_round_sign false p2 e2) as Hs.
      destruct (binary_round _ _ _ _ _); tauto.
  - apply (binary_round_mono_at p2 p1 e2 e1 e0); try assumption.
    change (Zneg p1) with (- Zpos p1) in Hv.
    change (Zneg p2) with (- Zpos p2) in Hv. lia.
Qed.

Lemma normalize_valid (s : bool) (m : positive) (e : Z) :
  F32.valid (S754_finite s m e) = true ->
  binary_round F32.prec F32.emax s m e = S754_finite s m e.
Proof.
  intros Hv. destruct (valid_finite _ _ _ Hv) as [Hc He].
  destruct (valid_finite_bounds _ _ _ Hv) as [Hm [Hb _]].
  destruct (binary_round_exact s m e) as [mz [Er [Hmz _]]];
    [apply digits_le_24; assumption | lia | rewrite Hc; assumption |].
  rewrite Er, Hc. rewrite Hc, Z.sub_diag, Z.pow_0_r, Z.mul_1_r in Hmz.
  f_equal. lia.
Qed.

(** A finite float is the normal form of its signed mantissa. *)
Lemma finite_as_normalize (x : float) :
  F32.valid x = true -> F32.is_finite x = true ->
  exists z e s, -149 <= e /\
    x = binary_normalize F32.prec F32.emax z e s /\
    z * 2 ^ (e + 149) = ival x.
Proof.
  intros Hv Hf. destruct x as [s|s| |s m e]; try discriminate.
  - exists 0, 0, s. repeat split; lia.
  - destruct (valid_finite_bounds _ _ _ Hv) as [_ [Hb _]].
    exists (cond_Zopp s (Zpos m)), e, s.
    split; [lia|]. split.
    + destruct s; cbn [cond_Zopp Z.opp binary_normalize];
        rewrite normalize_valid by assumption; reflexivity.
    + destruct s; cbn [cond_Zopp ival]; lia.
Qed.

Lemma ival_leb (x y : float) :
  F32.valid x = true -> F32.valid y = true ->
  F32.is_finite x = true -> F32.is_finite y = true ->
  ival x <= ival y -> F32.leb x y = true.
Proof.
  intros Hvx Hvy Hfx Hfy Hv.
  destruct (finite_as_normalize x Hvx Hfx) as [z1 [e1 [s1 [H1 [E1 V1]]]]].
  destruct (finite_as_normalize y Hvy Hfy) as [z2 [e2 [s2 [H2 [E2 V2]]]]].
  rewrite E1, E2. apply (binary_normalize_mono_at _ _ _ _ (-149)); try lia.
  replace (e1 - -149) with (e1 + 149) by lia.
  replace (e2 - -149) with (e2 + 149) by lia. lia.
Qed.

Lemma compare_antisym (x y : float) :
  SFcompare y x = option_map CompOpp (SFcompare x y).
Proof.
  destruct x as [sx|sx| |sx mx ex], y as [sy|sy| |sy my ey];
    try (destruct sx); try (destruct sy); try reflexivity;
    cbn [SFcompare option_map];
    change (Pos.compare_cont Eq mx my) with (Zpos mx ?= Zpos my);
    change (Pos.compare_cont Eq my mx) with (Zpos my ?= Zpos mx);
    rewrite (Z.compare_antisym ex ey), (Z.compare_antisym (Zpos mx) (Zpos my));
    destruct (ex ?= ey); cbn [CompOpp]; try reflexivity;
    destruct (Zpos mx ?= Zpos my); reflexivity.
Qed.

Lemma compare_Eq_ival (x y : float) :
  SFcompare x y = Some Eq -> ival x = ival y.
Proof.
  destruct x as [sx|sx| |sx mx ex], y as [sy|sy| |sy my ey];
    try (destruct sx); try (destruct sy); try discriminate; try reflexivity;
    cbn [SFcompare]; intros H;
    change (Pos.compare_cont Eq mx my) with (Zpos mx ?= Zpos my) in H;
    destruct (Z.compare_spec ex ey); try discriminate;
    destruct (Z.compare_spec (Zpos mx) (Zpos my)); try discriminate;
    subst; cbn [ival]; congruence.
Qed.

Lemma leb_ival (x y : float) :
  F32.valid x = true -> F32.valid y = true ->
  F32.is_finite x = true -> F32.is_finite y = true ->
  F32.leb x y = true -> ival x <= ival y.
Proof.
  intros Hvx Hvy Hfx Hfy Hle.
  destruct (Z.le_gt_cases (ival x) (ival y)) as [|Hgt]; [assumption|exfalso].
  (* otherwise y <= x as well: the two compare equal *)
  assert (Hyx : F32.leb y x = true) by (apply ival_leb; try assumption; lia).
  unfold F32.leb, SFleb in *. rewrite compare_antisym in Hyx.
  pose proof (compare_Eq_ival x y) as HE.
  destruct (SFcompare x y) as [[| |]|]; try discriminate.
  specialize (HE eq_refl). lia.
Qed.

(** The difference and the product of two finite floats are the normal
    forms of the exact difference and of the exact product. *)
Lemma sub_exact (x y : float) :
  F32.valid x = true -> F32.valid y = true ->
  F32.is_finite x = true -> F32.is_finite y = true ->
  exists z e s, -149 <= e /\
    (x - y)%f32 = binary_normalize F32.prec F32.emax z e s /\
    z * 2 ^ (e + 149) = ival x - ival y.
Proof.
  intros Hvx Hvy Hfx Hfy. unfold F32.sub.
  destruct x as [sx|sx| |sx mx ex], y as [sy|sy| |sy my ey]; try discriminate.
  - exists 0, 0, (match sx, sy with true, false => true | _, _ => false end).
    split; [lia|]. split; [destruct sx, sy; reflexivity | reflexivity].
  - destruct (finite_as_normalize (S754_finite (negb sy) my ey)) as [z [e [s [H [E V]]]]];
      [exact Hvy | reflexivity |].
    exists z, e, s. split; [assumption|]. split; [exact E|].
    rewrite V. destruct sy; cbn [ival cond_Zopp negb]; lia.
  - destruct (finite_as_normalize (S754_finite sx mx ex)) as [z [e [s [H [E V]]]]];
      [exact Hvx | reflexivity |].
    exists z, e, s. split; [assumption|]. split; [exact E|].
    rewrite V. cbn [ival]. lia.
  - destruct (valid_finite_bounds _ _ _ Hvx) as [_ [Hbx _]].
    destruct (valid_finite_bounds _ _ _ Hvy) as [_ [Hby _]].
    cbn [SFsub]. set (ez := Z.min ex ey).
    rewrite !shl_align_val by (unfold ez; lia).
    eexists _, ez, false. split; [unfold ez; lia|]. split; [reflexivity|].
    assert (Ex : 2 ^ (ex + 149) = 2 ^ (ex - ez) * 2 ^ (ez + 149))
      by (rewrite <- Z.pow_add_r by (unfold ez; lia); f_equal; lia).
    assert (Ey : 2 ^ (ey + 149) = 2 ^ (ey - ez) * 2 ^ (ez + 149))
      by (rewrite <- Z.pow_add_r by (unfold ez; lia); f_equal; lia).
    cbn [ival]. rewrite Ex, Ey. destruct sx, sy; cbn [cond_Zopp]; lia.
Qed.

Lemma mul_exact (x y : float) :
  F32.valid x = true -> F32.valid y = true ->
  F32.is_finite x = true -> F32.is_finite y = true ->
  exists z e s, -298 <= e /\
    (x * y)%f32 = binary_normalize F32.prec F32.emax z e s /\
    z * 2 ^ (e + 298) = ival x * ival y.
Proof.
  intros Hvx Hvy Hfx Hfy. unfold F32.mul.
  destruct x as [sx|sx| |sx mx ex], y as [sy|sy| |sy my ey]; try discriminate;
    try (exists 0, 0, (xorb sx sy); split; [lia|]; split; [reflexivity|];
         cbn [ival]; lia).
  destruct (valid_finite_bounds _ _ _ Hvx) as [_ [Hbx _]].
  destruct (valid_finite_bounds _ _ _ Hvy) as [_ [Hby _]].
  cbn [SFmul].
  exists (cond_Zopp (xorb sx sy) (Zpos (mx * my))), (ex + ey), false.
  split; [lia|]. split.
  - (* no alignment is needed: the product has digits to spare *)
    pose proof (mul_shaped sx sy mx ex my ey Hvx Hvy) as Hle.
    assert (Hr : binary_round F32.prec F32.emax (xorb sx sy) (mx * my) (ex + ey)
                 = binary_round_aux F32.prec F32.emax (xorb sx sy)
                     (Zpos (mx * my)) (ex + ey) loc_Exact).
    { unfold binary_round, shl_align.
      change (fexp F32.prec F32.emax (Zpos (digits2_pos (mx * my)) + (ex + ey)))
        with (F32.fexp32 (Zdigits2 (Zpos (mx * my)) + (ex + ey))).
      destruct (F32.fexp32 (Zdigits2 (Zpos (mx * my)) + (ex + ey)) - (ex + ey))
        as [|q|q] eqn:Eq; try reflexivity. lia. }
    rewrite <- Hr. destruct (xorb sx sy); reflexivity.
  - assert (E : 2 ^ (ex + ey + 298) = 2 ^ (ex + 149) * 2 ^ (ey + 149))
      by (rewrite <- Z.pow_add_r by lia; f_equal; lia).
    cbn [ival]. rewrite E, Pos2Z.inj_mul.
    destruct sx, sy; cbn [cond_Zopp xorb]; lia.
Qed.

Lemma sub_antitone (U t1 t2 : float) :
  F32.valid U = true -> F32.valid t1 = true -> F32.valid t2 = true ->
  F32.is_finite U = true -> F32.is_finite t1 = true -> F32.is_finite t2 = true ->
  ival t1 <= ival t2 ->
  F32.leb (U - t2)%f32 (U - t1)%f32 = true.
Proof.
  intros HvU Hv1 Hv2 HfU Hf1 Hf2 Hle.
  destruct (sub_exact U t1 HvU Hv1 HfU Hf1) as [z1 [e1 [s1 [H1 [E1 V1]]]]].
  destruct (sub_exact U t2 HvU Hv2 HfU Hf2) as [z2 [e2 [s2 [H2 [E2 V2]]]]].
  rewrite E1, E2. apply (binary_normalize_mono_at _ _ _ _ (-149)); try lia.
  replace (e1 - -149) with (e1 + 149) by lia.
  replace (e2 - -149) with (e2 + 149) by lia. lia.
Qed.

Lemma mul_mono (x1 x2 D : float) :
  F32.valid x1 = true -> F32.valid x2 = true -> F32.valid D = true ->
  F32.is_finite x1 = true -> F32.is_finite x2 = true -> F32.is_finite D = true ->
  0 <= ival D -> ival x1 <= ival x2 ->
  F32.leb (x1 * D)%f32 (x2 * D)%f32 = true.
Proof.
  intros Hv1 Hv2 HvD Hf1 Hf2 HfD HD Hle.
  destruct (mul_exact x1 D Hv1 HvD Hf1 HfD) as [z1 [e1 [s1 [H1 [E1 V1]]]]].
  destruct (mul_exact x2 D Hv2 HvD Hf2 HfD) as [z2 [e2 [s2 [H2 [E2 V2]]]]].
  rewrite E1, E2. apply (binary_normalize_mono_at _ _ _ _ (-298)); try lia.
  replace (e1 - -298) with (e1 + 298) by lia.
  replace (e2 - -298) with (e2 + 298) by lia. nia.
Qed.

Lemma of_Z_mono (i j : Z) : i <= j -> F32.leb (F32.of_Z i) (F32.of_Z j) = true.
Proof.
  intros H. unfold F32.of_Z.
  apply (binary_normalize_mono_at _ _ _ _ 0); lia.
Qed.

(** ** Signs *)

Lemma normalize_nonneg (z e : Z) (s : bool) :
  0 <= z -> F32.is_nonneg (binary_normalize F32.prec F32.emax z e s) = true.
Proof.
  intros Hz. destruct z as [|p|p]; try lia; cbn [binary_normalize].
  - reflexivity.
  - pose proof (binary_round_sign false p e) as Hs.
    destruct (binary_round _ _ _ _ _); try contradiction; subst; reflexivity.
Qed.

Lemma ival_nonneg (x : float) : F32.is_nonneg x = true -> 0 <= ival x.
Proof.
  destruct x as [s|s| |s m e]; cbn [ival F32.is_nonneg]; try lia.
  intros H. destruct s; try discriminate. cbn [cond_Zopp].
  assert (0 <= 2 ^ (e + 149)) by (apply Z.pow_nonneg; lia). nia.
Qed.

Lemma sub_finite_inv (x y : float) :
  F32.is_finite (x - y)%f32 = true ->
  F32.is_finite x = true /\ F32.is_finite y = true.
Proof.
  unfold F32.sub.
  destruct x as [sx|sx| |sx mx ex], y as [sy|sy| |sy my ey];
    cbn [SFsub F32.is_finite]; try (intros; split; reflexivity);
    try discriminate.
  destruct sx, sy; discriminate.
Qed.


Lemma div_finite_inv (x y : float) :
  F32.is_finite (x / y)%f32 = true -> F32.is_finite x = true.
Proof.
  unfold F32.div.
  destruct x as [sx|sx| |sx mx ex], y as [sy|sy| |sy my ey];
    cbn [SFdiv F32.is_finite]; try reflexivity; discriminate.
Qed.

Lemma sub_nonneg (U L : float) :
  F32.valid U = true -> F32.valid L = true ->
  F32.is_finite U = true -> F32.is_finite L = true ->
  F32.leb L U = true -> F32.is_nonneg (U - L)%f32 = true.
Proof.
  intros HvU HvL HfU HfL Hle.
  destruct (sub_exact U L HvU HvL HfU HfL) as [z [e [s [He [E V]]]]].
  rewrite E. apply normalize_nonneg.
  pose proof (leb_ival L U HvL HvU HfL HfU Hle) as Hi.
  assert (0 < 2 ^ (e + 149)) by (apply Z.pow_pos_nonneg; lia). nia.
Qed.

Lemma div_count_nonneg (x : float) (k : Z) :
  F32.is_nonneg x = true -> 0 < k < 2 ^ 32 ->
  F32.is_nonneg (x / F32.of_Z k)%f32 = true.
Proof.
  intros Hx Hk. destruct (of_Z_positive k Hk) as [m2 [e2 E]]. rewrite E.
  unfold F32.div.
  destruct x as [sx|sx| |sx mx ex]; try discriminate; cbn [SFdiv];
    try reflexivity.
  - destruct sx; [discriminate | reflexivity].
  - destruct sx; [discriminate|]. cbn [xorb].
    destruct (div_core_spec mx ex m2 e2) as [q [e [l [Ec [_ [_ [Hq He]]]]]]].
    rewrite Ec.
    destruct (binary_round_aux_shaped false q e l Hq He) as [_ Hs].
    destruct (binary_round_aux _ _ _ _ _ _) as [s'|s'| |s' m' e'];
      try contradiction; try reflexivity;
      destruct Hs as [-> _]; reflexivity.
Qed.

Lemma normalize_not_nan (z e : Z) (s : bool) :
  F32.is_nan (binary_normalize F32.prec F32.emax z e s) = false.
Proof.
  destruct z as [|p|p]; cbn [binary_normalize]; try reflexivity.
  - pose proof (binary_round_sign false p e) as Hs.
    destruct (binary_round _ _ _ _ _); try contradiction; reflexivity.
  - pose proof (binary_round_sign true p e) as Hs.
    destruct (binary_round _ _ _ _ _); try contradiction; reflexivity.
Qed.

Lemma mul_nonneg (x D : float) :
  F32.valid x = true -> F32.valid D = true ->
  F32.is_finite x = true -> F32.is_finite D = true ->
  0 <= ival x -> 0 <= ival D -> F32.is_nonneg (x * D)%f32 = true.
Proof.
  intros Hvx HvD Hfx HfD Hx HD.
  destruct (mul_exact x D Hvx HvD Hfx HfD) as [z [e [s [He [E V]]]]].
  rewrite E. apply normalize_nonneg.
  assert (0 < 2 ^ (e + 298)) by (apply Z.pow_pos_nonneg; lia). nia.
Qed.

(** Subtracting more leaves less, also when the subtrahend overflowed. *)
Lemma sub_antitone_inf (U t1 t2 : float) :
  F32.valid U = true -> F32.valid t1 = true -> F32.valid t2 = true ->
  F32.is_finite U = true ->
  F32.is_nonneg t1 = true -> F32.is_nonneg t2 = true ->
  F32.leb t1 t2 = true ->
  F32.leb (U - t2)%f32 (U - t1)%f32 = true.
Proof.
  intros HvU Hv1 Hv2 HfU Hn1 Hn2 Hle.
  destruct (F32.is_finite t2) eqn:Hf2; [destruct (F32.is_finite t1) eqn:Hf1|].
  - apply sub_antitone; try assumption. apply leb_ival; assumption.
  - destruct t1 as [s1|s1| |s1 m1 e1]; try discriminate.
    destruct s1; [discriminate|].
    destruct t2 as [s2|s2| |s2 m2 e2]; try discriminate;
      destruct s2; discriminate.
  - destruct t2 as [s2|s2| |s2 m2 e2]; try discriminate.
    destruct s2; [discriminate|].
    destruct (F32.is_finite t1) eqn:Hf1.
    + destruct (sub_exact U t1 HvU Hv1 HfU Hf1) as [z [e [s [He [E V]]]]].
      pose proof (normalize_not_nan z e s) as Hnn. rewrite <- E in Hnn.
      remember (U - t1)%f32 as r eqn:Er. clear Er E V.
      destruct U as [sU|sU| |sU mU eU]; try discriminate;
        unfold F32.sub; cbn [SFsub negb];
        destruct r as [s'|s'| |s' m' e'];
        try discriminate; try reflexivity; destruct s'; reflexivity.
    + destruct t1 as [s1|s1| |s1 m1 e1]; try discriminate.
      destruct s1; [discriminate|].
      destruct U as [sU|sU| |sU mU eU]; try discriminate; reflexivity.
Qed.

(** The step is non-negative when the limits are in order. *)
Lemma DeltaAngle_nonneg (d : ULidarDescription) :
  2 <= Channels d <= uint32_max ->
  F32.valid (UpperFovLimit d) = true -> F32.valid (LowerFovLimit d) = true ->
  F32.leb (LowerFovLimit d) (UpperFovLimit d) = true ->
  F32.is_finite (DeltaAngle d) = true ->
  F32.is_finite (UpperFovLimit d) = true /\ F32.is_nonneg (DeltaAngle d) = true.
Proof.
  intros Hn HvU HvL Hle HD.
  assert (H32 : uint32_max = 2 ^ 32 - 1) by reflexivity.
  unfold DeltaAngle in *. rewrite wrap32_small in * by lia.
  destruct (sub_finite_inv _ _ (div_finite_inv _ _ HD)) as [HfU HfL].
  split; [assumption|].
  apply div_count_nonneg; [|lia]. apply sub_nonneg; assumption.
Qed.

(** The angles of the table never increase from one laser to the next,
    for limits in order and a finite step. *)
Lemma laser_angle_non_increasing (d : ULidarDescription) (i j : Z) :
  2 <= Channels d <= uint32_max ->
  F32.valid (UpperFovLimit d) = true -> F32.valid (LowerFovLimit d) = true ->
  F32.leb (LowerFovLimit d) (UpperFovLimit d) = true ->
  F32.is_finite (DeltaAngle d) = true ->
  0 <= i <= j -> j < Channels d ->
  F32.leb (laser_angle d j) (laser_angle d i) = true.
Proof.
  intros Hn HvU HvL Hle HD Hij Hj.
  assert (H32 : uint32_max = 2 ^ 32 - 1) by reflexivity.
  destruct (DeltaAngle_nonneg d Hn HvU HvL Hle HD) as [HfU HnD].
  assert (HvD : F32.valid (DeltaAngle d) = true) by apply valid_div.
  pose proof (ival_nonneg _ HnD) as HiD.
  assert (Hfi : F32.is_finite (F32.of_Z i) = true) by (apply of_Z_finite; lia).
  assert (Hfj : F32.is_finite (F32.of_Z j) = true) by (apply of_Z_finite; lia).
  assert (H0i : 0 <= ival (F32.of_Z i))
    by (apply ival_nonneg, normalize_nonneg; lia).
  assert (Hlij : ival (F32.of_Z i) <= ival (F32.of_Z j)).
  { apply leb_ival; try assumption; try apply valid_of_Z.
    apply of_Z_mono; lia. }
  unfold laser_angle. apply sub_antitone_inf; try assumption.
  - apply valid_mul; [apply valid_of_Z | assumption].
  - apply valid_mul; [apply valid_of_Z | assumption].
  - apply mul_nonneg; try assumption; try apply valid_of_Z.
  - apply mul_nonneg; try assumption; try apply valid_of_Z. lia.
  - apply mul_mono; try assumption; apply valid_of_Z.
Qed.

(* ===================================================================== *)
(** * The angle table *)
(* ===================================================================== *)

Lemma laser_table_length (d : ULidarDescription) :
  0 <= Channels d -> Z.of_nat (List.length (laser_table d)) = Channels d.
Proof.
  intros H. unfold laser_table. rewrite length_map, indices_length. lia.
Qed.

Lemma laser_table_nth (d : ULidarDescription) (i : Z) :
  0 <= i < Channels d ->
  nth (Z.to_nat i) (laser_table d) F32.NaN = laser_angle d i.
Proof.
  intros Hi. unfold laser_table.
  apply nth_error_nth. rewrite nth_error_map, indices_nth by lia.
  simpl. rewrite Z2Nat.id by lia. reflexivity.
Qed.

(** C1, as amended.  For every configuration of two channels or more
    whose step [(upper - lower) / float(channels - 1)] is finite and whose
    upper limit is not a NaN, [Set] returns and leaves a table with one
    angle per channel, whose entry 0 equals the upper limit and whose
    entry [i] is [upper - float(i) * step], for that one step.  When the
    two limits are one finite number, every entry equals it; and when the
    lower limit is at most the upper one, no angle of the table is above
    an earlier one. *)
Theorem CreateLasers_evenly_spaced (m : Machine) (d : ULidarDescription) :
  2 <= Channels d <= uint32_max ->
  F32.is_finite (DeltaAngle d) = true ->
  F32.is_nan (UpperFovLimit d) = false ->
  exists m',
    Set_ d m = Ok (tt, m') /\
    Z.of_nat (List.length (LaserAngles (Sensor m'))) = Channels d /\
    F32.eqb (nth 0 (LaserAngles (Sensor m')) F32.NaN) (UpperFovLimit d) = true /\
    DeltaAngle d
    = ((UpperFovLimit d - LowerFovLimit d) / F32.of_Z (Channels d - 1))%f32 /\
    (forall i, 0 <= i < Channels d ->
       nth (Z.to_nat i) (LaserAngles (Sensor m')) F32.NaN
       = (UpperFovLimit d - F32.of_Z i * DeltaAngle d)%f32) /\
    (LowerFovLimit d = UpperFovLimit d ->
     F32.is_finite (UpperFovLimit d) = true ->
     forall i, 0 <= i < Channels d ->
       F32.eqb (nth (Z.to_nat i) (LaserAngles (Sensor m')) F32.NaN)
               (UpperFovLimit d) = true) /\
    (F32.valid (UpperFovLimit d) = true ->
     F32.valid (LowerFovLimit d) = true ->
     F32.leb (LowerFovLimit d) (UpperFovLimit d) = true ->
     forall i j, 0 <= i <= j -> j < Channels d ->
       F32.leb (nth (Z.to_nat j) (LaserAngles (Sensor m')) F32.NaN)
               (nth (Z.to_nat i) (LaserAngles (Sensor m')) F32.NaN) = true).
Proof.
  intros Hn HD HU.
  assert (H32 : uint32_max = 2 ^ 32 - 1) by reflexivity.
  exists (mkMachine (configured_sensor (Id (Sensor m)) d) (Trace m)).
  split; [apply Set_run; lia|]. simpl.
  split; [apply laser_table_length; lia|].
  split; [|split; [|split; [|split]]].
  - change 0%nat with (Z.to_nat 0).
    rewrite (laser_table_nth d 0) by lia. unfold laser_angle.
    apply first_angle; assumption.
  - unfold DeltaAngle. rewrite wrap32_small by lia. reflexivity.
  - intros i Hi. apply laser_table_nth. assumption.
  - intros Heq Hfin i Hi. rewrite laser_table_nth by assumption.
    unfold laser_angle, DeltaAngle. rewrite Heq, wrap32_small by lia.
    apply equal_limits_angle; [assumption | lia | lia].
  - intros HvU HvL Hle i j Hij Hj.
    rewrite !laser_table_nth by lia.
    apply laser_angle_non_increasing; assumption.
Qed.

Lemma CreateLasers_evenly_spaced_witness :
  exists m',
    Set_ sample_description boot = Ok (tt, m') /\
    Z.of_nat (List.length (LaserAngles (Sensor m'))) = 32 /\
    F32.eqb (nth 0 (LaserAngles (Sensor m')) F32.NaN) (F32.of_Z 10) = true /\
    DeltaAngle sample_description
    = ((F32.of_Z 10 - F32.of_Z (-30)) / F32.of_Z (32 - 1))%f32 /\
    (forall i, 0 <= i < 32 ->
       nth (Z.to_nat i) (LaserAngles (Sensor m')) F32.NaN
       = (F32.of_Z 10 - F32.of_Z i * DeltaAngle sample_description)%f32) /\
    (forall i j, 0 <= i <= j -> j < 32 ->
       F32.leb (nth (Z.to_nat j) (LaserAngles (Sensor m')) F32.NaN)
               (nth (Z.to_nat i) (LaserAngles (Sensor m')) F32.NaN) = true).
Proof.
  destruct (CreateLasers_evenly_spaced boot sample_description)
    as [m' [Hset [Hlen [Hfirst [Hstep [Hentry [_ Horder]]]]]]].
  - unfold uint32_max; simpl; lia.
  - reflexivity.
  - reflexivity.
  - exists m'.
    exact (conj Hset (conj Hlen (conj Hfirst (conj Hstep (conj Hentry
             (Horder eq_refl eq_refl eq_refl)))))).
Defined.

(** C1, as stated, fails.  With equal limits the two angles are equal,
    not strictly decreasing; with the limits +10 and -30 on 40 channels
    the last angle is not the lower limit; and with an infinite upper
    limit the step is infinite and the first angle is a NaN. *)
Lemma CreateLasers_not_strict :
  Set_ (with_channels 2 (with_fov (F32.of_Z 10) (F32.of_Z 10) sample_description)) boot
  = Ok (tt, mkMachine
              (mkLidar 1
                 (Some (with_channels 2
                          (with_fov (F32.of_Z 10) (F32.of_Z 10) sample_description)))
                 [F32.of_Z 10; F32.of_Z 10]
                 (FLidarMeasurement_new 1 2)) []) /\
  F32.leb (F32.of_Z 10) (F32.of_Z 10) = true /\
  strictly_decreasing [F32.of_Z 10; F32.of_Z 10] = false /\
  F32.eqb (nth 39 (laser_table (with_channels 40 sample_description)) F32.NaN)
          (LowerFovLimit sample_description) = false /\
  F32.leb (F32.of_Z 0) (S754_infinity false) = true /\
  nth 0 (laser_table (with_fov (S754_infinity false) (F32.of_Z 0)
                        sample_description)) F32.zero = F32.NaN.
Proof. vm_compute. repeat split; reflexivity. Qed.

(** C2 fails on the code: one channel is accepted ([check] only asks for
    a positive count), the step divides by [float(0)], and the one angle
    of the table is a NaN, whatever the limits are. *)
Theorem CreateLasers_single_channel_NaN (m : Machine) (range : float)
  (pps : Z) (rotation upper lower : float) (debug : bool) :
  exists m',
    Set_ (mkDescription 1 range pps rotation upper lower debug) m = Ok (tt, m') /\
    LaserAngles (Sensor m') = [F32.NaN].
Proof.
  eexists. split; [apply Set_run; simpl; lia|].
  simpl. unfold laser_table, indices. simpl.
  unfold laser_angle, DeltaAngle. simpl.
  rewrite single_angle. reflexivity.
Qed.

(* ===================================================================== *)
(** * The scan budget *)
(* ===================================================================== *)



(** C4.  On a tick whose budget is zero [ReadPoints] returns without a
    failed check, leaves the sensor as it was (buffer, horizontal angle
    and frame number included), and its only effect is one warning: it
    traces no ray. *)
Theorem ReadPoints_no_scan (W : Engine) (m : Machine)
  (d : ULidarDescription) (dt : float) (n : Z) :
  Description (Sensor m) = Some d ->
  PointsToScanWithOneLaser d dt = Some n ->
  n <= 0 ->
  exists m',
    ReadPoints W dt m = Ok (tt, m') /\
    Sensor m' = Sensor m /\
    Trace m' = Trace m ++ [EvLog Warning (GetName W)] /\
    count_traces (Trace m') = count_traces (Trace m).
Proof.
  intros Hd Hn Hle.
  exists (with_events [EvLog Warning (GetName W)] m).
  split; [apply (ReadPoints_skip W d m dt n); assumption|].
  split; [reflexivity|]. split; [reflexivity|].
  unfold count_traces, with_events; simpl.
  rewrite filter_app, length_app. simpl. lia.
Qed.

(** A sensor in mid-rotation with a point in its buffer, ticked for no
    time at all. *)
Lemma ReadPoints_no_scan_witness :
  exists m',
    ReadPoints (still_engine upper_half []) F32.zero
      (mkMachine mid_sweep_sensor []) = Ok (tt, m') /\
    Sensor m' = mid_sweep_sensor /\
    Trace m' = [] ++ [EvLog Warning "Lidar"] /\
    count_traces (Trace m') = count_traces [].
Proof.
  apply (ReadPoints_no_scan (still_engine upper_half [])
           (mkMachine mid_sweep_sensor []) sample_description F32.zero 0).
  - reflexivity.
  - reflexivity.
  - lia.
Defined.

(* ===================================================================== *)
(** * The configured state is an invariant *)
(* ===================================================================== *)

Lemma Set_configures (id : Z) (d : ULidarDescription) :
  0 < Channels d -> configured (configured_sensor id d) d.
Proof.
  intros Hn. split; [reflexivity|]. simpl.
  symmetry. apply laser_table_length. lia.
Qed.

(** The two ways of a tick, with the hand-off at its end. *)
Lemma Tick_skip (W : Engine) (m : Machine) (d : ULidarDescription)
      (dt : float) (n : Z) :
  Description (Sensor m) = Some d ->
  PointsToScanWithOneLaser d dt = Some n ->
  n <= 0 ->
  Tick W dt m
  = Ok (tt, mkMachine (handed_over (Sensor m))
              (Trace m ++ [EvLog Warning (GetName W);
                           EvWriteSensorData (LidarMeasurement (Sensor m))])).
Proof.
  intros Hd Hn Hle. unfold Tick.
  rewrite (bind_Ok _ _ _ _ _ (ReadPoints_skip W d m dt n Hd Hn Hle)).
  unfold bind, get_sensor, set_LidarMeasurement, put_sensor, emit, with_events,
    handed_over; simpl.
  rewrite <- app_assoc. reflexivity.
Qed.

Lemma Tick_scan (W : Engine) (m : Machine) (d : ULidarDescription)
      (dt : float) (n : Z) :
  configured (Sensor m) d ->
  PointsToScanWithOneLaser d dt = Some n ->
  0 < n ->
  Tick W dt m
  = Ok (tt,
        mkMachine
          (handed_over
             (mkLidar (Id (Sensor m)) (Some d) (LaserAngles (Sensor m))
                      (scanned_measurement W d (Sensor m) dt n)))
          (Trace m
           ++ sweep_events W d (LaserAngles (Sensor m))
                (HorizontalAngle (LidarMeasurement (Sensor m)))
                (AngleDistanceOfTick d dt / F32.of_Z n)%f32 n
           ++ [EvWriteSensorData (scanned_measurement W d (Sensor m) dt n)])).
Proof.
  intros Hc Hn Hpos. unfold Tick.
  rewrite (bind_Ok _ _ _ _ _ (ReadPoints_scan W d m dt n Hc Hn Hpos)).
  unfold bind, get_sensor, set_LidarMeasurement, put_sensor, emit,
    handed_over; simpl.
  rewrite <- app_assoc. reflexivity.
Qed.

(** Whenever the budget of the tick is defined, [Tick] returns and the
    sensor stays configured. *)
Lemma Tick_keeps_configured (W : Engine) (m : Machine)
      (d : ULidarDescription) (dt : float) (n : Z) :
  configured (Sensor m) d ->
  PointsToScanWithOneLaser d dt = Some n ->
  exists m', Tick W dt m = Ok (tt, m') /\ configured (Sensor m') d.
Proof.
  intros Hc Hn. unfold Tick.
  destruct (Z.le_gt_cases n 0) as [Hle|Hgt].
  - eexists. destruct Hc as [Hd Hlen].
    rewrite (bind_Ok _ _ _ _ _ (ReadPoints_skip W d m dt n Hd Hn Hle)).
    split; [reflexivity|]. split; assumption.
  - eexists.
    rewrite (bind_Ok _ _ _ _ _ (ReadPoints_scan W d m dt n Hc Hn Hgt)).
    split; [reflexivity|]. destruct Hc as [Hd Hlen]. split; [reflexivity|].
    exact Hlen.
Qed.

(* ===================================================================== *)
(** * The scan state after a sweep *)
(* ===================================================================== *)

(** C5, as amended.  After every completed sweep the horizontal angle is
    [fmod(current + rotationFrequency * 360 * dt, 360)] in single
    precision.  When the operands are values of the format and the sum is
    finite, its magnitude is below 360, and it lies in [0, 360) whenever
    the sum is not negative. *)
Theorem ReadPoints_horizontal_angle (W : Engine) (m : Machine)
  (d : ULidarDescription) (dt : float) (n : Z) :
  configured (Sensor m) d ->
  PointsToScanWithOneLaser d dt = Some n ->
  0 < n ->
  F32.valid (HorizontalAngle (LidarMeasurement (Sensor m))) = true ->
  F32.valid (RotationFrequency d) = true ->
  F32.valid dt = true ->
  F32.is_finite (HorizontalAngle (LidarMeasurement (Sensor m))
                 + RotationFrequency d * F32.of_Z 360 * dt)%f32 = true ->
  exists m',
    ReadPoints W dt m = Ok (tt, m') /\
    HorizontalAngle (LidarMeasurement (Sensor m'))
    = F32.fmod (HorizontalAngle (LidarMeasurement (Sensor m))
                + RotationFrequency d * F32.of_Z 360 * dt)%f32 (F32.of_Z 360) /\
    F32.valid (HorizontalAngle (LidarMeasurement (Sensor m'))) = true /\
    F32.ltb (F32.abs (HorizontalAngle (LidarMeasurement (Sensor m'))))
            (F32.of_Z 360) = true /\
    (F32.is_nonneg (HorizontalAngle (LidarMeasurement (Sensor m))
                    + RotationFrequency d * F32.of_Z 360 * dt)%f32 = true ->
     in_0_360 (HorizontalAngle (LidarMeasurement (Sensor m'))) = true).
Proof.
  intros Hc Hn Hpos Hvc Hvr Hvd Hfin.
  eexists. split; [apply (ReadPoints_scan W d m dt n); assumption|].
  simpl. unfold next_angle, AngleDistanceOfTick.
  set (sum := (HorizontalAngle (LidarMeasurement (Sensor m))
               + RotationFrequency d * F32.of_Z 360 * dt)%f32) in *.
  assert (Hvs : F32.valid sum = true).
  { unfold sum. auto with f32_valid. }
  destruct (fmod_360_range sum Hvs Hfin) as [Hv [Hf [Hs Hlt]]].
  split; [reflexivity|]. split; [exact Hv|]. split; [exact Hlt|].
  intros Hnn. rewrite Hnn in Hs.
  apply nonneg_in_range; assumption.
Qed.

(** From 350 degrees, a sweep of 30 degrees (one revolution per second
    during 1/12 s) ends at 20 degrees. *)
Lemma ReadPoints_horizontal_angle_witness :
  AngleDistanceOfTick slow_description one_twelfth = F32.of_Z 30 /\
  exists m',
    ReadPoints (still_engine upper_half []) one_twelfth
      (mkMachine (mid_sweep slow_description) []) = Ok (tt, m') /\
    HorizontalAngle (LidarMeasurement (Sensor m')) = F32.of_Z 20 /\
    F32.valid (HorizontalAngle (LidarMeasurement (Sensor m'))) = true /\
    F32.ltb (F32.abs (HorizontalAngle (LidarMeasurement (Sensor m'))))
            (F32.of_Z 360) = true /\
    (true = true ->
     in_0_360 (HorizontalAngle (LidarMeasurement (Sensor m'))) = true).
Proof.
  split; [reflexivity|].
  apply (ReadPoints_horizontal_angle (still_engine upper_half [])
           (mkMachine (mid_sweep slow_description) []) slow_description
           one_twelfth 146).
  - split; reflexivity.
  - reflexivity.
  - lia.
  - reflexivity.
  - reflexivity.
  - reflexivity.
  - reflexivity.
Defined.

(** C5, as stated, fails: a sensor at 0 degrees turning backwards at ten
    revolutions per second is at -180 degrees after 1/20 s, which is not
    in [0, 360). *)
Lemma ReadPoints_negative_angle :
  exists m',
    ReadPoints (still_engine upper_half []) one_twentieth
      (mkMachine (configured_sensor 1 backwards_description) []) = Ok (tt, m') /\
    HorizontalAngle (LidarMeasurement (Sensor m')) = F32.of_Z (-180) /\
    in_0_360 (HorizontalAngle (LidarMeasurement (Sensor m'))) = false.
Proof.
  eexists. split; [vm_compute; reflexivity|]. split; reflexivity.
Qed.

(* ===================================================================== *)
(** * The point buffer of a sweep *)
(* ===================================================================== *)

Lemma sweep_rays_length (d : ULidarDescription) (n : Z) :
  0 <= Channels d -> 0 <= n ->
  Z.of_nat (List.length (sweep_rays d n)) = Channels d * n.
Proof.
  intros Hc Hn. unfold sweep_rays.
  assert (H : forall l : list Z,
             List.length (flat_map (fun c => map (pair c) (indices n)) l)
             = (List.length l * Z.to_nat n)%nat).
  { induction l as [|c l IH]; simpl; [reflexivity|].
    rewrite length_app, length_map, indices_length, IH. reflexivity. }
  rewrite H, indices_length. lia.
Qed.

Lemma flat_map_short {A B} (f : A -> list B) (l : list A) :
  (forall x, (List.length (f x) <= 1)%nat) ->
  (List.length (flat_map f l) <= List.length l)%nat.
Proof.
  intros Hf. induction l as [|x l IH]; simpl; [lia|].
  rewrite length_app. specialize (Hf x). lia.
Qed.

Lemma count_traces_app (t u : list Event) :
  count_traces (t ++ u) = (count_traces t + count_traces u)%nat.
Proof. unfold count_traces. rewrite filter_app, length_app. reflexivity. Qed.

Lemma count_traces_rays {A} (E : A -> list Event) (l : list A) :
  (forall x, count_traces (E x) = 1%nat) ->
  count_traces (flat_map E l) = List.length l.
Proof.
  intros HE. induction l as [|x l IH]; simpl; [reflexivity|].
  rewrite count_traces_app, HE, IH. reflexivity.
Qed.

Lemma ray_events_one_trace W d va ha : count_traces (ray_events W d va ha) = 1%nat.
Proof.
  unfold ray_events, count_traces. simpl.
  destruct (bBlockingHit _ && ShowDebugPoints d); reflexivity.
Qed.

Lemma ray_points_short W d angles cur step r :
  (List.length (ray_points W d angles cur step r) <= 1)%nat.
Proof. unfold ray_points. destruct (ray_result _ _ _ _); simpl; lia. Qed.

(** C6.  A scanning tick traces [channels * pointsPerLaser] rays; its
    buffer holds, in order, the points of the rays that hit and nothing
    for a ray that missed, so that it holds at most
    [channels * pointsPerLaser] points. *)
Theorem ReadPoints_buffer (W : Engine) (m : Machine)
  (d : ULidarDescription) (dt : float) (n : Z) :
  configured (Sensor m) d ->
  PointsToScanWithOneLaser d dt = Some n ->
  0 < n ->
  exists m',
    ReadPoints W dt m = Ok (tt, m') /\
    let angles := LaserAngles (Sensor m) in
    let cur := HorizontalAngle (LidarMeasurement (Sensor m)) in
    let step := (RotationFrequency d * F32.of_Z 360 * dt / F32.of_Z n)%f32 in
    Points (LidarMeasurement (Sensor m'))
    = flat_map (ray_points W d angles cur step) (sweep_rays d n) /\
    (forall c i,
        bBlockingHit (ray_hit W d (ray_vertical angles c)
                                  (ray_horizontal cur step i)) = false ->
        ray_points W d angles cur step (c, i) = []) /\
    Z.of_nat (count_traces (Trace m'))
    = Z.of_nat (count_traces (Trace m)) + Channels d * n /\
    Z.of_nat (List.length (Points (LidarMeasurement (Sensor m'))))
    <= Channels d * n.
Proof.
  intros Hc Hn Hpos.
  assert (Hch : 0 <= Channels d) by (destruct Hc as [_ Hc]; rewrite Hc; lia).
  eexists. split; [apply (ReadPoints_scan W d m dt n); assumption|].
  simpl. split; [reflexivity|]. split; [|split].
  - intros c i Hmiss. unfold ray_points, ray_result; simpl.
    rewrite Hmiss. reflexivity.
  - rewrite count_traces_app. unfold sweep_events.
    rewrite count_traces_rays by (intros; apply ray_events_one_trace).
    rewrite Nat2Z.inj_add, sweep_rays_length by lia. reflexivity.
  - unfold sweep_points.
    pose proof (flat_map_short
                  (ray_points W d (LaserAngles (Sensor m))
                     (HorizontalAngle (LidarMeasurement (Sensor m)))
                     (AngleDistanceOfTick d dt / F32.of_Z n)%f32)
                  (sweep_rays d n)
                  (ray_points_short W d _ _ _)) as Hle.
    rewrite <- (sweep_rays_length d n) by lia. lia.
Qed.

(** Two channels, one ray each in 1/20 s; the upper one hits, the lower
    one misses: one point. *)
Lemma ReadPoints_buffer_witness :
  exists m',
    ReadPoints (still_engine upper_half []) one_twentieth
      (mkMachine (configured_sensor 1 small_description) []) = Ok (tt, m') /\
    let angles := laser_table small_description in
    let cur := F32.zero in
    let step := (F32.of_Z 10 * F32.of_Z 360 * one_twentieth / F32.of_Z 1)%f32 in
    Points (LidarMeasurement (Sensor m'))
    = flat_map (ray_points (still_engine upper_half []) small_description
                  angles cur step) (sweep_rays small_description 1) /\
    (forall c i,
        bBlockingHit (ray_hit (still_engine upper_half []) small_description
                        (ray_vertical angles c) (ray_horizontal cur step i))
        = false ->
        ray_points (still_engine upper_half []) small_description
          angles cur step (c, i) = []) /\
    Z.of_nat (count_traces (Trace m')) = Z.of_nat (count_traces []) + 2 * 1 /\
    Z.of_nat (List.length (Points (LidarMeasurement (Sensor m')))) <= 2 * 1.
Proof.
  apply (ReadPoints_buffer (still_engine upper_half [])
           (mkMachine (configured_sensor 1 small_description) [])
           small_description one_twentieth 1).
  - split; reflexivity.
  - reflexivity.
  - lia.
Defined.

(* ===================================================================== *)
(** * The budget of a tick, as [ReadPoints] spends it *)
(* ===================================================================== *)




(* ===================================================================== *)
(** * The label of a hit *)
(* ===================================================================== *)

Lemma resolve_label_component (ct : ECityObjectLabel) (ts : list ECityObjectLabel) :
  is_None ct = false -> resolve_label ct ts = ct.
Proof. intros H. unfold resolve_label. rewrite H. reflexivity. Qed.

Lemma resolve_label_first (ct t : ECityObjectLabel)
      (before after : list ECityObjectLabel) :
  is_None ct = true ->
  Forall (fun u => is_None u = true) before ->
  is_None t = false ->
  resolve_label ct (before ++ t :: after) = t.
Proof.
  intros Hct Hb Ht. unfold resolve_label. rewrite Hct.
  induction Hb as [|u before Hu _ IH]; simpl.
  - rewrite Ht. reflexivity.
  - rewrite Hu. simpl. exact IH.
Qed.

Lemma resolve_label_none (ct : ECityObjectLabel) (ts : list ECityObjectLabel) :
  is_None ct = true ->
  Forall (fun u => is_None u = true) ts ->
  resolve_label ct ts = None_.
Proof.
  intros Hct Hts. unfold resolve_label. rewrite Hct.
  induction Hts as [|u ts Hu _ IH]; simpl; [reflexivity|].
  rewrite Hu. simpl. exact IH.
Qed.

(** C7.  A ray that hits returns a point whose fourth component is the
    code of the label resolved as the spec words it: the tag of the
    struck component unless it is none, else the first tag of the struck
    actor that is not none, else none. *)
Theorem ShootLaser_label (W : Engine) (m : Machine) (d : ULidarDescription)
  (c : Z) (va ha : float) :
  Description (Sensor m) = Some d ->
  nth_error (LaserAngles (Sensor m)) (Z.to_nat c) = Some va ->
  bBlockingHit (ray_hit W d va ha) = true ->
  exists p m',
    ShootLaser W c ha m = Ok (Some p, m') /\
    W4 p = F32.of_Z
             (CastEnum
                (resolve_label
                   (GetTagOfTaggedComponent W (HitComponent (ray_hit W d va ha)))
                   (GetTagsOfTaggedActor W (HitActor (ray_hit W d va ha))))).
Proof.
  intros Hd Hva Hhit.
  exists (hit_point W (ray_hit W d va ha)), (with_events (ray_events W d va ha) m).
  split; [|reflexivity].
  rewrite (ShootLaser_run W d m c va ha Hd Hva).
  unfold ray_result. rewrite Hhit. reflexivity.
Qed.

(** A component without tag on an actor tagged [none, Vehicle]: the
    label is Vehicle. *)
Lemma ShootLaser_label_witness :
  resolve_label None_ [None_; Vehicles] = Vehicles /\
  exists p m',
    ShootLaser (still_engine upper_half [None_; Vehicles]) 0 F32.zero
      (mkMachine mid_sweep_sensor []) = Ok (Some p, m') /\
    W4 p = F32.of_Z (CastEnum Vehicles).
Proof.
  split; [reflexivity|].
  apply (ShootLaser_label (still_engine upper_half [None_; Vehicles])
           (mkMachine mid_sweep_sensor []) sample_description 0
           (F32.of_Z 10) F32.zero).
  - reflexivity.
  - reflexivity.
  - reflexivity.
Defined.

(* ===================================================================== *)
(** * Configuration *)
(* ===================================================================== *)

(** C8, as amended.  [Set] rejects a configuration only for its channel
    count: with no channel the check of [CreateLasers] fails and no table
    is built; with one channel or more [Set] returns, whatever the limits,
    the range and the points per second are, and the table has one angle
    per channel (it is not empty). *)
Theorem Set_rejects_only_zero_channels (m : Machine) (d : ULidarDescription) :
  (Channels d <= 0 -> Set_ d m = CheckFailed "NumberOfLasers > 0u") /\
  (0 < Channels d ->
   exists m',
     Set_ d m = Ok (tt, m') /\
     Description (Sensor m') = Some d /\
     Z.of_nat (List.length (LaserAngles (Sensor m'))) = Channels d /\
     LaserAngles (Sensor m') <> []).
Proof.
  split.
  - apply Set_rejects.
  - intros Hn. eexists. split; [apply Set_run; assumption|]. simpl.
    split; [reflexivity|].
    pose proof (laser_table_length d (Z.lt_le_incl _ _ Hn)) as Hlen.
    split; [assumption|].
    intros E. rewrite E in Hlen. simpl in Hlen. lia.
Qed.

Lemma Set_rejects_only_zero_channels_witness :
  Set_ (with_channels 0 sample_description) boot
  = CheckFailed "NumberOfLasers > 0u" /\
  exists m',
    Set_ sample_description boot = Ok (tt, m') /\
    Description (Sensor m') = Some sample_description /\
    Z.of_nat (List.length (LaserAngles (Sensor m'))) = 32 /\
    LaserAngles (Sensor m') <> [].
Proof.
  split.
  - apply (proj1 (Set_rejects_only_zero_channels boot
                    (with_channels 0 sample_description))).
    simpl. lia.
  - apply (proj2 (Set_rejects_only_zero_channels boot sample_description)).
    simpl. lia.
Defined.

(** C8, as stated, fails: limits the wrong way round are accepted, and so
    are a null range with no points per second. *)
Lemma Set_accepts_invalid :
  F32.ltb (UpperFovLimit inverted_description)
          (LowerFovLimit inverted_description) = true /\
  Set_ inverted_description boot
  = Ok (tt, mkMachine (configured_sensor 1 inverted_description) []) /\
  F32.leb (Range null_description) F32.zero = true /\
  PointsPerSecond null_description = 0 /\
  Set_ null_description boot
  = Ok (tt, mkMachine (configured_sensor 1 null_description) []).
Proof.
  split; [reflexivity|].
  split; [apply (Set_run boot inverted_description); simpl; lia|].
  split; [reflexivity|]. split; [reflexivity|].
  apply (Set_run boot null_description); simpl; lia.
Qed.

(** C10.  [Set] replaces the measurement by a new one: the horizontal
    angle and the frame number are back to 0 and the buffer is empty,
    whatever they were; the table is rebuilt from the new description. *)
Theorem Set_resets_scan_state (m : Machine) (d : ULidarDescription) :
  0 < Channels d ->
  exists m',
    Set_ d m = Ok (tt, m') /\
    LidarMeasurement (Sensor m')
    = FLidarMeasurement_new (Id (Sensor m)) (Channels d) /\
    HorizontalAngle (LidarMeasurement (Sensor m')) = F32.zero /\
    FrameNumber (LidarMeasurement (Sensor m')) = 0 /\
    Points (LidarMeasurement (Sensor m')) = [] /\
    LaserAngles (Sensor m') = laser_table d.
Proof.
  intros Hn. eexists. split; [apply Set_run; assumption|].
  simpl. repeat split.
Qed.

(** A sensor at 350 degrees, frame 5, with a point in its buffer, is
    configured again. *)
Lemma Set_resets_scan_state_witness :
  HorizontalAngle (LidarMeasurement mid_sweep_sensor) = F32.of_Z 350 /\
  exists m',
    Set_ small_description (mkMachine mid_sweep_sensor []) = Ok (tt, m') /\
    LidarMeasurement (Sensor m') = FLidarMeasurement_new 1 2 /\
    HorizontalAngle (LidarMeasurement (Sensor m')) = F32.zero /\
    FrameNumber (LidarMeasurement (Sensor m')) = 0 /\
    Points (LidarMeasurement (Sensor m')) = [] /\
    LaserAngles (Sensor m') = laser_table small_description.
Proof.
  split; [reflexivity|].
  apply (Set_resets_scan_state (mkMachine mid_sweep_sensor []) small_description).
  simpl. lia.
Defined.

(* ===================================================================== *)
(** * How ReadPoints can end *)
(* ===================================================================== *)

Lemma ReadPoints_null (W : Engine) (m : Machine) (dt : float) :
  Description (Sensor m) = None ->
  ReadPoints W dt m = Undefined "Description is null".
Proof.
  intros Hd. unfold ReadPoints, deref_Description, get_sensor.
  unfold bind; simpl. rewrite Hd. reflexivity.
Qed.

Lemma ReadPoints_mismatch (W : Engine) (m : Machine) (d : ULidarDescription)
      (dt : float) (n : Z) :
  Description (Sensor m) = Some d ->
  PointsToScanWithOneLaser d dt = Some n -> 0 < n ->
  Channels d <> Z.of_nat (List.length (LaserAngles (Sensor m))) ->
  ReadPoints W dt m = CheckFailed "ChannelCount == LaserAngles.Num()".
Proof.
  intros Hd Hn Hpos Hne. unfold ReadPoints, deref_Description, get_sensor.
  step. step. rewrite Hd; simpl. rewrite Hn.
  destruct (Z.leb_spec n 0); [lia|].
  step. unfold bind at 1, check; simpl.
  destruct (Z.eqb_spec (Channels d) (Z.of_nat (List.length (LaserAngles (Sensor m)))));
    [contradiction | reflexivity].
Qed.

(** X1.  [ReadPoints] reads [Description->Channels] before it checks the
    pointer: on a sensor without description it has no defined behaviour,
    whatever the tick is, and [check(Description != nullptr)] comes too
    late to fail.  The only check of [ReadPoints] and of the rays it
    shoots that can fail is the one on the size of the angle table, on a
    tick that was to scan: the index of [LaserAngles] in [ShootLaser] is
    always within bounds. *)
Theorem ReadPoints_only_check (W : Engine) (m : Machine) (dt : float) :
  (Description (Sensor m) = None ->
   ReadPoints W dt m = Undefined "Description is null") /\
  (forall w, ReadPoints W dt m = CheckFailed w ->
     w = "ChannelCount == LaserAngles.Num()"%string /\
     exists d n,
       Description (Sensor m) = Some d /\
       PointsToScanWithOneLaser d dt = Some n /\ 0 < n /\
       Channels d <> Z.of_nat (List.length (LaserAngles (Sensor m)))).
Proof.
  split; [apply ReadPoints_null|].
  intros w Hw.
  destruct (Description (Sensor m)) as [d|] eqn:Hd;
    [|rewrite (ReadPoints_null W m dt Hd) in Hw; discriminate].
  destruct (PointsToScanWithOneLaser d dt) as [n|] eqn:Hn.
  - destruct (Z.le_gt_cases n 0) as [Hle|Hgt].
    + rewrite (ReadPoints_skip W d m dt n Hd Hn Hle) in Hw. discriminate.
    + destruct (Z.eq_dec (Channels d)
                  (Z.of_nat (List.length (LaserAngles (Sensor m))))) as [He|Hne].
      * rewrite (ReadPoints_scan W d m dt n (conj Hd He) Hn Hgt) in Hw.
        discriminate.
      * rewrite (ReadPoints_mismatch W m d dt n Hd Hn Hgt Hne) in Hw.
        injection Hw as <-. split; [reflexivity|].
        exists d, n. repeat split; assumption.
  - exfalso. revert Hw. unfold ReadPoints, deref_Description, get_sensor.
    unfold bind; simpl. rewrite Hd; simpl. rewrite Hn. discriminate.
Qed.

Lemma ReadPoints_only_check_witness :
  ReadPoints (still_engine upper_half []) one_twentieth boot
  = Undefined "Description is null" /\
  ReadPoints (still_engine upper_half []) one_twentieth
    (mkMachine stale_sensor [])
  = CheckFailed "ChannelCount == LaserAngles.Num()" /\
  exists d n,
    Description stale_sensor = Some d /\
    PointsToScanWithOneLaser d one_twentieth = Some n /\ 0 < n /\
    Channels d <> 32.
Proof.
  split.
  - apply (proj1 (ReadPoints_only_check (still_engine upper_half [])
                    boot one_twentieth)). reflexivity.
  - split; [reflexivity|].
    apply (proj2 (ReadPoints_only_check (still_engine upper_half [])
                    (mkMachine stale_sensor []) one_twentieth)
             "ChannelCount == LaserAngles.Num()"%string).
    reflexivity.
Defined.

(* ===================================================================== *)
(** * Ticks that do not scan *)
(* ===================================================================== *)

Lemma budget_of_zero (s : bool) (k : Z) :
  0 < k < 2 ^ 32 ->
  F32.to_uint32 (RoundHalfFromZero (S754_zero s / F32.of_Z k)%f32) = Some 0.
Proof.
  intros Hk. destruct (of_Z_positive k Hk) as [m [e ->]]. reflexivity.
Qed.

(** X2.  Without points per second, or in a tick that lasts no time, the
    budget is 0 for every finite [DeltaTime]: [ReadPoints] warns and
    leaves the sensor as it is. *)
Theorem ReadPoints_idle (W : Engine) (m : Machine) (d : ULidarDescription)
  (dt : float) :
  Description (Sensor m) = Some d ->
  0 < Channels d <= uint32_max ->
  0 <= PointsPerSecond d <= uint32_max ->
  F32.is_finite dt = true ->
  PointsPerSecond d = 0 \/ F32.eqb dt F32.zero = true ->
  PointsToScanWithOneLaser d dt = Some 0 /\
  ReadPoints W dt m = Ok (tt, with_events [EvLog Warning (GetName W)] m).
Proof.
  intros Hd Hc Hp Hf Hz.
  assert (H32 : uint32_max = 2 ^ 32 - 1) by reflexivity.
  assert (Hb : PointsToScanWithOneLaser d dt = Some 0).
  { unfold PointsToScanWithOneLaser.
    assert (Hprod : exists s, (F32.of_Z (PointsPerSecond d) * dt)%f32 = S754_zero s).
    { destruct Hz as [Hz|Hz].
      - rewrite Hz. change (F32.of_Z 0) with (S754_zero false).
        destruct dt as [s|s| |s mt et]; try discriminate;
          eexists; reflexivity.
      - pose proof (of_Z_finite (PointsPerSecond d)) as Hfp.
        destruct (F32.of_Z (PointsPerSecond d)) as [sp|sp| |sp mp ep];
          try (specialize (Hfp ltac:(lia)); discriminate);
          destruct dt as [s|s| |s mt et]; try discriminate;
          try (destruct s; discriminate); eexists; reflexivity. }
    destruct Hprod as [s ->]. apply budget_of_zero. lia. }
  split; [exact Hb|].
  apply (ReadPoints_skip W d m dt 0 Hd Hb). lia.
Qed.

Lemma ReadPoints_idle_witness :
  PointsToScanWithOneLaser null_description one_twentieth = Some 0 /\
  ReadPoints (still_engine upper_half []) one_twentieth
    (mkMachine (mid_sweep null_description) [])
  = Ok (tt, with_events [EvLog Warning "Lidar"]
              (mkMachine (mid_sweep null_description) [])).
Proof.
  apply (ReadPoints_idle (still_engine upper_half [])
           (mkMachine (mid_sweep null_description) []) null_description
           one_twentieth).
  - reflexivity.
  - unfold uint32_max; simpl; lia.
  - unfold uint32_max; simpl; lia.
  - reflexivity.
  - left; reflexivity.
Defined.

(** X3.  A tick that does not scan still serves the sink: after the
    warning it calls [WriteSensorData] once, with a view whose horizontal
    angle and frame number are the ones the last sweep left (they do not
    advance); the description, the table and the scan state of the sensor
    are unchanged. *)
Theorem Tick_no_scan_serves_sink (W : Engine) (m : Machine)
  (d : ULidarDescription) (dt : float) (n : Z) :
  Description (Sensor m) = Some d ->
  PointsToScanWithOneLaser d dt = Some n ->
  n <= 0 ->
  exists m' view,
    Tick W dt m = Ok (tt, m') /\
    Trace m' = Trace m ++ [EvLog Warning (GetName W); EvWriteSensorData view] /\
    HorizontalAngle view = HorizontalAngle (LidarMeasurement (Sensor m)) /\
    FrameNumber view = FrameNumber (LidarMeasurement (Sensor m)) /\
    Description (Sensor m') = Description (Sensor m) /\
    LaserAngles (Sensor m') = LaserAngles (Sensor m) /\
    HorizontalAngle (LidarMeasurement (Sensor m'))
    = HorizontalAngle (LidarMeasurement (Sensor m)) /\
    FrameNumber (LidarMeasurement (Sensor m'))
    = FrameNumber (LidarMeasurement (Sensor m)).
Proof.
  intros Hd Hn Hle. eexists. exists (LidarMeasurement (Sensor m)).
  split; [apply (Tick_skip W m d dt n); assumption|].
  repeat split.
Qed.

Lemma Tick_no_scan_serves_sink_witness :
  exists m' view,
    Tick (still_engine upper_half []) F32.zero
      (mkMachine mid_sweep_sensor []) = Ok (tt, m') /\
    Trace m' = [] ++ [EvLog Warning "Lidar"; EvWriteSensorData view] /\
    HorizontalAngle view = F32.of_Z 350 /\
    FrameNumber view = 5 /\
    Description (Sensor m') = Some sample_description /\
    LaserAngles (Sensor m') = laser_table sample_description /\
    HorizontalAngle (LidarMeasurement (Sensor m')) = F32.of_Z 350 /\
    FrameNumber (LidarMeasurement (Sensor m')) = 5.
Proof.
  apply (Tick_no_scan_serves_sink (still_engine upper_half [])
           (mkMachine mid_sweep_sensor []) sample_description F32.zero 0).
  - reflexivity.
  - reflexivity.
  - lia.
Defined.

(* ===================================================================== *)
(** * One ray *)
(* ===================================================================== *)

(** X4.  [ShootLaser] is a [const] method: it leaves the sensor as it is.  It
    traces exactly one ray, from the location of the sensor; it returns a
    point exactly when the trace reports a blocking hit, and the position
    of that point is the vector from the impact to the sensor (sensor
    minus impact), turned about the vertical axis by [-yaw + 90] degrees.
    The only other effect is the debug point at the impact, drawn for a
    hit of a sensor in debug mode. *)
Theorem ShootLaser_frame (W : Engine) (m : Machine) (d : ULidarDescription)
  (c : Z) (va ha : float) :
  Description (Sensor m) = Some d ->
  nth_error (LaserAngles (Sensor m)) (Z.to_nat c) = Some va ->
  exists r m' stop,
    ShootLaser W c ha m = Ok (r, m') /\
    Sensor m' = Sensor m /\
    stop = vadd (vscale (Range d)
                   (GetForwardVector W
                      (ComposeRotators W (mkRotator va ha (F32.of_Z 0))
                         (GetActorRotation W))))
                (GetActorLocation W) /\
    let hit := LineTraceSingleByChannel W (GetActorLocation W) stop in
    Trace m' = Trace m ++ EvLineTrace (GetActorLocation W) stop
                 :: (if bBlockingHit hit && ShowDebugPoints d
                     then [EvDrawDebugPoint (ImpactPoint hit)] else []) /\
    (bBlockingHit hit = false -> r = None) /\
    (bBlockingHit hit = true ->
     exists p, r = Some p /\
       mkVector (X4 p) (Y4 p) (Z4 p)
       = RotateAngleAxis W (vsub (GetActorLocation W) (ImpactPoint hit))
           (- Yaw (GetActorRotation W) + F32.of_Z 90)%f32
           (mkVector (F32.of_Z 0) (F32.of_Z 0) (F32.of_Z 1))).
Proof.
  intros Hd Hva.
  exists (ray_result W d va ha), (with_events (ray_events W d va ha) m),
         (ray_end W d va ha).
  split; [apply ShootLaser_run; assumption|].
  split; [reflexivity|]. split; [reflexivity|]. cbv zeta.
  fold (ray_hit W d va ha). split; [reflexivity|].
  unfold ray_result. split; intros Hhit; rewrite Hhit; [reflexivity|].
  eexists. split; [reflexivity|].
  unfold hit_point, hit_position; simpl.
  destruct (RotateAngleAxis W _ _ _); reflexivity.
Qed.

Lemma ShootLaser_frame_witness :
  exists r m',
    ShootLaser (still_engine upper_half []) 0 (F32.of_Z 45)
      (mkMachine mid_sweep_sensor []) = Ok (r, m') /\
    Sensor m' = mid_sweep_sensor /\
    Trace m'
    = [EvLineTrace (mkVector F32.zero F32.zero F32.zero)
         (mkVector (F32.of_Z 225000) (F32.of_Z 50000) (F32.of_Z 5000))] /\
    exists p, r = Some p /\
      mkVector (X4 p) (Y4 p) (Z4 p)
      = mkVector (F32.of_Z (-225000)) (F32.of_Z (-50000)) (F32.of_Z (-5000)).
Proof.
  destruct (ShootLaser_frame (still_engine upper_half [])
              (mkMachine mid_sweep_sensor []) sample_description 0
              (F32.of_Z 10) (F32.of_Z 45) eq_refl eq_refl)
    as [r [m' [stop [Hrun [Hsensor [Hstop Hrest]]]]]].
  subst stop. destruct Hrest as [Htrace [_ Hhit]].
  exists r, m'.
  split; [exact Hrun|]. split; [exact Hsensor|]. split; [exact Htrace|].
  exact (Hhit eq_refl).
Defined.

(* ===================================================================== *)
(** * A sensor through its frames *)
(* ===================================================================== *)

Lemma count_writes_app (t u : list Event) :
  count_writes (t ++ u) = (count_writes t + count_writes u)%nat.
Proof. unfold count_writes. rewrite filter_app, length_app. reflexivity. Qed.

Lemma count_writes_rays {A} (E : A -> list Event) (l : list A) :
  (forall x, count_writes (E x) = 0%nat) ->
  count_writes (flat_map E l) = 0%nat.
Proof.
  intros HE. induction l as [|x l IH]; simpl; [reflexivity|].
  rewrite count_writes_app, HE, IH. reflexivity.
Qed.

Lemma ray_events_no_write W d va ha : count_writes (ray_events W d va ha) = 0%nat.
Proof.
  unfold ray_events, count_writes. simpl.
  destruct (bBlockingHit _ && ShowDebugPoints d); reflexivity.
Qed.

(** One tick of a configured sensor: description, table and identity
    stay; the sink is served once, last; the frame number is the one it
    was or the one of this frame. *)
Lemma Tick_step (W : Engine) (m : Machine) (d : ULidarDescription)
      (dt : float) (n : Z) :
  configured (Sensor m) d ->
  PointsToScanWithOneLaser d dt = Some n ->
  exists m',
    Tick W dt m = Ok (tt, m') /\
    configured (Sensor m') d /\
    LaserAngles (Sensor m') = LaserAngles (Sensor m) /\
    Id (Sensor m') = Id (Sensor m) /\
    count_writes (Trace m') = S (count_writes (Trace m)) /\
    (FrameNumber (LidarMeasurement (Sensor m'))
     = FrameNumber (LidarMeasurement (Sensor m)) \/
     FrameNumber (LidarMeasurement (Sensor m')) = GFrameCounter W).
Proof.
  intros Hc Hn. unfold Tick.
  destruct (Z.le_gt_cases n 0) as [Hle|Hgt].
  - eexists. destruct Hc as [Hd Hlen].
    rewrite (bind_Ok _ _ _ _ _ (ReadPoints_skip W d m dt n Hd Hn Hle)).
    split; [reflexivity|]. simpl.
    split; [split; assumption|]. split; [reflexivity|]. split; [reflexivity|].
    split; [|left; reflexivity].
    rewrite !count_writes_app. unfold count_writes; simpl. lia.
  - eexists.
    rewrite (bind_Ok _ _ _ _ _ (ReadPoints_scan W d m dt n Hc Hn Hgt)).
    split; [reflexivity|]. simpl. destruct Hc as [Hd Hlen].
    split; [split; [reflexivity | exact Hlen]|].
    split; [reflexivity|]. split; [reflexivity|].
    split; [|right; reflexivity].
    rewrite !count_writes_app. unfold sweep_events.
    rewrite count_writes_rays by (intros; apply ray_events_no_write).
    unfold count_writes; simpl. lia.
Qed.

Lemma Ticks_run (d : ULidarDescription) (frames : list (Engine * float)) :
  Forall (fun f => PointsToScanWithOneLaser d (snd f) <> None) frames ->
  forall m, configured (Sensor m) d ->
  exists m',
    Ticks frames m = Ok (tt, m') /\
    configured (Sensor m') d /\
    LaserAngles (Sensor m') = LaserAngles (Sensor m) /\
    Id (Sensor m') = Id (Sensor m) /\
    count_writes (Trace m') = (count_writes (Trace m) + List.length frames)%nat /\
    In (FrameNumber (LidarMeasurement (Sensor m')))
       (FrameNumber (LidarMeasurement (Sensor m))
        :: map (fun f => GFrameCounter (fst f)) frames).
Proof.
  induction 1 as [|[W dt] frames Hb _ IH]; intros m Hc.
  - exists m. destruct Hc as [Hd Hlen]. simpl.
    split; [reflexivity|]. split; [split; assumption|].
    split; [reflexivity|]. split; [reflexivity|].
    split; [lia | left; reflexivity].
  - simpl in Hb.
    destruct (PointsToScanWithOneLaser d dt) as [n|] eqn:Hn; [|contradiction].
    destruct (Tick_step W m d dt n Hc Hn)
      as [m1 [Hrun [Hc1 [Ha1 [Hi1 [Hw1 Hf1]]]]]].
    destruct (IH m1 Hc1) as [m2 [Hrun2 [Hc2 [Ha2 [Hi2 [Hw2 Hf2]]]]]].
    exists m2. cbn [Ticks].
    rewrite (bind_Ok _ _ _ _ _ Hrun).
    split; [exact Hrun2|]. split; [exact Hc2|].
    split; [congruence|]. split; [congruence|].
    split; [rewrite Hw2, Hw1; simpl; lia|].
    cbn [map fst]. destruct Hf2 as [Hf2|Hf2].
    + rewrite <- Hf2. destruct Hf1 as [Hf1|Hf1];
        [left; symmetry; exact Hf1 | right; left; symmetry; exact Hf1].
    + right; right; exact Hf2.
Qed.

(** X5.  From [Set] on, through any number of frames whose budget is defined,
    no check fails: the sensor keeps its description and the table that
    [Set] built, every frame serves the sink exactly once, and the frame
    number of the measurement is 0 or the frame counter of one of these
    frames. *)
Theorem Ticks_keep_configuration (m : Machine) (d : ULidarDescription)
  (frames : list (Engine * float)) :
  0 < Channels d ->
  Forall (fun f => PointsToScanWithOneLaser d (snd f) <> None) frames ->
  exists m1 m2,
    Set_ d m = Ok (tt, m1) /\
    Ticks frames m1 = Ok (tt, m2) /\
    Description (Sensor m2) = Some d /\
    LaserAngles (Sensor m2) = laser_table d /\
    count_writes (Trace m2)
    = (count_writes (Trace m) + List.length frames)%nat /\
    In (FrameNumber (LidarMeasurement (Sensor m2)))
       (0 :: map (fun f => GFrameCounter (fst f)) frames).
Proof.
  intros Hn Hb.
  destruct (Ticks_run d frames Hb
              (mkMachine (configured_sensor (Id (Sensor m)) d) (Trace m))
              (Set_configures _ d Hn))
    as [m2 [Hrun [[Hd _] [Ha [_ [Hw Hf]]]]]].
  exists (mkMachine (configured_sensor (Id (Sensor m)) d) (Trace m)), m2.
  split; [apply Set_run; assumption|]. split; [exact Hrun|].
  split; [exact Hd|]. split; [exact Ha|]. split; [exact Hw|]. exact Hf.
Qed.

Lemma Ticks_keep_configuration_witness :
  exists m1 m2,
    Set_ small_description boot = Ok (tt, m1) /\
    Ticks [(still_engine upper_half [], one_twentieth);
           (still_engine upper_half [], F32.zero);
           (still_engine upper_half [Vehicles], one_twentieth)] m1
    = Ok (tt, m2) /\
    Description (Sensor m2) = Some small_description /\
    LaserAngles (Sensor m2) = laser_table small_description /\
    count_writes (Trace m2) = 3%nat /\
    In (FrameNumber (LidarMeasurement (Sensor m2))) [0; 7; 7; 7].
Proof.
  apply (Ticks_keep_configuration boot small_description
           [(still_engine upper_half [], one_twentieth);
            (still_engine upper_half [], F32.zero);
            (still_engine upper_half [Vehicles], one_twentieth)]).
  - simpl. lia.
  - apply Forall_cons; [intros H; vm_compute in H; discriminate H|].
    apply Forall_cons; [intros H; vm_compute in H; discriminate H|].
    apply Forall_cons; [intros H; vm_compute in H; discriminate H|].
    apply Forall_nil.
Defined.

(* ===================================================================== *)
(** * What a tick hands to the sink *)
(* ===================================================================== *)

(** One tick of a sensor that holds no point: the view has the points of
    this tick's rays only, and the sensor holds none afterwards. *)
Lemma Tick_hand_over (W : Engine) (m : Machine)
      (d : ULidarDescription) (dt : float) (n : Z) :
  configured (Sensor m) d ->
  PointsToScanWithOneLaser d dt = Some n ->
  Points (LidarMeasurement (Sensor m)) = [] ->
  exists m' view,
    Tick W dt m = Ok (tt, m') /\
    last (Trace m') (EvLog Fatal "") = EvWriteSensorData view /\
    Points view
    = (if 0 <? n
       then sweep_points W d (LaserAngles (Sensor m))
              (HorizontalAngle (LidarMeasurement (Sensor m)))
              (RotationFrequency d * F32.of_Z 360 * dt / F32.of_Z n)%f32 n
       else []) /\
    (0 < n ->
     Reserved view = wrap32 (Channels d * n) /\
     FrameNumber view = GFrameCounter W) /\
    Points (LidarMeasurement (Sensor m')) = [] /\
    Reserved (LidarMeasurement (Sensor m')) = 0 /\
    configured (Sensor m') d /\
    LaserAngles (Sensor m') = LaserAngles (Sensor m).
Proof.
  intros Hc Hn Hempty.
  destruct (Z.ltb_spec 0 n) as [Hpos|Hle].
  - eexists. exists (scanned_measurement W d (Sensor m) dt n).
    split; [apply (Tick_scan W m d dt n); assumption|].
    split; [cbn [Trace]; rewrite app_assoc; apply last_last|].
    split; [reflexivity|]. split; [intros _; split; reflexivity|].
    split; [reflexivity|]. split; [reflexivity|].
    destruct Hc as [Hd Hlen].
    split; [split; [reflexivity | exact Hlen] | reflexivity].
  - destruct Hc as [Hd Hlen].
    eexists. exists (LidarMeasurement (Sensor m)).
    split; [apply (Tick_skip W m d dt n); assumption|].
    split.
    + cbn [Trace].
      change [EvLog Warning (GetName W);
              EvWriteSensorData (LidarMeasurement (Sensor m))]
        with ([EvLog Warning (GetName W)]
              ++ [EvWriteSensorData (LidarMeasurement (Sensor m))]).
      rewrite app_assoc. apply last_last.
    + split; [exact Hempty|]. split; [intros Hpos; lia|].
      split; [reflexivity|]. split; [reflexivity|].
      split; [split; [exact Hd | exact Hlen] | reflexivity].
Qed.

(** Through its frames a sensor that holds no point keeps holding none. *)
Lemma Ticks_hold_no_points (d : ULidarDescription)
      (frames : list (Engine * float)) :
  Forall (fun f => PointsToScanWithOneLaser d (snd f) <> None) frames ->
  forall m, configured (Sensor m) d ->
  Points (LidarMeasurement (Sensor m)) = [] ->
  exists m',
    Ticks frames m = Ok (tt, m') /\
    configured (Sensor m') d /\
    LaserAngles (Sensor m') = LaserAngles (Sensor m) /\
    Points (LidarMeasurement (Sensor m')) = [].
Proof.
  induction 1 as [|[W dt] frames Hb _ IH]; intros m Hc He.
  - exists m. repeat split; try apply Hc. exact He.
  - simpl in Hb.
    destruct (PointsToScanWithOneLaser d dt) as [n|] eqn:Hn; [|contradiction].
    destruct (Tick_hand_over W m d dt n Hc Hn He)
      as [m1 [v [Hrun [_ [_ [_ [He1 [_ [Hc1 Ha1]]]]]]]]].
    destruct (IH m1 Hc1 He1) as [m2 [Hrun2 [Hc2 [Ha2 He2]]]].
    exists m2. cbn [Ticks]. rewrite (bind_Ok _ _ _ _ _ Hrun).
    split; [exact Hrun2|]. split; [exact Hc2|].
    split; [congruence | exact He2].
Qed.

(** C9.  The sensor holds no point data across ticks.  From [Set] on,
    after any number of frames (scanning or not), the sensor holds no
    point, and the next tick hands the sink a view with the points of its
    own rays only: those of the sweep, in a buffer that was emptied and
    sized for [channels * pointsPerLaser] points before it, on a tick that
    scans, and none on a tick that does not.  After the hand-off the
    sensor holds no point and no buffer. *)
Theorem Tick_hands_over_sweep (m : Machine) (d : ULidarDescription)
  (frames : list (Engine * float)) :
  0 < Channels d ->
  Forall (fun f => PointsToScanWithOneLaser d (snd f) <> None) frames ->
  exists m1 m2,
    Set_ d m = Ok (tt, m1) /\
    Ticks frames m1 = Ok (tt, m2) /\
    Points (LidarMeasurement (Sensor m2)) = [] /\
    forall W dt n,
      PointsToScanWithOneLaser d dt = Some n ->
      exists m3 view,
        Tick W dt m2 = Ok (tt, m3) /\
        last (Trace m3) (EvLog Fatal "") = EvWriteSensorData view /\
        Points view
        = (if 0 <? n
           then sweep_points W d (laser_table d)
                  (HorizontalAngle (LidarMeasurement (Sensor m2)))
                  (RotationFrequency d * F32.of_Z 360 * dt / F32.of_Z n)%f32 n
           else []) /\
        (0 < n ->
         Reserved view = wrap32 (Channels d * n) /\
         FrameNumber view = GFrameCounter W) /\
        Points (LidarMeasurement (Sensor m3)) = [] /\
        Reserved (LidarMeasurement (Sensor m3)) = 0.
Proof.
  intros Hn Hb.
  destruct (Ticks_hold_no_points d frames Hb
              (mkMachine (configured_sensor (Id (Sensor m)) d) (Trace m))
              (Set_configures _ d Hn) eq_refl)
    as [m2 [Hrun [Hc2 [Ha2 He2]]]].
  exists (mkMachine (configured_sensor (Id (Sensor m)) d) (Trace m)), m2.
  split; [apply Set_run; assumption|]. split; [exact Hrun|].
  split; [exact He2|].
  intros W dt n Hbud.
  destruct (Tick_hand_over W m2 d dt n Hc2 Hbud He2)
    as [m3 [view [Hrun3 [Hlast [Hpts [Hsize [He3 [Hr3 _]]]]]]]].
  exists m3, view. rewrite Ha2 in Hpts.
  split; [exact Hrun3|]. split; [exact Hlast|]. split; [exact Hpts|].
  split; [exact Hsize|]. split; [exact He3 | exact Hr3].
Qed.

(** From [Set], a tick of 1/20 s in which one ray of two hits, then a
    tick that lasts no time: the sensor holds no point after the first,
    the sink is handed no point by the second, and the sensor holds none
    after it. *)
Lemma Tick_hands_over_sweep_witness :
  exists m1 m2,
    Set_ small_description boot = Ok (tt, m1) /\
    Ticks [(still_engine upper_half [], one_twentieth)] m1 = Ok (tt, m2) /\
    Points (LidarMeasurement (Sensor m2)) = [] /\
    exists m3 view,
      Tick (still_engine upper_half []) F32.zero m2 = Ok (tt, m3) /\
      last (Trace m3) (EvLog Fatal "") = EvWriteSensorData view /\
      Points view = [] /\
      Points (LidarMeasurement (Sensor m3)) = [] /\
      Reserved (LidarMeasurement (Sensor m3)) = 0.
Proof.
  destruct (Tick_hands_over_sweep boot small_description
              [(still_engine upper_half [], one_twentieth)])
    as [m1 [m2 [Hset [Hrun [Hempty Hnext]]]]].
  - simpl. lia.
  - apply Forall_cons; [intros H; vm_compute in H; discriminate H|].
    apply Forall_nil.
  - destruct (Hnext (still_engine upper_half []) F32.zero 0 eq_refl)
      as [m3 [view [Hrun3 [Hlast [Hpts [_ [He3 Hr3]]]]]]].
    exists m1, m2. split; [exact Hset|]. split; [exact Hrun|].
    split; [exact Hempty|]. exists m3, view.
    split; [exact Hrun3|]. split; [exact Hlast|]. split; [exact Hpts|].
    split; [exact He3 | exact Hr3].
Defined.

(* ===================================================================== *)
(** * The buffer, channel by channel *)
(* ===================================================================== *)

Lemma indices_sorted (n : Z) : StronglySorted Z.lt (indices n).
Proof.
  unfold indices. generalize (Z.to_nat n) as k. generalize 0%nat as a.
  intros a k. revert a. induction k as [|k IH]; intros a; simpl.
  - constructor.
  - constructor; [apply IH|].
    apply Forall_forall. intros x Hx. apply in_map_iff in Hx.
    destruct Hx as [y [<- Hy]]. apply in_seq in Hy. lia.
Qed.

Lemma filter_none {A} (f : A -> bool) (l : list A) :
  (forall x, In x l -> f x = false) -> filter f l = [].
Proof.
  induction l as [|x l IH]; intros H; simpl; [reflexivity|].
  rewrite (H x (or_introl eq_refl)). apply IH.
  intros y Hy. apply H. right; exact Hy.
Qed.

Section Keyed.

Variable A : Type.
Variable G : Z -> list (Z * A).
Hypothesis G_key : forall c p, In p (G c) -> fst p = c.

Lemma keyed_other (c : Z) (l : list Z) :
  (forall x, In x l -> x <> c) ->
  filter (fun p => fst p =? c) (flat_map G l) = [].
Proof.
  intros Hl. apply filter_none. intros q Hq.
  apply in_flat_map in Hq. destruct Hq as [b [Hb Hq]].
  apply Z.eqb_neq. rewrite (G_key b q Hq). apply Hl. exact Hb.
Qed.

Lemma keyed_count (c : Z) (l : list Z) :
  StronglySorted Z.lt l ->
  (List.length (filter (fun p => (fst p =? c)%Z) (flat_map G l))
   <= List.length (G c))%nat.
Proof.
  induction 1 as [|a l Hs IH Ha]; simpl; [lia|].
  rewrite filter_app, length_app.
  destruct (Z.eq_dec a c) as [->|Hne].
  - rewrite (keyed_other c l).
    + pose proof (filter_length_le (fun p => fst p =? c) (G c)). simpl. lia.
    + intros x Hx. rewrite Forall_forall in Ha. specialize (Ha x Hx). lia.
  - assert (E : filter (fun p => fst p =? c) (G a) = []).
    { apply filter_none. intros q Hq. apply Z.eqb_neq.
      rewrite (G_key a q Hq). exact Hne. }
    rewrite E. simpl. exact IH.
Qed.

Lemma keyed_sorted (l : list Z) :
  StronglySorted Z.lt l ->
  StronglySorted Z.le (map fst (flat_map G l)).
Proof.
  induction 1 as [|a l Hs IH Ha]; simpl; [constructor|].
  rewrite map_app.
  assert (Hkeys : forall x, In x (map fst (G a)) -> x = a).
  { intros x Hx. apply in_map_iff in Hx. destruct Hx as [p [<- Hp]].
    apply G_key. exact Hp. }
  induction (map fst (G a)) as [|x xs IHx]; simpl; [exact IH|].
  constructor.
  - apply IHx. intros y Hy. apply Hkeys. right; exact Hy.
  - apply Forall_forall. intros y Hy. apply in_app_or in Hy.
    rewrite (Hkeys x) by (left; reflexivity).
    destruct Hy as [Hy|Hy].
    + rewrite (Hkeys y) by (right; exact Hy). lia.
    + apply in_map_iff in Hy. destruct Hy as [p [<- Hp]].
      apply in_flat_map in Hp. destruct Hp as [b [Hb Hp]].
      rewrite (G_key b p Hp).
      rewrite Forall_forall in Ha. specialize (Ha b Hb). lia.
Qed.

End Keyed.

Lemma flat_map_nested {A B C} (f : B -> list C) (g : A -> list B) (l : list A) :
  flat_map f (flat_map g l) = flat_map (fun x => flat_map f (g x)) l.
Proof.
  induction l as [|x l IH]; simpl; [reflexivity|].
  rewrite flat_map_app, IH. reflexivity.
Qed.

Lemma ray_points_key W d angles cur step r p :
  In p (ray_points W d angles cur step r) -> fst p = fst r.
Proof.
  unfold ray_points. destruct (ray_result _ _ _ _); simpl; [|contradiction].
  intros [<-|[]]. reflexivity.
Qed.

(** X6.  The buffer of a sweep is laid out channel by channel: every point
    carries the number of a channel of the sensor, the channel numbers
    never decrease along the buffer, and no channel has more points than
    the budget of the tick. *)
Theorem ReadPoints_buffer_by_channel (W : Engine) (m : Machine)
  (d : ULidarDescription) (dt : float) (n : Z) :
  configured (Sensor m) d ->
  PointsToScanWithOneLaser d dt = Some n ->
  0 < n ->
  exists m',
    ReadPoints W dt m = Ok (tt, m') /\
    Forall (fun p => 0 <= fst p < Channels d)
           (Points (LidarMeasurement (Sensor m'))) /\
    StronglySorted Z.le (map fst (Points (LidarMeasurement (Sensor m')))) /\
    forall c,
      Z.of_nat (List.length (filter (fun p => fst p =? c)
                               (Points (LidarMeasurement (Sensor m'))))) <= n.
Proof.
  intros Hc Hn Hpos.
  eexists. split; [apply (ReadPoints_scan W d m dt n); assumption|].
  simpl. unfold sweep_points, sweep_rays. rewrite flat_map_nested.
  set (rp := ray_points W d (LaserAngles (Sensor m))
               (HorizontalAngle (LidarMeasurement (Sensor m)))
               (AngleDistanceOfTick d dt / F32.of_Z n)%f32).
  set (G := fun c : Z => flat_map rp (map (pair c) (indices n))).
  assert (G_key : forall c p, In p (G c) -> fst p = c).
  { intros c p Hp. unfold G in Hp. apply in_flat_map in Hp.
    destruct Hp as [r [Hr Hp]]. apply in_map_iff in Hr.
    destruct Hr as [i [<- _]]. apply (ray_points_key _ _ _ _ _ _ _ Hp). }
  split; [|split].
  - apply Forall_forall. intros p Hp. apply in_flat_map in Hp.
    destruct Hp as [c [Hin Hp]]. rewrite (G_key c p Hp).
    apply in_indices. exact Hin.
  - apply keyed_sorted; [exact G_key | apply indices_sorted].
  - intros c.
    pose proof (keyed_count _ G G_key c _ (indices_sorted (Channels d))) as Hle.
    assert (Hg : (List.length (G c) <= Z.to_nat n)%nat).
    { unfold G.
      pose proof (flat_map_short rp (map (pair c) (indices n))
                    (ray_points_short W d _ _ _)) as H1.
      rewrite length_map, indices_length in H1. exact H1. }
    lia.
Qed.

Lemma ReadPoints_buffer_by_channel_witness :
  exists m',
    ReadPoints (still_engine upper_half []) one_twentieth
      (mkMachine (configured_sensor 1 small_description) []) = Ok (tt, m') /\
    Forall (fun p => 0 <= fst p < 2) (Points (LidarMeasurement (Sensor m'))) /\
    StronglySorted Z.le (map fst (Points (LidarMeasurement (Sensor m')))) /\
    forall c,
      Z.of_nat (List.length (filter (fun p => fst p =? c)
                               (Points (LidarMeasurement (Sensor m'))))) <= 1.
Proof.
  apply (ReadPoints_buffer_by_channel (still_engine upper_half [])
           (mkMachine (configured_sensor 1 small_description) [])
           small_description one_twentieth 1).
  - split; reflexivity.
  - reflexivity.
  - lia.
Defined.

(* ===================================================================== *)
(** * Debug points *)
(* ===================================================================== *)

Lemma count_debug_app (t u : list Event) :
  count_debug (t ++ u) = (count_debug t + count_debug u)%nat.
Proof. unfold count_debug. rewrite filter_app, length_app. reflexivity. Qed.

Lemma ray_result_debug W d b va ha :
  ray_result W (with_debug b d) va ha = ray_result W d va ha.
Proof. reflexivity. Qed.

Lemma ray_events_debug W d va ha :
  count_debug (ray_events W d va ha)
  = if ShowDebugPoints d
    then match ray_result W d va ha with Some _ => 1%nat | None => 0%nat end
    else 0%nat.
Proof.
  unfold ray_events, ray_result, count_debug. simpl.
  destruct (bBlockingHit _), (ShowDebugPoints d); reflexivity.
Qed.

Lemma ray_events_quiet W d b va ha :
  filter (fun e => negb (is_debug e)) (ray_events W (with_debug b d) va ha)
  = filter (fun e => negb (is_debug e)) (ray_events W d va ha).
Proof.
  unfold ray_events. simpl.
  change (ray_hit W (with_debug b d) va ha) with (ray_hit W d va ha).
  change (ray_end W (with_debug b d) va ha) with (ray_end W d va ha).
  destruct (bBlockingHit _), b, (ShowDebugPoints d); reflexivity.
Qed.

Lemma filter_flat_map {A B} (f : B -> bool) (g : A -> list B) (l : list A) :
  filter f (flat_map g l) = flat_map (fun x => filter f (g x)) l.
Proof.
  induction l as [|x l IH]; simpl; [reflexivity|].
  rewrite filter_app, IH. reflexivity.
Qed.

Lemma sweep_debug_count W d angles cur step n :
  count_debug (sweep_events W d angles cur step n)
  = if ShowDebugPoints d
    then List.length (sweep_points W d angles cur step n) else 0%nat.
Proof.
  unfold sweep_events, sweep_points.
  induction (sweep_rays d n) as [|r l IH]; cbn [flat_map].
  - destruct (ShowDebugPoints d); reflexivity.
  - rewrite count_debug_app, IH, ray_events_debug, length_app.
    unfold ray_points, ray_vertical, ray_horizontal.
    destruct (ShowDebugPoints d); [|reflexivity].
    destruct (ray_result _ _ _ _); reflexivity.
Qed.

(** X7.  The debug flag changes nothing but the drawing: with the flag set
    either way a scanning tick leaves the same measurement and the same
    events apart from debug points, of which there is one per point of the
    buffer when the flag is set and none when it is not. *)
Theorem ShowDebugPoints_only_draws (W : Engine) (m : Machine)
  (d : ULidarDescription) (dt : float) (n : Z) (b : bool) :
  configured (Sensor m) d ->
  PointsToScanWithOneLaser d dt = Some n ->
  0 < n ->
  exists m1 m2,
    ReadPoints W dt m = Ok (tt, m1) /\
    ReadPoints W dt (with_description (with_debug b d) m) = Ok (tt, m2) /\
    LidarMeasurement (Sensor m2) = LidarMeasurement (Sensor m1) /\
    filter (fun e => negb (is_debug e)) (Trace m2)
    = filter (fun e => negb (is_debug e)) (Trace m1) /\
    count_debug (Trace m2)
    = (count_debug (Trace m)
       + if b then List.length (Points (LidarMeasurement (Sensor m2)))
         else 0)%nat.
Proof.
  intros Hc Hn Hpos.
  assert (Hc' : configured (Sensor (with_description (with_debug b d) m))
                           (with_debug b d)).
  { destruct Hc as [_ Hlen]. split; [reflexivity | exact Hlen]. }
  eexists. eexists.
  split; [apply (ReadPoints_scan W d m dt n); assumption|].
  split; [apply (ReadPoints_scan W (with_debug b d) _ dt n);
          [exact Hc' | exact Hn | exact Hpos]|].
  simpl. split; [reflexivity|]. split.
  - rewrite !filter_app. f_equal.
    unfold sweep_events. rewrite !filter_flat_map.
    apply flat_map_ext. intros r. apply ray_events_quiet.
  - rewrite count_debug_app. f_equal.
    apply (sweep_debug_count W (with_debug b d)).
Qed.

Lemma ShowDebugPoints_only_draws_witness :
  exists m1 m2,
    ReadPoints (still_engine upper_half []) one_twentieth
      (mkMachine (configured_sensor 1 small_description) []) = Ok (tt, m1) /\
    ReadPoints (still_engine upper_half []) one_twentieth
      (with_description (with_debug true small_description)
         (mkMachine (configured_sensor 1 small_description) [])) = Ok (tt, m2) /\
    LidarMeasurement (Sensor m2) = LidarMeasurement (Sensor m1) /\
    filter (fun e => negb (is_debug e)) (Trace m2)
    = filter (fun e => negb (is_debug e)) (Trace m1) /\
    count_debug (Trace m2)
    = (0 + List.length (Points (LidarMeasurement (Sensor m2))))%nat.
Proof.
  apply (ShowDebugPoints_only_draws (still_engine upper_half [])
           (mkMachine (configured_sensor 1 small_description) [])
           small_description one_twentieth 1 true).
  - split; reflexivity.
  - reflexivity.
  - lia.
Defined.

(* ===================================================================== *)
(** * Sums of floats *)
(* ===================================================================== *)

Lemma add_sub_opp (x y : float) : (x + y)%f32 = (x - (- y))%f32.
Proof.
  unfold F32.add, F32.sub, F32.opp.
  destruct x as [sx|sx| |sx mx ex], y as [sy|sy| |sy my ey];
    cbn [SFadd SFsub SFopp negb];
    try reflexivity;
    try (destruct sx, sy; reflexivity);
    try (destruct sy; reflexivity).
Qed.

Lemma ival_opp (x : float) : ival (- x)%f32 = - ival x.
Proof.
  destruct x as [s|s| |s m e]; try reflexivity.
  unfold F32.opp. cbn [SFopp ival]. destruct s; cbn [cond_Zopp negb]; lia.
Qed.

Lemma finite_opp (x : float) : F32.is_finite (- x)%f32 = F32.is_finite x.
Proof. destruct x; reflexivity. Qed.

Lemma exponent_le_opp (k : Z) (x : float) :
  F32.exponent_le k (- x)%f32 = F32.exponent_le k x.
Proof. destruct x; reflexivity. Qed.

Lemma add_exact (x y : float) :
  F32.valid x = true -> F32.valid y = true ->
  F32.is_finite x = true -> F32.is_finite y = true ->
  exists z e s, -149 <= e /\
    (x + y)%f32 = binary_normalize F32.prec F32.emax z e s /\
    z * 2 ^ (e + 149) = ival x + ival y.
Proof.
  intros Hvx Hvy Hfx Hfy. rewrite add_sub_opp.
  destruct (sub_exact x (- y)%f32 Hvx (valid_opp y Hvy) Hfx)
    as [z [e [s [He [E V]]]]]; [rewrite finite_opp; exact Hfy|].
  exists z, e, s. split; [exact He|]. split; [exact E|].
  rewrite V, ival_opp. lia.
Qed.

Lemma add_nonneg (x y : float) :
  F32.valid x = true -> F32.valid y = true ->
  F32.is_finite x = true -> F32.is_finite y = true ->
  F32.is_nonneg x = true -> F32.is_nonneg y = true ->
  F32.is_nonneg (x + y)%f32 = true.
Proof.
  intros Hvx Hvy Hfx Hfy Hx Hy.
  destruct (add_exact x y Hvx Hvy Hfx Hfy) as [z [e [s [He [E V]]]]].
  rewrite E. apply normalize_nonneg.
  pose proof (ival_nonneg x Hx). pose proof (ival_nonneg y Hy).
  assert (0 < 2 ^ (e + 149)) by (apply Z.pow_pos_nonneg; lia). nia.
Qed.

Lemma exponent_le_finite (k : Z) (x : float) :
  F32.exponent_le k x = true -> F32.is_finite x = true.
Proof. destruct x; simpl; intros; try discriminate; reflexivity. Qed.

Lemma exponent_le_weaken (k k' : Z) (x : float) :
  k <= k' -> F32.exponent_le k x = true -> F32.exponent_le k' x = true.
Proof.
  intros Hk. destruct x; simpl; try discriminate; try reflexivity.
  intros H. apply Z.leb_le in H. apply Z.leb_le. lia.
Qed.

Lemma add_exponent_le (x y : float) (k : Z) :
  F32.valid x = true -> F32.valid y = true ->
  F32.exponent_le k x = true -> F32.exponent_le k y = true ->
  -149 <= k < 102 ->
  F32.exponent_le (k + 2) (x + y)%f32 = true.
Proof.
  intros Hvx Hvy Hx Hy Hk. rewrite add_sub_opp.
  apply sub_exponent_le; try assumption.
  - apply valid_opp; assumption.
  - rewrite exponent_le_opp. assumption.
Qed.

(** Adding more gives more, also when the addend overflowed. *)
Lemma add_mono_inf (c t1 t2 : float) :
  F32.valid c = true -> F32.valid t1 = true -> F32.valid t2 = true ->
  F32.is_finite c = true ->
  F32.is_nonneg t1 = true -> F32.is_nonneg t2 = true ->
  F32.leb t1 t2 = true ->
  F32.leb (c + t1)%f32 (c + t2)%f32 = true.
Proof.
  intros Hvc Hv1 Hv2 Hfc Hn1 Hn2 Hle.
  destruct (F32.is_finite t2) eqn:Hf2; [destruct (F32.is_finite t1) eqn:Hf1|].
  - destruct (add_exact c t1 Hvc Hv1 Hfc Hf1) as [z1 [e1 [s1 [H1 [E1 V1]]]]].
    destruct (add_exact c t2 Hvc Hv2 Hfc Hf2) as [z2 [e2 [s2 [H2 [E2 V2]]]]].
    pose proof (leb_ival t1 t2 Hv1 Hv2 Hf1 Hf2 Hle) as Hi.
    rewrite E1, E2. apply (binary_normalize_mono_at _ _ _ _ (-149)); try lia.
    replace (e1 - -149) with (e1 + 149) by lia.
    replace (e2 - -149) with (e2 + 149) by lia. lia.
  - destruct t1 as [s1|s1| |s1 m1 e1]; try discriminate.
    destruct s1; [discriminate|].
    destruct t2 as [s2|s2| |s2 m2 e2]; try discriminate;
      destruct s2; discriminate.
  - destruct t2 as [s2|s2| |s2 m2 e2]; try discriminate.
    destruct s2; [discriminate|].
    destruct (F32.is_finite t1) eqn:Hf1.
    + destruct (add_exact c t1 Hvc Hv1 Hfc Hf1) as [z [e [s [He [E V]]]]].
      pose proof (normalize_not_nan z e s) as Hnn. rewrite <- E in Hnn.
      remember (c + t1)%f32 as r eqn:Er. clear Er E V.
      destruct c as [sc|sc| |sc mc ec]; try discriminate;
        unfold F32.add; cbn [SFadd];
        destruct r as [s'|s'| |s' m' e'];
        try discriminate; try reflexivity; destruct s'; reflexivity.
    + destruct t1 as [s1|s1| |s1 m1 e1]; try discriminate.
      destruct s1; [discriminate|].
      destruct c as [sc|sc| |sc mc ec]; try discriminate; reflexivity.
Qed.

Lemma mul_mono_l (D x1 x2 : float) :
  F32.valid x1 = true -> F32.valid x2 = true -> F32.valid D = true ->
  F32.is_finite x1 = true -> F32.is_finite x2 = true -> F32.is_finite D = true ->
  0 <= ival D -> ival x1 <= ival x2 ->
  F32.leb (D * x1)%f32 (D * x2)%f32 = true.
Proof.
  intros Hv1 Hv2 HvD Hf1 Hf2 HfD HD Hle.
  destruct (mul_exact D x1 HvD Hv1 HfD Hf1) as [z1 [e1 [s1 [H1 [E1 V1]]]]].
  destruct (mul_exact D x2 HvD Hv2 HfD Hf2) as [z2 [e2 [s2 [H2 [E2 V2]]]]].
  rewrite E1, E2. apply (binary_normalize_mono_at _ _ _ _ (-298)); try lia.
  replace (e1 - -298) with (e1 + 298) by lia.
  replace (e2 - -298) with (e2 + 298) by lia. nia.
Qed.

(* ===================================================================== *)
(** * The horizontal angles of a sweep *)
(* ===================================================================== *)

Lemma valid_AngleDistanceOfTick (d : ULidarDescription) (dt : float) :
  F32.valid (RotationFrequency d) = true -> F32.valid dt = true ->
  F32.valid (AngleDistanceOfTick d dt) = true.
Proof.
  intros Hr Hd. unfold AngleDistanceOfTick.
  apply valid_mul; [apply valid_mul; [assumption | apply valid_of_Z] | assumption].
Qed.

Lemma add_zero_r (c : float) (s : bool) :
  F32.is_finite c = true -> F32.eqb (c + S754_zero s)%f32 c = true.
Proof.
  intros Hc. destruct c as [sc|sc| |sc mc ec]; try discriminate.
  - destruct sc, s; reflexivity.
  - unfold F32.add. cbn [SFadd]. apply eqb_refl. reflexivity.
Qed.

(** X8.  The samples of a channel start at the current horizontal angle, and
    their angles never decrease while the sensor turns forwards. *)
Theorem ray_angles_non_decreasing (d : ULidarDescription) (cur dt : float)
  (n i j : Z) :
  F32.valid cur = true -> F32.is_finite cur = true ->
  F32.valid (RotationFrequency d) = true -> F32.valid dt = true ->
  F32.is_nonneg (AngleDistanceOfTick d dt) = true ->
  F32.exponent_le 102 (AngleDistanceOfTick d dt) = true ->
  0 < n <= uint32_max -> 0 <= i <= j -> j < n ->
  let step := (AngleDistanceOfTick d dt / F32.of_Z n)%f32 in
  F32.eqb (ray_horizontal cur step 0) cur = true /\
  F32.leb (ray_horizontal cur step i) (ray_horizontal cur step j) = true.
Proof.
  intros Hvc Hfc Hvr Hvd Hns Hes Hn Hij Hj step.
  assert (H32 : uint32_max = 2 ^ 32 - 1) by reflexivity.
  pose proof (valid_AngleDistanceOfTick d dt Hvr Hvd) as Hvs.
  assert (Hfstep : F32.is_finite step = true)
    by (apply div_count_finite; [assumption | assumption | lia]).
  assert (Hvstep : F32.valid step = true) by apply valid_div.
  assert (Hnstep : F32.is_nonneg step = true)
    by (apply div_count_nonneg; [assumption | lia]).
  pose proof (ival_nonneg _ Hnstep) as Histep.
  unfold ray_horizontal. split.
  - change (F32.of_Z 0) with (S754_zero false).
    destruct step as [ss|ss| |ss ms es]; try discriminate;
      unfold F32.mul; cbn [SFmul]; apply add_zero_r; assumption.
  - assert (Hfi : F32.is_finite (F32.of_Z i) = true) by (apply of_Z_finite; lia).
    assert (Hfj : F32.is_finite (F32.of_Z j) = true) by (apply of_Z_finite; lia).
    assert (H0i : 0 <= ival (F32.of_Z i))
      by (apply ival_nonneg, normalize_nonneg; lia).
    assert (Hlij : ival (F32.of_Z i) <= ival (F32.of_Z j)).
    { apply leb_ival; try assumption; try apply valid_of_Z.
      apply of_Z_mono; lia. }
    apply add_mono_inf; try assumption.
    + apply valid_mul; [assumption | apply valid_of_Z].
    + apply valid_mul; [assumption | apply valid_of_Z].
    + apply mul_nonneg; try assumption; try apply valid_of_Z.
    + apply mul_nonneg; try assumption; try apply valid_of_Z. lia.
    + apply mul_mono_l; try assumption; apply valid_of_Z.
Qed.

Lemma ray_angles_non_decreasing_witness :
  F32.eqb (ray_horizontal (F32.of_Z 350)
             (AngleDistanceOfTick sample_description one_twentieth / F32.of_Z 88)%f32
             0) (F32.of_Z 350) = true /\
  F32.leb (ray_horizontal (F32.of_Z 350)
             (AngleDistanceOfTick sample_description one_twentieth / F32.of_Z 88)%f32
             3)
          (ray_horizontal (F32.of_Z 350)
             (AngleDistanceOfTick sample_description one_twentieth / F32.of_Z 88)%f32
             87) = true.
Proof.
  apply (ray_angles_non_decreasing sample_description (F32.of_Z 350)
           one_twentieth 88 3 87); try reflexivity;
    unfold uint32_max; simpl; lia.
Defined.

(* ===================================================================== *)
(** * The horizontal angle through the frames *)
(* ===================================================================== *)

Lemma below_360_inv (a : float) :
  below_360 a = true ->
  F32.is_finite a = true /\ F32.exponent_le (-15) a = true.
Proof.
  unfold below_360. rewrite of_Z_360. intros H1.
  destruct a as [s|s| |s m e]; try discriminate.
  - split; reflexivity.
  - split; [reflexivity|].
    unfold F32.ltb, SFltb, F32.abs, SFabs, SFcompare in H1. simpl.
    destruct (Z.compare_spec e (-15)); try discriminate; apply Z.leb_le; lia.
Qed.

Lemma in_0_360_inv (a : float) :
  in_0_360 a = true -> below_360 a = true /\ F32.is_nonneg a = true.
Proof.
  unfold in_0_360, below_360. rewrite andb_true_iff. intros [H0 H1].
  destruct a as [s|s| |s m e]; try discriminate.
  - split; [destruct s|]; reflexivity.
  - destruct s; discriminate.
  - destruct s; [discriminate|]. split; [exact H1 | reflexivity].
Qed.

Lemma bounded_frame_inv (d : ULidarDescription) (dt : float) :
  bounded_frame d dt = true ->
  (exists n, PointsToScanWithOneLaser d dt = Some n) /\
  F32.valid dt = true /\
  F32.exponent_le 101 (AngleDistanceOfTick d dt) = true.
Proof.
  unfold bounded_frame. rewrite !andb_true_iff. intros [[Hb Hv] He].
  repeat split; try assumption.
  destruct (PointsToScanWithOneLaser d dt) as [n|]; [|discriminate].
  exists n. reflexivity.
Qed.

(** The angle a sweep ends at, whichever way the sensor turns. *)
Lemma next_angle_below_360 (d : ULidarDescription) (cur dt : float) :
  F32.valid (RotationFrequency d) = true ->
  F32.valid cur = true -> below_360 cur = true ->
  bounded_frame d dt = true ->
  F32.valid (next_angle d cur dt) = true /\
  below_360 (next_angle d cur dt) = true /\
  (F32.is_nonneg (cur + AngleDistanceOfTick d dt)%f32 = true ->
   in_0_360 (next_angle d cur dt) = true).
Proof.
  intros Hvr Hvc Hc Hfr.
  destruct (bounded_frame_inv d dt Hfr) as [_ [Hvd Hes]].
  destruct (below_360_inv cur Hc) as [Hfc Hec].
  pose proof (valid_AngleDistanceOfTick d dt Hvr Hvd) as Hvs.
  set (sum := (cur + AngleDistanceOfTick d dt)%f32).
  assert (Hvsum : F32.valid sum = true) by (apply valid_add; assumption).
  assert (Hfsum : F32.is_finite sum = true).
  { apply (exponent_le_finite (101 + 2)).
    apply add_exponent_le; try assumption; [|lia].
    apply (exponent_le_weaken (-15)); [lia | assumption]. }
  destruct (fmod_360_range sum Hvsum Hfsum) as [Hv [Hf [Hs Hlt]]].
  unfold next_angle. fold sum.
  split; [exact Hv|]. split; [exact Hlt|].
  intros Hnsum. rewrite Hnsum in Hs. apply nonneg_in_range; assumption.
Qed.

Section AngleInvariant.

(** An invariant [P] of the horizontal angle that every sweep of a frame
    accepted by [frame_ok] keeps. *)
Variable d : ULidarDescription.
Variable P : float -> bool.
Variable frame_ok : float -> bool.

Hypothesis frame_ok_budget :
  forall dt, frame_ok dt = true ->
    exists n, PointsToScanWithOneLaser d dt = Some n.
Hypothesis P_kept :
  forall cur dt,
    F32.valid cur = true -> P cur = true -> frame_ok dt = true ->
    F32.valid (next_angle d cur dt) = true /\ P (next_angle d cur dt) = true.

Lemma sweep_events_view_angle W angles cur step n :
  forallb (view_angle P) (sweep_events W d angles cur step n) = true.
Proof.
  unfold sweep_events. induction (sweep_rays d n) as [|r l IH];
    cbn [flat_map]; [reflexivity|].
  rewrite forallb_app, IH, andb_true_r. unfold ray_events. simpl.
  destruct (bBlockingHit _ && ShowDebugPoints d); reflexivity.
Qed.

Lemma Tick_angle_step (W : Engine) (m : Machine) (dt : float) :
  configured (Sensor m) d ->
  F32.valid (HorizontalAngle (LidarMeasurement (Sensor m))) = true ->
  P (HorizontalAngle (LidarMeasurement (Sensor m))) = true ->
  frame_ok dt = true ->
  exists m' t,
    Tick W dt m = Ok (tt, m') /\
    configured (Sensor m') d /\
    F32.valid (HorizontalAngle (LidarMeasurement (Sensor m'))) = true /\
    P (HorizontalAngle (LidarMeasurement (Sensor m'))) = true /\
    Trace m' = Trace m ++ t /\ forallb (view_angle P) t = true.
Proof.
  intros Hc Hva Ha Hfr.
  destruct (frame_ok_budget dt Hfr) as [n Hn].
  unfold Tick. destruct (Z.le_gt_cases n 0) as [Hle|Hgt].
  - destruct Hc as [Hd Hlen].
    eexists.
    exists [EvLog Warning (GetName W);
            EvWriteSensorData (LidarMeasurement (Sensor m))].
    rewrite (bind_Ok _ _ _ _ _ (ReadPoints_skip W d m dt n Hd Hn Hle)).
    split; [reflexivity|]. simpl.
    split; [split; assumption|]. split; [exact Hva|]. split; [exact Ha|].
    split; [rewrite <- app_assoc; reflexivity|]. rewrite Ha. reflexivity.
  - destruct (P_kept _ dt Hva Ha Hfr) as [Hv' Ha'].
    eexists.
    exists (sweep_events W d (LaserAngles (Sensor m))
              (HorizontalAngle (LidarMeasurement (Sensor m)))
              (AngleDistanceOfTick d dt / F32.of_Z n)%f32 n
            ++ [EvWriteSensorData (scanned_measurement W d (Sensor m) dt n)]).
    rewrite (bind_Ok _ _ _ _ _ (ReadPoints_scan W d m dt n Hc Hn Hgt)).
    split; [reflexivity|]. simpl. destruct Hc as [Hd Hlen].
    split; [split; [reflexivity | exact Hlen]|].
    split; [exact Hv'|]. split; [exact Ha'|].
    split; [rewrite <- app_assoc; reflexivity|].
    rewrite forallb_app, sweep_events_view_angle. simpl.
    rewrite Ha'. reflexivity.
Qed.

Lemma Ticks_angle_run (frames : list (Engine * float)) :
  forallb (fun f => frame_ok (snd f)) frames = true ->
  forall m, configured (Sensor m) d ->
  F32.valid (HorizontalAngle (LidarMeasurement (Sensor m))) = true ->
  P (HorizontalAngle (LidarMeasurement (Sensor m))) = true ->
  exists m' t,
    Ticks frames m = Ok (tt, m') /\
    P (HorizontalAngle (LidarMeasurement (Sensor m'))) = true /\
    Trace m' = Trace m ++ t /\ forallb (view_angle P) t = true.
Proof.
  induction frames as [|[W dt] frames IH]; intros Hfr m Hc Hva Ha.
  - exists m, []. simpl. rewrite app_nil_r. repeat split. exact Ha.
  - cbn [forallb snd] in Hfr. apply andb_true_iff in Hfr.
    destruct Hfr as [Hf1 Hfr].
    destruct (Tick_angle_step W m dt Hc Hva Ha Hf1)
      as [m1 [t1 [Hrun [Hc1 [Hv1 [Ha1 [Ht1 Hr1]]]]]]].
    destruct (IH Hfr m1 Hc1 Hv1 Ha1) as [m2 [t2 [Hrun2 [Ha2 [Ht2 Hr2]]]]].
    exists m2, (t1 ++ t2). cbn [Ticks].
    rewrite (bind_Ok _ _ _ _ _ Hrun).
    split; [exact Hrun2|]. split; [exact Ha2|].
    split; [rewrite Ht2, Ht1, app_assoc; reflexivity|].
    rewrite forallb_app, Hr1, Hr2. reflexivity.
Qed.

End AngleInvariant.

(** X9.  Whichever way the sensor turns, its horizontal angle stays strictly
    between -360 and 360: from [Set] on, through any number of frames
    whose sweep is below [2^125] degrees in magnitude, this holds of every
    view handed to the sink and of the angle the sensor ends with. *)
Theorem Ticks_angle_below_360 (m : Machine) (d : ULidarDescription)
  (frames : list (Engine * float)) :
  0 < Channels d ->
  F32.valid (RotationFrequency d) = true ->
  forallb (fun f => bounded_frame d (snd f)) frames = true ->
  exists m1 m2 t,
    Set_ d m = Ok (tt, m1) /\
    Ticks frames m1 = Ok (tt, m2) /\
    below_360 (HorizontalAngle (LidarMeasurement (Sensor m2))) = true /\
    Trace m2 = Trace m ++ t /\
    forallb (view_angle below_360) t = true.
Proof.
  intros Hn Hvr Hfr.
  destruct (Ticks_angle_run d below_360 (bounded_frame d)
              (fun dt H => proj1 (bounded_frame_inv d dt H))
              (fun cur dt Hv Hp Hf =>
                 let H := next_angle_below_360 d cur dt Hvr Hv Hp Hf in
                 conj (proj1 H) (proj1 (proj2 H)))
              frames Hfr
              (mkMachine (configured_sensor (Id (Sensor m)) d) (Trace m))
              (Set_configures _ d Hn) eq_refl eq_refl)
    as [m2 [t [Hrun [Ha [Ht Hr]]]]].
  exists (mkMachine (configured_sensor (Id (Sensor m)) d) (Trace m)), m2, t.
  split; [apply Set_run; assumption|]. split; [exact Hrun|].
  split; [exact Ha|]. split; [exact Ht | exact Hr].
Qed.

Lemma Ticks_angle_below_360_witness :
  exists m1 m2 t,
    Set_ backwards_description boot = Ok (tt, m1) /\
    Ticks [(still_engine upper_half [], one_twentieth);
           (still_engine upper_half [], F32.zero);
           (still_engine upper_half [Vehicles], one_twelfth)] m1
    = Ok (tt, m2) /\
    below_360 (HorizontalAngle (LidarMeasurement (Sensor m2))) = true /\
    Trace m2 = [] ++ t /\
    forallb (view_angle below_360) t = true.
Proof.
  apply (Ticks_angle_below_360 boot backwards_description
           [(still_engine upper_half [], one_twentieth);
            (still_engine upper_half [], F32.zero);
            (still_engine upper_half [Vehicles], one_twelfth)]).
  - simpl. lia.
  - reflexivity.
  - reflexivity.
Defined.

Lemma forward_frame_inv (d : ULidarDescription) (dt : float) :
  forward_frame d dt = true ->
  bounded_frame d dt = true /\
  F32.is_nonneg (AngleDistanceOfTick d dt) = true.
Proof. unfold forward_frame. rewrite andb_true_iff. tauto. Qed.

Lemma next_angle_in_range (d : ULidarDescription) (cur dt : float) :
  F32.valid (RotationFrequency d) = true ->
  F32.valid cur = true -> in_0_360 cur = true ->
  forward_frame d dt = true ->
  F32.valid (next_angle d cur dt) = true /\
  in_0_360 (next_angle d cur dt) = true.
Proof.
  intros Hvr Hvc Hc Hfr.
  destruct (forward_frame_inv d dt Hfr) as [Hb Hns].
  destruct (in_0_360_inv cur Hc) as [Hlt Hnc].
  destruct (below_360_inv cur Hlt) as [Hfc _].
  destruct (bounded_frame_inv d dt Hb) as [_ [Hvd Hes]].
  destruct (next_angle_below_360 d cur dt Hvr Hvc Hlt Hb) as [Hv [_ Hin]].
  split; [exact Hv|]. apply Hin.
  apply add_nonneg; try assumption.
  - apply valid_AngleDistanceOfTick; assumption.
  - apply (exponent_le_finite 101). assumption.
Qed.

(** X10.  A sensor that turns forwards keeps its horizontal angle in [0, 360):
    from [Set] on, through any number of frames whose sweep is not
    negative (and below [2^125] degrees), every view handed to the sink
    and the angle the sensor ends with lie in [0, 360). *)
Theorem Ticks_angle_in_range (m : Machine) (d : ULidarDescription)
  (frames : list (Engine * float)) :
  0 < Channels d ->
  F32.valid (RotationFrequency d) = true ->
  forallb (fun f => forward_frame d (snd f)) frames = true ->
  exists m1 m2 t,
    Set_ d m = Ok (tt, m1) /\
    Ticks frames m1 = Ok (tt, m2) /\
    in_0_360 (HorizontalAngle (LidarMeasurement (Sensor m2))) = true /\
    Trace m2 = Trace m ++ t /\
    forallb (view_angle in_0_360) t = true.
Proof.
  intros Hn Hvr Hfr.
  destruct (Ticks_angle_run d in_0_360 (forward_frame d)
              (fun dt H =>
                 proj1 (bounded_frame_inv d dt
                          (proj1 (forward_frame_inv d dt H))))
              (fun cur dt Hv Hp Hf => next_angle_in_range d cur dt Hvr Hv Hp Hf)
              frames Hfr
              (mkMachine (configured_sensor (Id (Sensor m)) d) (Trace m))
              (Set_configures _ d Hn) eq_refl eq_refl)
    as [m2 [t [Hrun [Ha [Ht Hr]]]]].
  exists (mkMachine (configured_sensor (Id (Sensor m)) d) (Trace m)), m2, t.
  split; [apply Set_run; assumption|]. split; [exact Hrun|].
  split; [exact Ha|]. split; [exact Ht | exact Hr].
Qed.

Lemma Ticks_angle_in_range_witness :
  exists m1 m2 t,
    Set_ small_description boot = Ok (tt, m1) /\
    Ticks [(still_engine upper_half [], one_twentieth);
           (still_engine upper_half [], F32.zero);
           (still_engine upper_half [Vehicles], one_twelfth)] m1
    = Ok (tt, m2) /\
    in_0_360 (HorizontalAngle (LidarMeasurement (Sensor m2))) = true /\
    Trace m2 = [] ++ t /\
    forallb (view_angle in_0_360) t = true.
Proof.
  apply (Ticks_angle_in_range boot small_description
           [(still_engine upper_half [], one_twentieth);
            (still_engine upper_half [], F32.zero);
            (still_engine upper_half [Vehicles], one_twelfth)]).
  - simpl. lia.
  - reflexivity.
  - reflexivity.
Defined.

(* ===================================================================== *)
(** * The angles of the table are finite *)
(* ===================================================================== *)

Lemma mul_exponent_le (x y : float) (a b : Z) :
  F32.valid x = true -> F32.valid y = true ->
  F32.exponent_le a x = true -> F32.exponent_le b y = true ->
  a + b + 25 <= 104 ->
  F32.exponent_le (Z.max (a + b + 24) (-149) + 1) (x * y)%f32 = true.
Proof.
  intros Hvx Hvy Hx Hy Hab. unfold F32.mul.
  destruct x as [sx|sx| |sx mx ex]; try discriminate;
    destruct y as [sy|sy| |sy my ey]; try discriminate; try reflexivity.
  simpl in Hx, Hy. apply Z.leb_le in Hx. apply Z.leb_le in Hy.
  destruct (valid_finite_bounds _ _ _ Hvx) as [Hmx _].
  destruct (valid_finite_bounds _ _ _ Hvy) as [Hmy _].
  cbn [SFmul].
  destruct (binary_round_aux_shaped (xorb sx sy) (Zpos (mx * my)) (ex + ey)
              loc_Exact) as [_ Hs]; [lia | apply (mul_shaped sx sy); assumption |].
  assert (Hd : Zdigits2 (Zpos (mx * my)) <= 48).
  { apply Zdigits2_le; [lia | lia |].
    rewrite Pos2Z.inj_mul.
    assert (E : 2 ^ 48 = 2 ^ 24 * 2 ^ 24) by reflexivity. nia. }
  rewrite fexp32_eq in Hs.
  destruct (binary_round_aux _ _ _ _ _ _) as [s'|s'| |s' m' e'];
    simpl; try reflexivity.
  - exfalso. lia.
  - contradiction.
  - apply Z.leb_le. lia.
Qed.

Lemma div_count_exponent_le (x : float) (k a : Z) (m2 : positive) (e2 : Z) :
  F32.valid x = true -> F32.exponent_le a x = true ->
  F32.of_Z k = S754_finite false m2 e2 ->
  Zpos (digits2_pos m2) = 24 ->
  a - e2 - 22 <= 104 ->
  F32.exponent_le (Z.max (a - e2 - 22) (-148)) (x / F32.of_Z k)%f32 = true.
Proof.
  intros Hv Hx E Hd2 Ha. rewrite E. unfold F32.div, SFdiv.
  destruct x as [sx|sx| |sx mx ex]; try discriminate; [reflexivity|].
  simpl in Hx. apply Z.leb_le in Hx.
  destruct (valid_finite_bounds _ _ _ Hv) as [Hmx [Hex _]].
  destruct (div_core_spec mx ex m2 e2) as [q [e [l [Ec [He [Hq [Hq0 Hle]]]]]]].
  rewrite Ec.
  destruct (binary_round_aux_shaped (xorb sx false) q e l Hq0 Hle) as [_ Hs].
  destruct (digits2_pos_bounds m2) as [Hlo2 _].
  assert (Hse : 0 <= ex - e2 - e) by (rewrite He; lia).
  pose proof (div_digits (Zpos mx) (Zpos m2) 24 (Zpos (digits2_pos m2))
                (ex - e2 - e)) as Hdq.
  rewrite <- Hq in Hdq.
  assert (Hdq' : Zdigits2 q <= Z.max 0 (24 + (ex - e2 - e) - 24 + 1))
    by (rewrite Hd2 in Hdq, Hlo2; apply Hdq; lia).
  assert (Hee : e <= ex - e2) by (rewrite He; lia).
  rewrite fexp32_eq in Hs.
  destruct (binary_round_aux F32.prec F32.emax (xorb sx false) q e l)
    as [s'|s'| |s' m' e']; simpl; try reflexivity.
  - exfalso. lia.
  - contradiction.
  - apply Z.leb_le. lia.
Qed.

Lemma of_Z_exponent_le (i k : Z) (mk : positive) (ek : Z) :
  0 <= i <= k -> k < 2 ^ 32 ->
  F32.of_Z k = S754_finite false mk ek ->
  F32.exponent_le ek (F32.of_Z i) = true.
Proof.
  intros Hi Hk Ek.
  destruct (Z.eq_dec i 0) as [->|Hne]; [reflexivity|].
  destruct (of_Z_normal i) as [mi [ei [Ei [Hdi _]]]]; [lia|].
  pose proof (leb_ival (F32.of_Z i) (F32.of_Z k) (valid_of_Z i) (valid_of_Z k)
                (of_Z_finite i ltac:(lia)) (of_Z_finite k ltac:(lia))
                (of_Z_mono i k ltac:(lia))) as Hv.
  pose proof (valid_of_Z k) as Hvk. rewrite Ek in Hvk.
  destruct (valid_finite_bounds _ _ _ Hvk) as [Hmk [Hek _]].
  pose proof (valid_of_Z i) as Hvi. rewrite Ei in Hvi.
  destruct (valid_finite_bounds _ _ _ Hvi) as [_ [Hei _]].
  rewrite Ei, Ek in Hv. cbn [ival cond_Zopp] in Hv.
  rewrite Ei. simpl. apply Z.leb_le.
  destruct (digits2_pos_bounds mi) as [Hlo _]. rewrite Hdi in Hlo.
  destruct (Z.le_gt_cases ei ek) as [|Hgt]; [assumption|exfalso].
  assert (Hp : 2 ^ (ei + 149) = 2 ^ (ei - ek - 1) * 2 * 2 ^ (ek + 149)).
  { replace (ei + 149) with ((ei - ek - 1) + 1 + (ek + 149)) by lia.
    rewrite !Z.pow_add_r by lia. reflexivity. }
  assert (0 < 2 ^ (ek + 149)) by (apply Z.pow_pos_nonneg; lia).
  assert (1 <= 2 ^ (ei - ek - 1)) by (apply (Z.pow_le_mono_r 2 0); lia).
  change (2 ^ (24 - 1)) with 8388608 in Hlo.
  change (2 ^ 24) with 16777216 in Hmk.
  rewrite Hp in Hv. nia.
Qed.

(** The product [float(i) * step] of an entry stays below [2^125]. *)
Lemma laser_term_bounded (d : ULidarDescription) (i : Z) :
  2 <= Channels d <= uint32_max ->
  F32.valid (UpperFovLimit d) = true -> F32.valid (LowerFovLimit d) = true ->
  F32.exponent_le 96 (UpperFovLimit d) = true ->
  F32.exponent_le 96 (LowerFovLimit d) = true ->
  0 <= i < Channels d ->
  F32.exponent_le 101 (F32.of_Z i * DeltaAngle d)%f32 = true.
Proof.
  intros Hn HvU HvL HU HL Hi.
  assert (H32 : uint32_max = 2 ^ 32 - 1) by reflexivity.
  unfold DeltaAngle. rewrite wrap32_small by lia.
  destruct (of_Z_normal (Channels d - 1)) as [m2 [e2 [E2 [Hd2 He2]]]]; [lia|].
  pose proof (valid_of_Z (Channels d - 1)) as Hvk. rewrite E2 in Hvk.
  destruct (valid_finite_bounds _ _ _ Hvk) as [_ [Hek _]].
  assert (HX : F32.exponent_le (96 + 2) (UpperFovLimit d - LowerFovLimit d)%f32
               = true) by (apply sub_exponent_le; try assumption; lia).
  pose proof (div_count_exponent_le _ (Channels d - 1) (96 + 2) m2 e2
                (valid_sub _ _ HvU HvL) HX E2 Hd2 ltac:(lia)) as HD.
  pose proof (of_Z_exponent_le i (Channels d - 1) m2 e2 ltac:(lia) ltac:(lia) E2)
    as HI.
  pose proof (mul_exponent_le _ _ _ _ (valid_of_Z i) (valid_div _ _) HI HD
                ltac:(lia)) as HT.
  eapply exponent_le_weaken; [|exact HT]. lia.
Qed.

Lemma laser_angle_finite (d : ULidarDescription) (i : Z) :
  2 <= Channels d <= uint32_max ->
  F32.valid (UpperFovLimit d) = true -> F32.valid (LowerFovLimit d) = true ->
  F32.exponent_le 96 (UpperFovLimit d) = true ->
  F32.exponent_le 96 (LowerFovLimit d) = true ->
  0 <= i < Channels d ->
  F32.is_finite (laser_angle d i) = true.
Proof.
  intros Hn HvU HvL HU HL Hi.
  pose proof (laser_term_bounded d i Hn HvU HvL HU HL Hi) as HT.
  unfold laser_angle.
  apply (exponent_le_finite (101 + 2)).
  apply sub_exponent_le; try assumption.
  - apply valid_mul; [apply valid_of_Z | apply valid_div].
  - apply (exponent_le_weaken 96); [lia | assumption].
  - lia.
Qed.

(** X11.  No angle of the table overflows: for two channels or more and limits
    of magnitude below [2^120], [Set] leaves a table whose angles are all
    finite numbers (no infinity, no NaN). *)
Theorem Set_table_finite (m : Machine) (d : ULidarDescription) :
  2 <= Channels d <= uint32_max ->
  F32.valid (UpperFovLimit d) = true -> F32.valid (LowerFovLimit d) = true ->
  F32.exponent_le 96 (UpperFovLimit d) = true ->
  F32.exponent_le 96 (LowerFovLimit d) = true ->
  exists m',
    Set_ d m = Ok (tt, m') /\
    forallb F32.is_finite (LaserAngles (Sensor m')) = true.
Proof.
  intros Hn HvU HvL HU HL.
  eexists. split; [apply Set_run; lia|]. simpl.
  apply forallb_forall. intros a Ha. unfold laser_table in Ha.
  apply in_map_iff in Ha. destruct Ha as [i [<- Hi]].
  apply in_indices in Hi. apply laser_angle_finite; assumption.
Qed.

Lemma Set_table_finite_witness :
  exists m',
    Set_ inverted_description boot = Ok (tt, m') /\
    forallb F32.is_finite (LaserAngles (Sensor m')) = true.
Proof.
  apply (Set_table_finite boot inverted_description); try reflexivity.
  unfold uint32_max; simpl; lia.
Defined.

(* ===================================================================== *)
(** * Limits the wrong way round *)
(* ===================================================================== *)

Lemma div_count_nonpos (x : float) (k : Z) :
  F32.valid x = true -> F32.is_finite x = true -> ival x <= 0 ->
  0 < k < 2 ^ 32 ->
  ival (x / F32.of_Z k)%f32 <= 0.
Proof.
  intros Hv Hf Hx Hk. destruct (of_Z_positive k Hk) as [m2 [e2 E]]. rewrite E.
  unfold F32.div.
  destruct x as [sx|sx| |sx mx ex]; try discriminate; cbn [SFdiv];
    try (simpl; lia).
  destruct sx.
  - cbn [xorb].
    destruct (div_core_spec mx ex m2 e2) as [q [e [l [Ec [_ [_ [Hq He]]]]]]].
    rewrite Ec.
    destruct (binary_round_aux_shaped true q e l Hq He) as [_ Hs].
    destruct (binary_round_aux _ _ _ _ _ _) as [s'|s'| |s' m' e'];
      try (simpl; lia).
    destruct Hs as [-> _]. cbn [ival cond_Zopp].
    assert (0 <= 2 ^ (e' + 149)) by (apply Z.pow_nonneg; lia). nia.
  - exfalso. cbn [ival cond_Zopp] in Hx.
    destruct (valid_finite_bounds _ _ _ Hv) as [_ [Hb _]].
    assert (0 < 2 ^ (ex + 149)) by (apply Z.pow_pos_nonneg; lia). nia.
Qed.

Lemma mul_antitone (x1 x2 D : float) :
  F32.valid x1 = true -> F32.valid x2 = true -> F32.valid D = true ->
  F32.is_finite x1 = true -> F32.is_finite x2 = true -> F32.is_finite D = true ->
  ival D <= 0 -> ival x1 <= ival x2 ->
  F32.leb (x2 * D)%f32 (x1 * D)%f32 = true.
Proof.
  intros Hv1 Hv2 HvD Hf1 Hf2 HfD HD Hle.
  destruct (mul_exact x1 D Hv1 HvD Hf1 HfD) as [z1 [e1 [s1 [H1 [E1 V1]]]]].
  destruct (mul_exact x2 D Hv2 HvD Hf2 HfD) as [z2 [e2 [s2 [H2 [E2 V2]]]]].
  rewrite E1, E2. apply (binary_normalize_mono_at _ _ _ _ (-298)); try lia.
  replace (e1 - -298) with (e1 + 298) by lia.
  replace (e2 - -298) with (e2 + 298) by lia. nia.
Qed.

(** X12.  A description whose upper limit is below its lower one is accepted,
    and its table runs the other way: for limits of magnitude below
    [2^120] the angles never decrease from one laser to the next. *)
Theorem Set_inverted_table_ascends (m : Machine) (d : ULidarDescription) :
  2 <= Channels d <= uint32_max ->
  F32.valid (UpperFovLimit d) = true -> F32.valid (LowerFovLimit d) = true ->
  F32.exponent_le 96 (UpperFovLimit d) = true ->
  F32.exponent_le 96 (LowerFovLimit d) = true ->
  F32.leb (UpperFovLimit d) (LowerFovLimit d) = true ->
  exists m',
    Set_ d m = Ok (tt, m') /\
    forall i j, 0 <= i <= j -> j < Channels d ->
      F32.leb (nth (Z.to_nat i) (LaserAngles (Sensor m')) F32.NaN)
              (nth (Z.to_nat j) (LaserAngles (Sensor m')) F32.NaN) = true.
Proof.
  intros Hn HvU HvL HU HL Hle.
  assert (H32 : uint32_max = 2 ^ 32 - 1) by reflexivity.
  eexists. split; [apply Set_run; lia|]. simpl.
  intros i j Hij Hj. rewrite !laser_table_nth by lia. unfold laser_angle.
  pose proof (exponent_le_finite _ _ HU) as HfU.
  pose proof (exponent_le_finite _ _ HL) as HfL.
  assert (HvD : F32.valid (DeltaAngle d) = true) by apply valid_div.
  assert (HfD : F32.is_finite (DeltaAngle d) = true).
  { apply DeltaAngle_finite; try assumption;
      eapply exponent_le_weaken; try eassumption; lia. }
  assert (HiD : ival (DeltaAngle d) <= 0).
  { unfold DeltaAngle. rewrite wrap32_small by lia.
    apply div_count_nonpos; [apply valid_sub; assumption | | | lia].
    - apply (exponent_le_finite (96 + 2)).
      apply sub_exponent_le; try assumption; lia.
    - destruct (sub_exact _ _ HvU HvL HfU HfL) as [z [e [s [He [E V]]]]].
      pose proof (leb_ival _ _ HvU HvL HfU HfL Hle) as Hi.
      assert (Hz : z <= 0).
      { assert (0 < 2 ^ (e + 149)) by (apply Z.pow_pos_nonneg; lia). nia. }
      rewrite E. clear - Hz.
      destruct z as [|p|p]; try lia; cbn [binary_normalize]; [simpl; lia|].
      pose proof (binary_round_sign true p e) as Hs.
      destruct (binary_round _ _ _ _ _) as [s'|s'| |s' m' e'];
        try (simpl; lia).
      subst s'. cbn [ival cond_Zopp].
      assert (0 <= 2 ^ (e' + 149)) by (apply Z.pow_nonneg; lia). nia. }
  assert (Hfi : F32.is_finite (F32.of_Z i) = true) by (apply of_Z_finite; lia).
  assert (Hfj : F32.is_finite (F32.of_Z j) = true) by (apply of_Z_finite; lia).
  assert (Hlij : ival (F32.of_Z i) <= ival (F32.of_Z j)).
  { apply leb_ival; try assumption; try apply valid_of_Z.
    apply of_Z_mono; lia. }
  pose proof (laser_term_bounded d i Hn HvU HvL HU HL ltac:(lia)) as Hti.
  pose proof (laser_term_bounded d j Hn HvU HvL HU HL ltac:(lia)) as Htj.
  apply sub_antitone; try assumption.
  - apply valid_mul; [apply valid_of_Z | assumption].
  - apply valid_mul; [apply valid_of_Z | assumption].
  - apply (exponent_le_finite 101); assumption.
  - apply (exponent_le_finite 101); assumption.
  - apply leb_ival.
    + apply valid_mul; [apply valid_of_Z | assumption].
    + apply valid_mul; [apply valid_of_Z | assumption].
    + apply (exponent_le_finite 101); assumption.
    + apply (exponent_le_finite 101); assumption.
    + apply mul_antitone; try assumption; apply valid_of_Z.
Qed.

Lemma Set_inverted_table_ascends_witness :
  exists m',
    Set_ inverted_description boot = Ok (tt, m') /\
    forall i j, 0 <= i <= j -> j < 32 ->
      F32.leb (nth (Z.to_nat i) (LaserAngles (Sensor m')) F32.NaN)
              (nth (Z.to_nat j) (LaserAngles (Sensor m')) F32.NaN) = true.
Proof.
  apply (Set_inverted_table_ascends boot inverted_description);
    try reflexivity.
  unfold uint32_max; simpl; lia.
Defined.

(* ===================================================================== *)
(** * The label, stored as a float *)
(* ===================================================================== *)

Lemma CastEnum_small (t : ECityObjectLabel) : 0 <= CastEnum t < 2 ^ 24.
Proof. destruct t; simpl; lia. Qed.

(** X13.  The label of a point is stored in its fourth component as a float;
    converting that component back to an integer gives the code of the
    label again, so that two hits with different labels never share a
    fourth component. *)
Theorem ShootLaser_label_round_trip (W : Engine) (m : Machine)
  (d : ULidarDescription) (c : Z) (va ha : float) :
  Description (Sensor m) = Some d ->
  nth_error (LaserAngles (Sensor m)) (Z.to_nat c) = Some va ->
  bBlockingHit (ray_hit W d va ha) = true ->
  exists p m',
    ShootLaser W c ha m = Ok (Some p, m') /\
    F32.to_uint32 (W4 p)
    = Some (CastEnum (hit_label W (ray_hit W d va ha))) /\
    forall t, W4 p = F32.of_Z (CastEnum t) ->
              t = hit_label W (ray_hit W d va ha).
Proof.
  intros Hd Hva Hhit.
  exists (hit_point W (ray_hit W d va ha)), (with_events (ray_events W d va ha) m).
  split.
  - rewrite (ShootLaser_run W d m c va ha Hd Hva).
    unfold ray_result. rewrite Hhit. reflexivity.
  - simpl. split; [apply to_uint32_of_Z, CastEnum_small|].
    intros t Ht.
    assert (E : Some (CastEnum (hit_label W (ray_hit W d va ha)))
                = Some (CastEnum t)).
    { rewrite <- (to_uint32_of_Z _ (CastEnum_small t)), <- Ht.
      symmetry. apply to_uint32_of_Z, CastEnum_small. }
    injection E as E.
    destruct t, (hit_label W (ray_hit W d va ha)); simpl in E;
      try reflexivity; discriminate E.
Qed.

Lemma ShootLaser_label_round_trip_witness :
  exists p m',
    ShootLaser (still_engine upper_half [None_; Vehicles]) 0 F32.zero
      (mkMachine mid_sweep_sensor []) = Ok (Some p, m') /\
    F32.to_uint32 (W4 p) = Some 10 /\
    forall t, W4 p = F32.of_Z (CastEnum t) -> t = Vehicles.
Proof.
  apply (ShootLaser_label_round_trip (still_engine upper_half [None_; Vehicles])
           (mkMachine mid_sweep_sensor []) sample_description 0
           (F32.of_Z 10) F32.zero).
  - reflexivity.
  - reflexivity.
  - reflexivity.
Defined.
